(** * The hill-climbing calendar solver (src/solvers/v09.cpp)

    A shallow embedding of the solver's move model, move generator and
    controller, followed by the properties established about them.

    Conventions of the embedding:
    - [int] and [long] values are integers in [Z]; the solver only ever
      increments, decrements and compares them, far below the machine range.
      The one place where an input of any size enters the arithmetic is
      the remaining change budget, [maxChanges] minus two change counts:
      there the result is reduced to the 32-bit range ([int32]), as the
      compiled program computes it.
    - [double] values are IEEE binary64 numbers ([float]); [+], [-], [/] and
      [>] are the primitive operations, so a threshold such as [0.9] is the
      same rounded constant as in the compiled program.
    - [std::vector] is a list.  The source indexes vectors unchecked, which
      is undefined outside the bounds; here an out-of-bounds read yields the
      default element and an out-of-bounds write leaves the vector as it is.
    - [std::unordered_set<std::string>] is a [gset string]. *)

From Stdlib Require Import ZArith List String Ascii Floats Uint63.
From Stdlib Require Import DecimalString DecimalZ DecimalPos Lia Bool.
From stdpp Require Import base strings gmap list.
Import ListNotations.
Open Scope Z_scope.
#[local] Set Warnings "-inexact-float".

(** ** Vectors and scalars *)

(** [v[i]] as an rvalue. *)
Definition idx {A : Type} (v : list A) (i : Z) (d : A) : A :=
  if i <? 0 then d else nth (Z.to_nat i) v d.

(** [v[i] = x]. *)
Definition upd {A : Type} (v : list A) (i : Z) (x : A) : list A :=
  if i <? 0 then v else <[Z.to_nat i := x]> v.

(** [(int) v.size()]. *)
Definition vsize {A : Type} (v : list A) : Z := Z.of_nat (length v).

(** The value of an [int] expression whose exact result is [z]: two's
    complement wrap-around to 32 bits. *)
Definition int32 (z : Z) : Z := (z + 2147483648) mod 4294967296 - 2147483648.

(** Conversion of an [int] to [double]; exact for every [int]. *)
Definition Z2double (z : Z) : float :=
  if z <? 0 then PrimFloat.opp (PrimFloat.of_uint63 (Uint63.of_Z (- z)))
  else PrimFloat.of_uint63 (Uint63.of_Z z).

(** [a > b] on doubles. *)
Definition fgt (a b : float) : bool := PrimFloat.ltb b a.

(** [std::to_string] and [operator<<] on an [int]. *)
Definition itos (z : Z) : string := NilZero.string_of_int (Z.to_int z).

(** ** Machine and State *)

Record Machine := mkMachine {
  weekDayPatterns : list Z;
  weekEndPatterns : list Z;
  weekDayPatternCosts : list float;
  weekEndPatternCosts : list float;
  loads : list float;
  weekNoDelays : list Z   (* Machine::noDelays *)
}.

Record State := mkState {
  machines : list Machine;
  score : Z;
  noViolations : Z;
  noDelays : Z
}.

Definition emptyMachine : Machine := mkMachine [] [] [] [] [] [].

Definition withWeekDayPatterns (m : Machine) (p : list Z) : Machine :=
  mkMachine p (weekEndPatterns m) (weekDayPatternCosts m)
            (weekEndPatternCosts m) (loads m) (weekNoDelays m).

Definition withWeekEndPatterns (m : Machine) (p : list Z) : Machine :=
  mkMachine (weekDayPatterns m) p (weekDayPatternCosts m)
            (weekEndPatternCosts m) (loads m) (weekNoDelays m).

Definition withMachines (s : State) (ms : list Machine) : State :=
  mkState ms (score s) (noViolations s) (noDelays s).

(** [state.machines[machine].weekDayPatterns[week] = v]. *)
Definition setWeekDay (s : State) (machine week v : Z) : State :=
  let m := idx (machines s) machine emptyMachine in
  withMachines s
    (upd (machines s) machine
         (withWeekDayPatterns m (upd (weekDayPatterns m) week v))).

(** [state.machines[machine].weekEndPatterns[week] = v]. *)
Definition setWeekEnd (s : State) (machine week v : Z) : State :=
  let m := idx (machines s) machine emptyMachine in
  withMachines s
    (upd (machines s) machine
         (withWeekEndPatterns m (upd (weekEndPatterns m) week v))).

(** ** Move parts *)

Inductive OptimizationPartType := WEEK_DAY | WEEK_END.

#[global] Instance OptimizationPartType_eq_dec : EqDecision OptimizationPartType.
Proof. solve_decision. Defined.

(** [(int) part.type]. *)
Definition typeCode (t : OptimizationPartType) : Z :=
  match t with WEEK_DAY => 0 | WEEK_END => 1 end.

Module OptimizationPart.

Record t := mk {
  machine : Z;
  week : Z;
  type : OptimizationPartType;
  from : Z;
  to : Z;
  costImprovement : float
}.

Definition weekDay (state : State) (machine week newPattern : Z) : t :=
  let m := idx (machines state) machine emptyMachine in
  mk machine week WEEK_DAY
     (idx (weekDayPatterns m) week 0)
     newPattern
     (PrimFloat.sub
        (idx (weekDayPatternCosts m) (idx (weekDayPatterns m) week 0 - 1) 0%float)
        (idx (weekDayPatternCosts m) (newPattern - 1) 0%float)).

Definition weekEnd (state : State) (machine week newPattern : Z) : t :=
  let m := idx (machines state) machine emptyMachine in
  mk machine week WEEK_END
     (idx (weekEndPatterns m) week 0)
     newPattern
     (PrimFloat.sub
        (idx (weekEndPatternCosts m) (idx (weekEndPatterns m) week 0 - 1) 0%float)
        (idx (weekEndPatternCosts m) (newPattern - 1) 0%float)).

Definition apply (part : t) (state : State) : State :=
  match type part with
  | WEEK_DAY => setWeekDay state (machine part) (week part) (to part)
  | WEEK_END => setWeekEnd state (machine part) (week part) (to part)
  end.

Definition undo (part : t) (state : State) : State :=
  match type part with
  | WEEK_DAY => setWeekDay state (machine part) (week part) (from part)
  | WEEK_END => setWeekEnd state (machine part) (week part) (from part)
  end.

End OptimizationPart.

(** ** Moves *)

Module Optimization.

Record t := mk {
  id : string;
  name : string;
  costImprovement : float;
  parts : list OptimizationPart.t
}.

(** What one iteration of the constructor's loop sends to [idStream]
    before the separator. *)
Definition partId (part : OptimizationPart.t) : string :=
  itos (OptimizationPart.machine part)
  +:+ "-" +:+ itos (OptimizationPart.week part)
  +:+ "-" +:+ itos (typeCode (OptimizationPart.type part))
  +:+ "-" +:+ itos (OptimizationPart.from part)
  +:+ "-" +:+ itos (OptimizationPart.to part).

(** The constructor's loop: the separator follows every part but the
    last one. *)
Fixpoint idStream (parts : list OptimizationPart.t) : string :=
  match parts with
  | [] => ""
  | [part] => partId part
  | part :: rest => partId part +:+ "_" +:+ idStream rest
  end.

Definition sumImprovement (parts : list OptimizationPart.t) : float :=
  fold_left (fun acc part => (acc + OptimizationPart.costImprovement part)%float)
            parts 0%float.

(** [Optimization(name, parts)]. *)
Definition make (name : string) (parts : list OptimizationPart.t) : t :=
  mk (idStream parts) name (sumImprovement parts) parts.

Definition apply (o : t) (state : State) : State :=
  fold_left (fun s part => OptimizationPart.apply part s) (parts o) state.

Definition undo (o : t) (state : State) : State :=
  fold_left (fun s part => OptimizationPart.undo part s) (parts o) state.

End Optimization.

(** ** The solver *)

Definition emptyState : State := mkState [] 0 0 0.

Module Solver.

Record t := mk {
  noWeeks : Z;
  noMachines : Z;
  maxChanges : Z;
  noInteractions : Z;
  states : list State;
  badOptimizations : gset string;
  reduceGlobalFailed : bool;
  previousOptimization : option Optimization.t;
  bestScore : Z
}.

(** [Solver(noWeeks, noMachines, maxChanges, noInteractions)]: one initial
    state of [noMachines] empty machines. *)
Definition make (noWeeks noMachines maxChanges noInteractions : Z) : t :=
  mk noWeeks noMachines maxChanges noInteractions
     [mkState (repeat emptyMachine (Z.to_nat noMachines)) 0 0 0]
     ∅ false None 0.

(** The solver with its [states] vector replaced. *)
Definition withStates (sv : t) (sts : list State) : t :=
  mk (noWeeks sv) (noMachines sv) (maxChanges sv) (noInteractions sv)
     sts (badOptimizations sv) (reduceGlobalFailed sv)
     (previousOptimization sv) (bestScore sv).

(** The two inner assignments of [setInitialPatterns] for machine [i],
    for the weeks [js]. *)
Definition setInitialWeeks (i : Z) (state : State) (js : list Z) : State :=
  fold_left (fun st j => setWeekEnd (setWeekDay st i j 9) i j 9) js state.

Definition setInitialPatterns (sv : t) : t :=
  let state := idx (states sv) 0 emptyState in
  let state' :=
    fold_left (fun st i => setInitialWeeks i st (seqZ 0 (noWeeks sv)))
              (seqZ 0 (noMachines sv)) state in
  withStates sv (upd (states sv) 0 state').

(** *** Change counting *)

Definition getChanges (sv : t) (patterns : list Z) : Z :=
  fold_left
    (fun changes i =>
       if negb (idx patterns i 0 =? idx patterns (i + 1) 0)
       then changes + 1 else changes)
    (seqZ 0 (noWeeks sv - 1)) 0.

Definition getRemainingChanges (sv : t) (machine : Machine) : Z :=
  int32 (maxChanges sv - getChanges sv (weekDayPatterns machine)
         - getChanges sv (weekEndPatterns machine)).

(** *** Last operating weeks *)

(** The loop of [getLastOperatingWeeks] with [n] candidate weeks left;
    the week examined is [n - 1]. *)
Fixpoint lastOperatingLoop (machine : Machine) (n : nat)
         (lastOperatingWeekDay lastOperatingWeekEnd : Z) : Z * Z :=
  match n with
  | O => (lastOperatingWeekDay, lastOperatingWeekEnd)
  | S k =>
      if (lastOperatingWeekDay =? -1) || (lastOperatingWeekEnd =? -1) then
        let i := Z.of_nat k in
        let wd :=
          if (lastOperatingWeekDay =? -1)
             && negb (idx (weekDayPatterns machine) i 0 =? 1)
          then i else lastOperatingWeekDay in
        let we :=
          if (lastOperatingWeekEnd =? -1)
             && negb (idx (weekEndPatterns machine) i 0 =? 1)
          then i else lastOperatingWeekEnd in
        lastOperatingLoop machine k wd we
      else (lastOperatingWeekDay, lastOperatingWeekEnd)
  end.

Definition getLastOperatingWeeks (sv : t) (machine : Machine) : Z * Z :=
  lastOperatingLoop machine (Z.to_nat (noWeeks sv)) (-1) (-1).

(** *** Move generation *)

Definition patternsOf (side : OptimizationPartType) (machine : Machine) : list Z :=
  match side with
  | WEEK_DAY => weekDayPatterns machine
  | WEEK_END => weekEndPatterns machine
  end.

Definition partOf (side : OptimizationPartType)
           (state : State) (i j newPattern : Z) : OptimizationPart.t :=
  match side with
  | WEEK_DAY => OptimizationPart.weekDay state i j newPattern
  | WEEK_END => OptimizationPart.weekEnd state i j newPattern
  end.

(** [OptimizationPart::weekDay(state, i, j, machine.weekDayPatterns[j] - 1)]
    and its weekend twin, where [machine] is [state.machines[i]]. *)
Definition reducePart (side : OptimizationPartType)
           (state : State) (i j : Z) : OptimizationPart.t :=
  let machine := idx (machines state) i emptyMachine in
  partOf side state i j (idx (patternsOf side machine) j 0 - 1).

(** The scan deciding [canReduceGlobalWeekDay] / [canReduceGlobalWeekEnd]:
    [n] weeks left, starting at week [j]; it stops at the first week whose
    pattern differs from week 0. *)
Fixpoint reduceGlobalScan (patterns : list Z) (loads : list float)
         (j : Z) (n : nat) (can : bool) (loadSum : float) : bool * float :=
  match n with
  | O => (can, loadSum)
  | S k =>
      let loadSum' := (loadSum + idx loads j 0%float)%float in
      if negb (idx patterns j 0 =? idx patterns 0 0) then (false, loadSum')
      else reduceGlobalScan patterns loads (j + 1) k can loadSum'
  end.

(** The guard of the global reductions of one side; [first] is the week at
    which the source's scan starts: 0 for the weekday side, 1 for the
    weekend side. *)
Definition canReduceGlobal (sv : t) (patterns : list Z) (loads : list float)
           (first last : Z) : bool :=
  let '(can, loadSum) :=
    reduceGlobalScan patterns loads first (Z.to_nat (last - first + 1))
                     (negb (last =? -1)) 0%float in
  if negb (noInteractions sv =? 300)
     && fgt (loadSum / Z2double (last + 1))%float 0.75%float
  then false else can.

Definition canReduceGlobalWeekDay (sv : t) (machine : Machine) : bool :=
  canReduceGlobal sv (weekDayPatterns machine) (loads machine) 0
                  (fst (getLastOperatingWeeks sv machine)).

Definition canReduceGlobalWeekEnd (sv : t) (machine : Machine) : bool :=
  canReduceGlobal sv (weekEndPatterns machine) (loads machine) 1
                  (snd (getLastOperatingWeeks sv machine)).

(** The parts of the combined reduction of machine [i]: both sides of
    every week up to the earlier of the two last operating weeks. *)
Definition reduceGlobalPartsOf (sv : t) (state : State) (i : Z)
  : list OptimizationPart.t :=
  let machine := idx (machines state) i emptyMachine in
  let '(lastOperatingWeekDay, lastOperatingWeekEnd) :=
    getLastOperatingWeeks sv machine in
  flat_map (fun j => [reducePart WEEK_DAY state i j; reducePart WEEK_END state i j])
           (seqZ 0 (Z.min lastOperatingWeekDay lastOperatingWeekEnd + 1)).

(** The three global reductions of machine [i], with what the machine adds
    to [reduceGlobalParts]. *)
Definition reduceGlobalMoves (sv : t) (state : State) (i : Z)
  : list Optimization.t * list OptimizationPart.t :=
  let machine := idx (machines state) i emptyMachine in
  let '(lastOperatingWeekDay, lastOperatingWeekEnd) :=
    getLastOperatingWeeks sv machine in
  let both := canReduceGlobalWeekDay sv machine && canReduceGlobalWeekEnd sv machine in
  ((if both
    then [Optimization.make ("ReduceGlobal" +:+ itos i) (reduceGlobalPartsOf sv state i)]
    else [])
   ++ (if canReduceGlobalWeekDay sv machine
       then [Optimization.make ("ReduceGlobalWeekDay" +:+ itos i)
               (map (reducePart WEEK_DAY state i) (seqZ 0 (lastOperatingWeekDay + 1)))]
       else [])
   ++ (if canReduceGlobalWeekEnd sv machine
       then [Optimization.make ("ReduceGlobalWeekEnd" +:+ itos i)
               (map (reducePart WEEK_END state i) (seqZ 0 (lastOperatingWeekEnd + 1)))]
       else []),
   if both then reduceGlobalPartsOf sv state i else []).

Definition createSplitThreshold : float := 0.4%float.
Definition improveSplitThreshold : float := 0.9%float.

(** [existingSplits[existingSplits.size() - 1].second++]. *)
Fixpoint incrLast (splits : list (Z * Z)) : list (Z * Z) :=
  match splits with
  | [] => []
  | [(start, size)] => [(start, size + 1)]
  | split :: rest => split :: incrLast rest
  end.

(** The runs [(start, size)] of equal pattern over weeks [0..last]. *)
Definition existingSplits (patterns : list Z) (last : Z) : list (Z * Z) :=
  fold_left
    (fun splits j =>
       if negb (idx patterns j 0 =? idx patterns (j - 1) 0)
       then splits ++ [(j, 1)] else incrLast splits)
    (seqZ 1 last) [(0, 1)].

(** The scan of one run: [n] weeks left, starting at week [j]; it stops at
    the first week of code 1. *)
Fixpoint improveScan (patterns : list Z) (loads : list float)
         (j : Z) (n : nat) (canImprove : bool) (loadSum : float) : bool * float :=
  match n with
  | O => (canImprove, loadSum)
  | S k =>
      let loadSum' := (loadSum + idx loads j 0%float)%float in
      if idx patterns j 0 =? 1 then (false, loadSum')
      else improveScan patterns loads (j + 1) k canImprove loadSum'
  end.

Definition canImproveSplit (patterns : list Z) (loads : list float)
           (split : Z * Z) : bool :=
  let '(start, size) := split in
  let '(canImprove, loadSum) :=
    improveScan patterns loads start (Z.to_nat size) true 0%float in
  if fgt (loadSum / Z2double size)%float improveSplitThreshold
  then false else canImprove.

(** The body of the loop over [existingSplits]. *)
Definition improveSplitMoves (side : OptimizationPartType) (name : string)
           (state : State) (i : Z) (split : Z * Z) : list Optimization.t :=
  let machine := idx (machines state) i emptyMachine in
  if canImproveSplit (patternsOf side machine) (loads machine) split
  then [Optimization.make name
          (map (reducePart side state i) (seqZ (fst split) (snd split)))]
  else [].

(** The downward loop of CreateSplit: [n] weeks left, week [j] next.
    [divisorLast] is the last operating week the source uses in the
    divisor of the running mean. *)
Fixpoint createSplitScan (side : OptimizationPartType) (state : State) (i : Z)
         (divisorLast : Z) (j : Z) (n : nat) (loadSum : float)
         (parts : list OptimizationPart.t) (newPatterns : list Z)
  : list OptimizationPart.t * list Z :=
  match n with
  | O => (parts, newPatterns)
  | S k =>
      let machine := idx (machines state) i emptyMachine in
      let loadSum' := (loadSum + idx (loads machine) j 0%float)%float in
      if fgt (loadSum' / Z2double (divisorLast - j + 1))%float createSplitThreshold
      then (parts, newPatterns)
      else createSplitScan side state i divisorLast (j - 1) k loadSum'
             (parts ++ [reducePart side state i j])
             (upd newPatterns j (idx newPatterns j 0 - 1))
  end.

(** CreateSplit of one side; [otherChanges] is the change count of the
    other side. *)
Definition createSplitMoves (sv : t) (side : OptimizationPartType) (name : string)
           (state : State) (i : Z) (last divisorLast otherChanges : Z)
  : list Optimization.t :=
  let machine := idx (machines state) i emptyMachine in
  let '(parts, newPatterns) :=
    createSplitScan side state i divisorLast last (Z.to_nat (last + 1))
                    0%float [] (patternsOf side machine) in
  let newChanges := getChanges sv newPatterns in
  let newRemainingChanges := int32 (maxChanges sv - newChanges - otherChanges) in
  if negb (match parts with [] => true | _ => false end)
     && (0 <=? newRemainingChanges)
  then [Optimization.make name parts] else [].

(** Everything the loop body emits for machine [i] after the global
    reductions. *)
Definition splitMoves (sv : t) (state : State) (i : Z) : list Optimization.t :=
  let machine := idx (machines state) i emptyMachine in
  let '(lastOperatingWeekDay, lastOperatingWeekEnd) :=
    getLastOperatingWeeks sv machine in
  let weekDayChanges := getChanges sv (weekDayPatterns machine) in
  let weekEndChanges := getChanges sv (weekEndPatterns machine) in
  (if negb (lastOperatingWeekDay =? -1) then
     flat_map (improveSplitMoves WEEK_DAY ("ImproveSplitWeekDay" +:+ itos i) state i)
              (existingSplits (weekDayPatterns machine) lastOperatingWeekDay)
     ++ createSplitMoves sv WEEK_DAY ("CreateSplitWeekDay" +:+ itos i) state i
          lastOperatingWeekDay lastOperatingWeekDay weekEndChanges
   else [])
  ++ (if negb (lastOperatingWeekEnd =? -1) then
        flat_map (improveSplitMoves WEEK_END ("ImproveSplitWeekEnd" +:+ itos i) state i)
                 (existingSplits (weekEndPatterns machine) lastOperatingWeekEnd)
        ++ createSplitMoves sv WEEK_END ("CreateSplitWeekEnd" +:+ itos i) state i
             lastOperatingWeekEnd lastOperatingWeekDay weekDayChanges
      else []).

(** One iteration of the loop over machines: the moves appended to
    [optimizations] and the parts appended to [reduceGlobalParts]. *)
Definition machineMoves (sv : t) (state : State) (i : Z)
  : list Optimization.t * list OptimizationPart.t :=
  let '(globals, parts) := reduceGlobalMoves sv state i in
  (globals ++ splitMoves sv state i, parts).

(** The downward loop of Shutdown for machine [i]: [n] weeks left, week
    [j] next; it stops at the first week with a positive load.  The
    result is [(partsAll, partsWeekDaysOnly, partsWeekEndsOnly)]. *)
Fixpoint shutdownScan (state : State) (i : Z) (j : Z) (n : nat)
         (partsAll partsWeekDaysOnly partsWeekEndsOnly : list OptimizationPart.t)
  : list OptimizationPart.t * list OptimizationPart.t * list OptimizationPart.t :=
  match n with
  | O => (partsAll, partsWeekDaysOnly, partsWeekEndsOnly)
  | S k =>
      let machine := idx (machines state) i emptyMachine in
      if fgt (idx (loads machine) j 0%float) 0%float
      then (partsAll, partsWeekDaysOnly, partsWeekEndsOnly)
      else shutdownScan state i (j - 1) k
             (partsAll ++ [OptimizationPart.weekDay state i j 1;
                           OptimizationPart.weekEnd state i j 1])
             (partsWeekDaysOnly ++ [OptimizationPart.weekDay state i j 1])
             (partsWeekEndsOnly ++ [OptimizationPart.weekEnd state i j 1])
  end.

(** What machine [i] adds to the parts of the Shutdown move. *)
Definition shutdownPartsOf (sv : t) (state : State) (i : Z)
  : list OptimizationPart.t :=
  let machine := idx (machines state) i emptyMachine in
  let remainingChanges := getRemainingChanges sv machine in
  if remainingChanges =? 0 then []
  else
    let '(lastOperatingWeekDay, lastOperatingWeekEnd) :=
      getLastOperatingWeeks sv machine in
    let top := Z.max lastOperatingWeekDay lastOperatingWeekEnd in
    let '(partsAll, partsWeekDaysOnly, partsWeekEndsOnly) :=
      shutdownScan state i top (Z.to_nat (top + 1)) [] [] [] in
    if remainingChanges =? 1 then
      if fgt (Optimization.costImprovement (Optimization.make "" partsWeekDaysOnly))
             (Optimization.costImprovement (Optimization.make "" partsWeekEndsOnly))
      then partsWeekDaysOnly else partsWeekEndsOnly
    else partsAll.

Definition generateOptimizations (sv : t) (state : State) : list Optimization.t :=
  let '(optimizations, reduceGlobalParts) :=
    fold_left
      (fun acc i =>
         let '(moves, parts) := machineMoves sv state i in
         (fst acc ++ moves, snd acc ++ parts))
      (seqZ 0 (noMachines sv)) ([], []) in
  optimizations
  ++ (if negb (noInteractions sv =? 300) && negb (reduceGlobalFailed sv)
      then [Optimization.make "ReduceGlobal" reduceGlobalParts] else [])
  ++ (if vsize (states sv) =? noInteractions sv
      then [Optimization.make "Shutdown"
              (flat_map (shutdownPartsOf sv state) (seqZ 0 (noMachines sv)))]
      else []).

(** *** The controller *)

(** [states[states.size() - 1]]. *)
Definition currentState (sv : t) : State :=
  idx (states sv) (vsize (states sv) - 1) emptyState.

Definition withCurrentState (sv : t) (state : State) : t :=
  withStates sv (upd (states sv) (vsize (states sv) - 1) state).

(** The first half of [refine]: update [bestScore], then revert the
    previous move if it did not work. *)
Definition revert (sv : t) : t :=
  let state := currentState sv in
  let best := Z.max (bestScore sv) (score state) in
  match previousOptimization sv with
  | Some previous =>
      if (score state =? 0) || (score state <? best) then
        mk (noWeeks sv) (noMachines sv) (maxChanges sv) (noInteractions sv)
           (upd (states sv) (vsize (states sv) - 1) (Optimization.undo previous state))
           ({[ Optimization.id previous ]} ∪ badOptimizations sv)
           (if String.eqb (Optimization.name previous) "ReduceGlobal"
            then true else reduceGlobalFailed sv)
           (previousOptimization sv) best
      else
        mk (noWeeks sv) (noMachines sv) (maxChanges sv) (noInteractions sv)
           (states sv) (badOptimizations sv) (reduceGlobalFailed sv)
           (previousOptimization sv) best
  | None =>
      mk (noWeeks sv) (noMachines sv) (maxChanges sv) (noInteractions sv)
         (states sv) (badOptimizations sv) (reduceGlobalFailed sv)
         (previousOptimization sv) best
  end.

(** The selection loop of [refine]: the pair
    [(bestOptimization, bestCostImprovement)] after the candidates. *)
Definition selectBest (bad : gset string) (optimizations : list Optimization.t)
  : option Optimization.t * float :=
  fold_left
    (fun best optimization =>
       if fgt (Optimization.costImprovement optimization) (snd best)
          && bool_decide (Optimization.id optimization ∉ bad)
       then (Some optimization, Optimization.costImprovement optimization)
       else best)
    optimizations (None, (-1)%float).

(** The second half of [refine]: generate, select, apply, remember. *)
Definition tryBest (sv : t) : t :=
  let state := currentState sv in
  let optimizations := generateOptimizations sv state in
  let bestOptimization := fst (selectBest (badOptimizations sv) optimizations) in
  mk (noWeeks sv) (noMachines sv) (maxChanges sv) (noInteractions sv)
     (match bestOptimization with
      | Some best => upd (states sv) (vsize (states sv) - 1) (Optimization.apply best state)
      | None => states sv
      end)
     (badOptimizations sv) (reduceGlobalFailed sv)
     bestOptimization (bestScore sv).

Definition refine (sv : t) : t := tryBest (revert sv).

End Solver.

(** ** The interaction loop of [main] *)

(** The header after the four integers: for every machine the nine pairs
    [(weekDayCost, weekEndCost)]. *)
Definition Costs := list (list (Z * Z)).

(** One feedback block: the three scalars, then for every machine the
    [noWeeks] lines [(load, delay)]. *)
Record Feedback := mkFeedback {
  fbScore : Z;
  fbNoViolations : Z;
  fbNoDelays : Z;
  fbMachines : list (list (float * Z))
}.

(** The first loop of [main]: size the pattern vectors and fill the cost
    tables of machine [i] of [states[0]]. *)
Definition readCosts (noWeeks : Z) (pairs : list (Z * Z)) : Machine :=
  mkMachine (repeat 0 (Z.to_nat noWeeks)) (repeat 0 (Z.to_nat noWeeks))
            (map (fun j => Z2double (fst (idx pairs j (0, 0)))) (seqZ 0 9))
            (map (fun j => Z2double (snd (idx pairs j (0, 0)))) (seqZ 0 9))
            [] [].

(** [main] up to and including [solver.setInitialPatterns()]. *)
Definition initialSolver (noWeeks noMachines maxChanges noInteractions : Z)
           (costs : Costs) : Solver.t :=
  let solver := Solver.make noWeeks noMachines maxChanges noInteractions in
  let state0 := idx (Solver.states solver) 0 emptyState in
  let state0' :=
    fold_left
      (fun st i => withMachines st (upd (machines st) i (readCosts noWeeks (idx costs i []))))
      (seqZ 0 noMachines) state0 in
  Solver.setInitialPatterns (Solver.withStates solver (upd (Solver.states solver) 0 state0')).

(** Reading one feedback block into [states[i]]. *)
Definition readMachine (noWeeks : Z) (machine : Machine) (block : list (float * Z)) : Machine :=
  mkMachine (weekDayPatterns machine) (weekEndPatterns machine)
            (weekDayPatternCosts machine) (weekEndPatternCosts machine)
            (map (fun k => fst (idx block k (0%float, 0))) (seqZ 0 noWeeks))
            (map (fun k => snd (idx block k (0%float, 0))) (seqZ 0 noWeeks)).

Definition readFeedback (solver : Solver.t) (i : Z) (fb : Feedback) : Solver.t :=
  let currentState := idx (Solver.states solver) i emptyState in
  let ms :=
    fold_left
      (fun ms j => upd ms j (readMachine (Solver.noWeeks solver)
                                         (idx ms j emptyMachine)
                                         (idx (fbMachines fb) j [])))
      (seqZ 0 (Solver.noMachines solver)) (machines currentState) in
  Solver.withStates solver
    (upd (Solver.states solver) i
         (mkState ms (fbScore fb) (fbNoViolations fb) (fbNoDelays fb))).

(** [State nextState(currentState); solver.states.push_back(nextState)]:
    the solver on which [refine] is then called. *)
Definition pushNextState (solver : Solver.t) (i : Z) : Solver.t :=
  Solver.withStates solver
    (Solver.states solver ++ [idx (Solver.states solver) i emptyState]).

(** The body of the interaction loop for index [i], after the grid of
    [states[i]] has been written. *)
Definition interaction (solver : Solver.t) (i : Z) (fb : Feedback) : Solver.t :=
  let solver' := readFeedback solver i fb in
  if i =? Solver.noInteractions solver - 1 then solver'
  else Solver.refine (pushNextState solver' i).

(** The interaction loop from index [i] on, fed with the judge's remaining
    feedback blocks. *)
Fixpoint mainLoop (solver : Solver.t) (i : Z) (fbs : list Feedback) : Solver.t :=
  match fbs with
  | [] => solver
  | fb :: rest =>
      if i <? Solver.noInteractions solver then
        if i =? Solver.noInteractions solver - 1 then interaction solver i fb
        else mainLoop (interaction solver i fb) (i + 1) rest
      else solver
  end.

(** The solvers on which [refine] is called along the loop, each with the
    loop index of the call. *)
Fixpoint refineCalls (solver : Solver.t) (i : Z) (fbs : list Feedback)
  : list (Z * Solver.t) :=
  match fbs with
  | [] => []
  | fb :: rest =>
      if i <? Solver.noInteractions solver then
        if i =? Solver.noInteractions solver - 1 then []
        else (i, pushNextState (readFeedback solver i fb) i)
               :: refineCalls (interaction solver i fb) (i + 1) rest
      else []
  end.

(** The grid written for [states[i]]: for every machine the pairs
    [(weekDayPatterns[k], weekEndPatterns[k])]. *)
Definition grid (solver : Solver.t) (i : Z) : list (list (Z * Z)) :=
  map (fun machine => combine (weekDayPatterns machine) (weekEndPatterns machine))
      (machines (idx (Solver.states solver) i emptyState)).

Definition runMain (noWeeks noMachines maxChanges noInteractions : Z)
           (costs : Costs) (fbs : list Feedback) : Solver.t :=
  mainLoop (initialSolver noWeeks noMachines maxChanges noInteractions costs) 0 fbs.

(** * Auxiliary definitions *)

(** A slot of the grid: machine, week and side. *)
Abbreviation slot := (Z * Z * OptimizationPartType)%type.

(** The slot a part rewrites. *)
Definition slotOf (p : OptimizationPart.t) : slot :=
  (OptimizationPart.machine p, OptimizationPart.week p, OptimizationPart.type p).

(** The value stored in a slot. *)
Definition slotValue (s : State) (x : slot) : Z :=
  let '(m, w, side) := x in
  idx (Solver.patternsOf side (idx (machines s) m emptyMachine)) w 0.

(** The assignment both [apply] and [undo] perform. *)
Definition write (x : slot) (v : Z) (s : State) : State :=
  let '(m, w, side) := x in
  match side with
  | WEEK_DAY => setWeekDay s m w v
  | WEEK_END => setWeekEnd s m w v
  end.

(** A sequence of assignments, first to last. *)
Definition writes (ws : list (slot * Z)) (s : State) : State :=
  fold_left (fun st w => write (fst w) (snd w) st) ws s.

(** What the loop maintains: the threshold is the initial -1 or has risen
    above it, and a selected move is a candidate outside the blacklist
    whose improvement is the threshold. *)
Definition selectInv (bad : gset string) (optimizations : list Optimization.t)
           (best : option Optimization.t * float) : Prop :=
  (snd best = (-1)%float \/ fgt (snd best) (-1)%float = true)
  /\ match fst best with
     | Some o => In o optimizations
                 /\ (Optimization.id o ∉ bad)
                 /\ snd best = Optimization.costImprovement o
                 /\ fgt (Optimization.costImprovement o) (-1)%float = true
     | None => True
     end.

(** The characters a printed integer can start with. *)
Definition numeric (c : ascii) : bool :=
  match c with
  | "0" | "1" | "2" | "3" | "4" | "5" | "6" | "7" | "8" | "9" | "-" => true
  | _ => false
  end%char.

(** The moves of a list that carry a given name, in their order. *)
Definition named (nm : string) (l : list Optimization.t) : list Optimization.t :=
  List.filter (fun o => String.eqb (Optimization.name o) nm) l.

(** The fleet-wide move as [generateOptimizations] appends it. *)
Definition fleetMove (sv : Solver.t) (state : State) : list Optimization.t :=
  if negb (Solver.noInteractions sv =? 300) && negb (Solver.reduceGlobalFailed sv)
  then [Optimization.make "ReduceGlobal"
          (flat_map (fun i => snd (Solver.machineMoves sv state i))
                    (seqZ 0 (Solver.noMachines sv)))]
  else [].

(** The Shutdown move as [generateOptimizations] appends it. *)
Definition shutdownMove (sv : Solver.t) (state : State) : list Optimization.t :=
  if vsize (Solver.states sv) =? Solver.noInteractions sv
  then [Optimization.make "Shutdown"
          (flat_map (Solver.shutdownPartsOf sv state) (seqZ 0 (Solver.noMachines sv)))]
  else [].

(** The left-to-right sum of the loads of [n] weeks from week [j]. *)
Definition loadSumFrom (loads : list float) (j n : Z) : float :=
  fold_left PrimFloat.add (map (fun k => idx loads k 0%float) (seqZ j n)) 0%float.

(** [last] is the last week below [noWeeks] whose pattern is not 1, or -1
    when there is none. *)
Definition lastNotOne (patterns : list Z) (noWeeks last : Z) : Prop :=
  (last = -1 /\ forall w, 0 <= w < noWeeks -> idx patterns w 0 = 1)
  \/ (0 <= last < noWeeks /\ idx patterns last 0 <> 1
      /\ forall w, last < w < noWeeks -> idx patterns w 0 = 1).

(** The same with only the weeks from [n] on examined. *)
Definition lastNotOneFrom (patterns : list Z) (noWeeks n last : Z) : Prop :=
  (last = -1 /\ forall w, n <= w < noWeeks -> idx patterns w 0 = 1)
  \/ (n <= last < noWeeks /\ idx patterns last 0 <> 1
      /\ forall w, last < w < noWeeks -> idx patterns w 0 = 1).

(** The weeks of a run. *)
Definition weeksOf (split : Z * Z) : list Z := seqZ (fst split) (snd split).

(** What the splits found over weeks [0..last] satisfy: in order they
    cover exactly these weeks, each is a non-empty stretch of one pattern,
    and each but the first starts where the pattern changes. *)
Record runsOf (patterns : list Z) (last : Z) (splits : list (Z * Z)) : Prop := {
  runs_cover : flat_map weeksOf splits = seqZ 0 (last + 1);
  runs_constant :
    Forall (fun split =>
              0 < snd split
              /\ forall j, fst split <= j < fst split + snd split ->
                           idx patterns j 0 = idx patterns (fst split) 0) splits;
  runs_maximal :
    Forall (fun split =>
              fst split <> 0 ->
              idx patterns (fst split - 1) 0 <> idx patterns (fst split) 0) splits
}.

(** A run qualifies for ImproveSplit when none of its weeks has code 1 and
    its mean load is not above the threshold. *)
Definition runQualifies (patterns : list Z) (loads : list float) (split : Z * Z) : bool :=
  forallb (fun j => negb (idx patterns j 0 =? 1)) (weeksOf split)
  && negb (fgt (loadSumFrom loads (fst split) (snd split) / Z2double (snd split))%float
               Solver.improveSplitThreshold).

(** The name prefix of the ImproveSplit moves of a side. *)
Definition improveName (side : OptimizationPartType) : string :=
  match side with
  | WEEK_DAY => "ImproveSplitWeekDay"
  | WEEK_END => "ImproveSplitWeekEnd"
  end.

(** The last operating week of a side. *)
Definition lastOperating (sv : Solver.t) (side : OptimizationPartType) (machine : Machine) : Z :=
  match side with
  | WEEK_DAY => fst (Solver.getLastOperatingWeeks sv machine)
  | WEEK_END => snd (Solver.getLastOperatingWeeks sv machine)
  end.

(** The ImproveSplit moves of one side of machine [i]: one per qualifying
    run, in the order of the runs. *)
Definition improveSplitsOf (sv : Solver.t) (side : OptimizationPartType)
           (state : State) (i : Z) : list Optimization.t :=
  let machine := idx (machines state) i emptyMachine in
  let last := lastOperating sv side machine in
  if last =? -1 then []
  else map (fun split => Optimization.make (improveName side +:+ itos i)
                           (map (Solver.reducePart side state i) (weeksOf split)))
           (List.filter (runQualifies (Solver.patternsOf side machine) (loads machine))
                        (Solver.existingSplits (Solver.patternsOf side machine) last)).

(** A part built on [state] by one of the two constructors. *)
Definition builtOn (state : State) (p : OptimizationPart.t) : Prop :=
  exists side i j newPattern, p = Solver.partOf side state i j newPattern.

(** The candidates [refine] generates when called on [sv]. *)
Definition candidates (sv : Solver.t) : list Optimization.t :=
  Solver.generateOptimizations (Solver.revert sv) (Solver.currentState (Solver.revert sv)).

(** The opposite side. *)
Definition otherSide (side : OptimizationPartType) : OptimizationPartType :=
  match side with WEEK_DAY => WEEK_END | WEEK_END => WEEK_DAY end.

(** The pattern vector of one side of machine [i]. *)
Definition sidePatterns (side : OptimizationPartType) (s : State) (i : Z) : list Z :=
  Solver.patternsOf side (idx (machines s) i emptyMachine).

(** Applying parts, first to last. *)
Definition applyParts (parts : list OptimizationPart.t) (s : State) : State :=
  fold_left (fun st part => OptimizationPart.apply part st) parts s.

(** The name prefix of the CreateSplit move of a side. *)
Definition createName (side : OptimizationPartType) : string :=
  match side with
  | WEEK_DAY => "CreateSplitWeekDay"
  | WEEK_END => "CreateSplitWeekEnd"
  end.

(** The CreateSplit moves of one side of machine [i], as [splitMoves] calls
    for them. *)
Definition createSplitsOf (sv : Solver.t) (side : OptimizationPartType)
           (state : State) (i : Z) : list Optimization.t :=
  let machine := idx (machines state) i emptyMachine in
  let last := lastOperating sv side machine in
  if last =? -1 then []
  else Solver.createSplitMoves sv side (createName side +:+ itos i) state i last
         (fst (Solver.getLastOperatingWeeks sv machine))
         (Solver.getChanges sv (Solver.patternsOf (otherSide side) machine)).

(** The weeks [i] below [noWeeks - 1] at which the pattern differs from the
    next week. *)
Definition changeWeeks (sv : Solver.t) (patterns : list Z) : list Z :=
  List.filter (fun i => negb (idx patterns i 0 =? idx patterns (i + 1) 0))
              (seqZ 0 (Solver.noWeeks sv - 1)).

(** No candidate seen so far outside the blacklist improves on the
    threshold. *)
Definition noneAbove (bad : gset string) (seen : list Optimization.t) (threshold : float) : Prop :=
  forall o, In o seen -> Optimization.id o ∉ bad ->
            fgt (Optimization.costImprovement o) threshold = false.

(** The pattern vectors of a state, machine by machine. *)
Definition patternsOfState (s : State) : list (list Z * list Z) :=
  map (fun machine => (weekDayPatterns machine, weekEndPatterns machine)) (machines s).

(** The pattern vectors of [states[k]]. *)
Definition patternsAt (solver : Solver.t) (k : Z) : list (list Z * list Z) :=
  patternsOfState (idx (Solver.states solver) k emptyState).

(** The assignment of [write] on the pattern vectors alone. *)
Definition pwrite (x : slot) (v : Z) (ps : list (list Z * list Z)) : list (list Z * list Z) :=
  let '(m, w, side) := x in
  let p := idx ps m ([], []) in
  upd ps m (match side with
            | WEEK_DAY => (upd (fst p) w v, snd p)
            | WEEK_END => (fst p, upd (snd p) w v)
            end).

(** A sequence of such assignments, first to last. *)
Definition pwrites (ws : list (slot * Z)) (ps : list (list Z * list Z))
  : list (list Z * list Z) :=
  fold_left (fun ps w => pwrite (fst w) (snd w) ps) ws ps.

(** [M] machines with [W] weeks on both sides. *)
Definition shaped (W M : nat) (ps : list (list Z * list Z)) : Prop :=
  length ps = M /\ Forall (fun p => length (fst p) = W /\ length (snd p) = W) ps.

(** A state of [M] machines with [W] weeks on both sides. *)
Definition shapedState (W M : nat) (s : State) : Prop :=
  length (machines s) = M
  /\ Forall (fun machine => length (weekDayPatterns machine) = W
                            /\ length (weekEndPatterns machine) = W) (machines s).

(** A part that lowers its slot by one from the value [state] holds. *)
Definition lowers (state : State) (p : OptimizationPart.t) : Prop :=
  OptimizationPart.to p = slotValue state (slotOf p) - 1.

(** A part that closes its slot. *)
Definition closes (p : OptimizationPart.t) : Prop := OptimizationPart.to p = 1.

(** The decimal digits. *)
Definition isDigit (c : ascii) : bool :=
  match c with
  | "0" | "1" | "2" | "3" | "4" | "5" | "6" | "7" | "8" | "9" => true
  | _ => false
  end%char.

(** A string of decimal digits only. *)
Fixpoint allDigits (s : string) : bool :=
  match s with
  | EmptyString => true
  | String c r => isDigit c && allDigits r
  end.

(** What can follow a printed integer: nothing, or a character that is
    not a digit. *)
Definition stops (s : string) : Prop :=
  match s with
  | EmptyString => True
  | String c _ => isDigit c = false
  end.

(** What a part contributes to the identity. *)
Definition partKey (p : OptimizationPart.t) : Z * Z * OptimizationPartType * Z * Z :=
  (OptimizationPart.machine p, OptimizationPart.week p, OptimizationPart.type p,
   OptimizationPart.from p, OptimizationPart.to p).

(** What follows the first part in the stream. *)
Definition idTail (rest : list OptimizationPart.t) : string :=
  match rest with
  | [] => ""
  | _ => "_" +:+ Optimization.idStream rest
  end.

(** A part of Shutdown for machine [i]: it closes a week at or below [top]
    from which every week up to [top] is without load. *)
Definition closesIdle (state : State) (i top : Z) (p : OptimizationPart.t) : Prop :=
  OptimizationPart.machine p = i
  /\ OptimizationPart.to p = 1
  /\ 0 <= OptimizationPart.week p <= top
  /\ forall w, OptimizationPart.week p <= w <= top ->
               fgt (idx (loads (idx (machines state) i emptyMachine)) w 0%float) 0%float = false.

(** The parts of a list are of one side. *)
Definition ofSide (side : OptimizationPartType) (parts : list OptimizationPart.t) : Prop :=
  Forall (fun p => OptimizationPart.type p = side) parts.

(** Pattern vectors without a code above 9. *)
Definition capped (ps : list (list Z * list Z)) : Prop :=
  Forall (fun p => Forall (fun v => v <= 9) (fst p) /\ Forall (fun v => v <= 9) (snd p)) ps.

(** A state without a pattern code above 9. *)
Definition cappedState (s : State) : Prop := capped (patternsOfState s).

(** What the loop maintains for the cap: no state has a code above 9, and
    the move to undo, if there is one, restores codes that are not above 9. *)
Definition cappedSolver (sv : Solver.t) : Prop :=
  Forall cappedState (Solver.states sv)
  /\ match Solver.previousOptimization sv with
     | Some o => Forall (fun p => OptimizationPart.from p <= 9) (Optimization.parts o)
     | None => True
     end.

(** The left-to-right sum of the loads of weeks [last], [last - 1], ...,
    [last - k]. *)
Definition trailingLoad (loads : list float) (last k : Z) : float :=
  fold_left PrimFloat.add
            (map (fun t => idx loads (last - t) 0%float) (seqZ 0 (k + 1))) 0%float.

(** The test that ends the downward loop of CreateSplit at the week
    [last - k]; [divisorLast] is the week the divisor is counted from. *)
Definition splitStops (loads : list float) (last divisorLast k : Z) : bool :=
  fgt (trailingLoad loads last k / Z2double (divisorLast - (last - k) + 1))%float
      Solver.createSplitThreshold.

(** The weeks [last], [last - 1], ..., [last - m + 1]. *)
Definition trailingWeeks (last m : Z) : list Z := map (fun k => last - k) (seqZ 0 m).

(** A state holds the feedback block [fb]: the three scalars and, for
    each of the [M] machines, the loads and delays of the [W] weeks. *)
Definition records (W M : Z) (fb : Feedback) (s : State) : Prop :=
  score s = fbScore fb
  /\ noViolations s = fbNoViolations fb
  /\ noDelays s = fbNoDelays fb
  /\ forall j, 0 <= j < M ->
       loads (idx (machines s) j emptyMachine)
       = map (fun w => fst (idx (idx (fbMachines fb) j []) w (0%float, 0))) (seqZ 0 W)
       /\ weekNoDelays (idx (machines s) j emptyMachine)
          = map (fun w => snd (idx (idx (fbMachines fb) j []) w (0%float, 0))) (seqZ 0 W).

(** ** Scenarios *)

(** Unit costs rising with the pattern code: 10 per code on weekdays, 15
    per code on weekends. *)
Definition risingCosts : list (Z * Z) :=
  [(10, 15); (20, 30); (30, 45); (40, 60); (50, 75); (60, 90); (70, 105); (80, 120); (90, 135)].

(** The same unit cost for every pattern code. *)
Definition flatCosts : list (Z * Z) := repeat (100, 100) 9.

(** A feedback block of one machine without delays. *)
Definition block (weekLoads : list float) : list (float * Z) :=
  map (fun load => (load, 0)) weekLoads.

(** A feedback block set without violations or delays. *)
Definition feedback (score : Z) (weekLoads : list (list float)) : Feedback :=
  mkFeedback score 0 0 (map block weekLoads).

(** The solver on which [refine] is called in the loop iteration [i]. *)
Definition refineCall (solver : Solver.t) (i : Z) (fb : Feedback) : Solver.t :=
  pushNextState (readFeedback solver i fb) i.

(** The change count of the whole fleet: adjacent-week inequalities summed
    over both sides of all machines. *)
Definition globalChanges (sv : Solver.t) (state : State) : Z :=
  fold_right Z.add 0
    (map (fun machine => Solver.getChanges sv (weekDayPatterns machine)
                         + Solver.getChanges sv (weekEndPatterns machine))
         (machines state)).

(** One machine, two weeks, twenty interactions: seven idle rounds, a
    rejected weekend reduction, then three more rounds. *)
Definition shrinkFeedback : list Feedback :=
  repeat (feedback 100 [[0; 0]]%float) 7
  ++ [feedback 100 [[2; 0]]; feedback 50 [[2; 0]];
      feedback 100 [[0; 0]]; feedback 100 [[0; 0]]]%float.

(** The solver after the first [rounds] feedback blocks of that run. *)
Definition shrinkRun (rounds : nat) : Solver.t :=
  runMain 2 1 4 20 [risingCosts] (firstn rounds shrinkFeedback).

(** Two machines, three weeks, a change budget of one. *)
Definition budgetFeedback : list Feedback :=
  [feedback 100 [[0; 3; 0]; [0; 3; 3]]; feedback 100 [[0; 3; 3]; [0; 3; 0]]]%float.

(** The solver after both feedback blocks. *)
Definition budgetRun : Solver.t :=
  runMain 3 2 1 10 [risingCosts; risingCosts] budgetFeedback.

(** One machine, three weeks, a change budget of one: eight rounds with
    a load on weeks 0 and 1 only, then a round without load. *)
Definition overBudgetFeedback : list Feedback :=
  repeat (feedback 100 [[3; 3; 0]]%float) 8 ++ [feedback 100 [[0; 0; 0]]%float].

(** The solver after the first [rounds] feedback blocks of that run. *)
Definition overBudgetRun (rounds : nat) : Solver.t :=
  runMain 3 1 1 20 [risingCosts] (firstn rounds overBudgetFeedback).

(** One machine, three weeks: a split is created, then every load is 0. *)
Definition twoRunsCall : Solver.t :=
  refineCall (runMain 3 1 4 10 [risingCosts] [feedback 100 [[0; 3; 0]]%float])
             1 (feedback 100 [[0; 0; 0]]%float).

(** One machine, two weeks, first feedback with the given loads. *)
Definition firstCall (N : Z) (costs : list (Z * Z)) (sc noDel : Z) (l0 l1 : float) : Solver.t :=
  refineCall (initialSolver 2 1 4 N [costs]) 0 (mkFeedback sc 0 noDel [block [l0; l1]]).

(** The second call of [refine] after a first round with idle loads. *)
Definition secondCall (sc1 sc2 noDel2 : Z) : Solver.t :=
  refineCall (runMain 2 1 4 20 [risingCosts] [feedback sc1 [[0; 0]]%float])
             1 (mkFeedback sc2 0 noDel2 [block [0; 0]%float]).

(** Two machines, two weeks; only machine 0 is lightly loaded. *)
Definition oneQualifies : Solver.t :=
  Solver.revert
    (refineCall (initialSolver 2 2 4 20 [risingCosts; risingCosts]) 0
                (feedback 100 [[0; 0]; [3; 3]]%float)).

(** The names of a list of moves. *)
Definition names (l : list Optimization.t) : list string := map Optimization.name l.

(** The identities of a list of moves. *)
Definition ids (l : list Optimization.t) : list string := map Optimization.id l.

(** The move [refine] has recorded as applied. *)
Definition appliedMove (sv : Solver.t) : Optimization.t :=
  default (Optimization.make "" []) (Solver.previousOptimization sv).

(** Two machines, two weeks: the fleet-wide ReduceGlobal is applied in the
    first round and rejected in the second. *)
Definition fleetRejected : Solver.t :=
  runMain 2 2 4 20 [risingCosts; risingCosts]
          [feedback 100 [[0; 0]; [0; 0]]%float; feedback 50 [[0; 0]; [0; 0]]%float].

(** * Properties *)

(** ** Vectors *)

Section Vectors.
Context {A : Type}.
Implicit Types (v : list A) (i j : Z) (x y d : A).

Lemma length_upd v i x : length (upd v i x) = length v.
Proof. unfold upd. destruct (i <? 0); [reflexivity | apply length_insert]. Qed.

Lemma vsize_upd v i x : vsize (upd v i x) = vsize v.
Proof. unfold vsize. now rewrite length_upd. Qed.

Lemma upd_outside v i x : ~ (0 <= i < vsize v) -> upd v i x = v.
Proof.
  unfold upd, vsize. intros H. destruct (Z.ltb_spec i 0); [reflexivity|].
  apply list_insert_ge. lia.
Qed.

Lemma idx_upd_eq v i x d : 0 <= i < vsize v -> idx (upd v i x) i d = x.
Proof.
  unfold idx, upd, vsize. intros [H1 H2].
  destruct (Z.ltb_spec i 0); [lia|].
  apply nth_lookup_Some, list_lookup_insert_eq. lia.
Qed.

Lemma idx_upd_ne v i j x d : i <> j -> idx (upd v i x) j d = idx v j d.
Proof.
  unfold idx, upd. intros H.
  destruct (Z.ltb_spec j 0); [reflexivity|].
  destruct (Z.ltb_spec i 0); [reflexivity|].
  rewrite !nth_lookup, list_lookup_insert_ne; [reflexivity | lia].
Qed.

Lemma upd_upd_eq v i x y : upd (upd v i y) i x = upd v i x.
Proof.
  unfold upd. destruct (i <? 0); [reflexivity | apply list_insert_insert_eq].
Qed.

Lemma upd_upd_ne v i j x y : i <> j -> upd (upd v i x) j y = upd (upd v j y) i x.
Proof.
  unfold upd. intros H.
  destruct (Z.ltb_spec i 0), (Z.ltb_spec j 0); try reflexivity.
  apply list_insert_insert_ne. lia.
Qed.

Lemma upd_idx v i d : upd v i (idx v i d) = v.
Proof.
  unfold upd, idx. destruct (Z.ltb_spec i 0); [reflexivity|].
  apply list_insert_id'. intros Hlt.
  destruct (nth_lookup_or_length v (Z.to_nat i) d) as [E|E]; [exact E | lia].
Qed.

Lemma idx_lookup v i d x : 0 <= i -> v !! Z.to_nat i = Some x -> idx v i d = x.
Proof.
  unfold idx. intros H E. destruct (Z.ltb_spec i 0); [lia|].
  now apply nth_lookup_Some.
Qed.
End Vectors.

(** ** Writes to a slot *)

Lemma apply_write p s : OptimizationPart.apply p s = write (slotOf p) (OptimizationPart.to p) s.
Proof. unfold OptimizationPart.apply, write, slotOf. now destruct (OptimizationPart.type p). Qed.

Lemma undo_write p s : OptimizationPart.undo p s = write (slotOf p) (OptimizationPart.from p) s.
Proof. unfold OptimizationPart.undo, write, slotOf. now destruct (OptimizationPart.type p). Qed.

Lemma write_outside m w side v s :
  ~ (0 <= m < vsize (machines s)) -> write (m, w, side) v s = s.
Proof.
  intros H. destruct s as [ms sc nv nd].
  destruct side; unfold write, setWeekDay, setWeekEnd, withMachines; simpl in *;
    now rewrite upd_outside.
Qed.

Lemma write_write_eq x v v' s : write x v (write x v' s) = write x v s.
Proof.
  destruct x as [[m w] side].
  destruct (decide (0 <= m < vsize (machines s))) as [Hm|Hm].
  - destruct s as [ms sc nv nd]. simpl in Hm.
    destruct side; unfold write, setWeekDay, setWeekEnd, withMachines; simpl;
      rewrite idx_upd_eq by assumption; rewrite upd_upd_eq; simpl;
      unfold withWeekDayPatterns, withWeekEndPatterns; simpl;
      now rewrite upd_upd_eq.
  - rewrite (write_outside m w side v' s Hm). now rewrite write_outside.
Qed.

Lemma write_write_ne x y v v' s :
  x <> y -> write x v (write y v' s) = write y v' (write x v s).
Proof.
  destruct x as [[m w] side], y as [[m' w'] side']. intros Hne.
  destruct s as [ms sc nv nd].
  destruct (decide (m = m')) as [->|Hmm].
  - destruct (decide (0 <= m' < vsize ms)) as [Hm|Hm].
    + destruct side, side';
        unfold write, setWeekDay, setWeekEnd, withMachines; simpl;
        rewrite !idx_upd_eq by assumption; rewrite !upd_upd_eq; simpl;
        unfold withWeekDayPatterns, withWeekEndPatterns; simpl;
        try reflexivity.
      * rewrite (upd_upd_ne _ w' w); [reflexivity | congruence].
      * rewrite (upd_upd_ne _ w' w); [reflexivity | congruence].
    + rewrite (write_outside m' w' side' v' (mkState ms sc nv nd)) by exact Hm.
      rewrite (write_outside m' w side v (mkState ms sc nv nd)) by exact Hm.
      now rewrite write_outside by exact Hm.
  - destruct side, side';
      unfold write, setWeekDay, setWeekEnd, withMachines; simpl;
      rewrite !idx_upd_ne by congruence;
      now rewrite (upd_upd_ne _ m' m) by congruence.
Qed.

Lemma write_slotValue x s : write x (slotValue s x) s = s.
Proof.
  destruct x as [[m w] side]. destruct s as [ms sc nv nd].
  destruct side; unfold write, slotValue, setWeekDay, setWeekEnd, withMachines; simpl;
    rewrite upd_idx;
    unfold withWeekDayPatterns, withWeekEndPatterns.
  - replace (mkMachine _ _ _ _ _ _) with (idx ms m emptyMachine) by now destruct (idx ms m emptyMachine).
    now rewrite upd_idx.
  - replace (mkMachine _ _ _ _ _ _) with (idx ms m emptyMachine) by now destruct (idx ms m emptyMachine).
    now rewrite upd_idx.
Qed.

(** ** Applying and undoing a move *)

Lemma apply_writes o s :
  Optimization.apply o s
  = writes (map (fun p => (slotOf p, OptimizationPart.to p)) (Optimization.parts o)) s.
Proof.
  unfold Optimization.apply, writes. generalize s.
  induction (Optimization.parts o) as [|p ps IH]; intros s0; simpl; [reflexivity|].
  now rewrite apply_write, IH.
Qed.

Lemma undo_writes o s :
  Optimization.undo o s
  = writes (map (fun p => (slotOf p, OptimizationPart.from p)) (Optimization.parts o)) s.
Proof.
  unfold Optimization.undo, writes. generalize s.
  induction (Optimization.parts o) as [|p ps IH]; intros s0; simpl; [reflexivity|].
  now rewrite undo_write, IH.
Qed.

(** A later write to a slot that [ws] writes as well is absorbed. *)
Lemma writes_absorb ws x v s :
  In x (map fst ws) -> writes ws (write x v s) = writes ws s.
Proof.
  revert s. induction ws as [|[y u] ws IH]; intros s; simpl; [tauto|].
  intros [->|Hin].
  - now rewrite write_write_eq.
  - destruct (decide (y = x)) as [->|Hne].
    + now rewrite write_write_eq.
    + rewrite write_write_ne by exact Hne. now apply IH.
Qed.

Lemma writes_absorb_all ws us s :
  (forall x, In x (map fst us) -> In x (map fst ws)) ->
  writes ws (writes us s) = writes ws s.
Proof.
  revert s. induction us as [|[y u] us IH]; intros s Hsub; simpl; [reflexivity|].
  rewrite IH by (intros x Hx; apply Hsub; simpl; tauto).
  apply writes_absorb, Hsub. simpl. tauto.
Qed.

Lemma writes_id ws s :
  Forall (fun w => snd w = slotValue s (fst w)) ws -> writes ws s = s.
Proof.
  induction 1 as [|[x v] ws Hx _ IH]; simpl; [reflexivity|].
  simpl in Hx. subst v. now rewrite write_slotValue.
Qed.

(** Writing back what the slots held undoes any writes to them. *)
Lemma undo_apply_snapshot (parts : list OptimizationPart.t) (s : State) :
  Forall (fun p => OptimizationPart.from p = slotValue s (slotOf p)) parts ->
  writes (map (fun p => (slotOf p, OptimizationPart.from p)) parts)
         (writes (map (fun p => (slotOf p, OptimizationPart.to p)) parts) s) = s.
Proof.
  intros H. rewrite writes_absorb_all.
  - apply writes_id. rewrite Forall_map. exact H.
  - intros x. rewrite !map_map. simpl. tauto.
Qed.

(** ** Order of doubles *)

Lemma SFltb_trans (a b c : spec_float) :
  SFltb a b = true -> SFltb b c = true -> SFltb a c = true.
Proof.
  unfold SFltb, SFcompare.
  destruct a as [[]|[]| |[] ma ea], b as [[]|[]| |[] mb eb], c as [[]|[]| |[] mc ec];
    try (intros; congruence); try reflexivity;
    destruct (Z.compare_spec ea eb), (Z.compare_spec eb ec), (Z.compare_spec ea ec);
    try (intros; congruence); try lia;
    subst;
    rewrite ?Pos.compare_cont_spec; simpl; rewrite ?Pos.compare_cont_spec; simpl;
    destruct (Pos.compare_spec ma mb), (Pos.compare_spec mb mc), (Pos.compare_spec ma mc);
    simpl; try (intros; congruence); try lia.
Qed.

Lemma fgt_trans (a b c : float) :
  fgt a b = true -> fgt b c = true -> fgt a c = true.
Proof.
  unfold fgt. rewrite !FloatAxioms.ltb_spec. intros H1 H2. exact (SFltb_trans _ _ _ H2 H1).
Qed.

(** ** The selection loop *)

Lemma selectBest_inv_gen (bad : gset string) all optimizations best :
  (forall o, In o optimizations -> In o all) ->
  selectInv bad all best ->
  selectInv bad all
    (fold_left
       (fun best optimization =>
          if fgt (Optimization.costImprovement optimization) (snd best)
             && bool_decide (Optimization.id optimization ∉ bad)
          then (Some optimization, Optimization.costImprovement optimization)
          else best)
       optimizations best).
Proof.
  revert best. induction optimizations as [|o os IH]; intros best Hsub Hinv; simpl; [exact Hinv|].
  apply IH; [intros; apply Hsub; simpl; tauto|].
  destruct (fgt (Optimization.costImprovement o) (snd best)) eqn:Hgt; simpl; [|exact Hinv].
  case_bool_decide as Hbad; simpl; [|exact Hinv].
  assert (Hpos : fgt (Optimization.costImprovement o) (-1)%float = true).
  { destruct Hinv as [[E|G] _]; [now rewrite <- E | exact (fgt_trans _ _ _ Hgt G)]. }
  split; simpl; [now right|].
  repeat split; try assumption. apply Hsub. simpl. tauto.
Qed.

Lemma selectBest_inv (bad : gset string) optimizations :
  selectInv bad optimizations (Solver.selectBest bad optimizations).
Proof.
  apply selectBest_inv_gen; [tauto|]. split; simpl; [now left | exact I].
Qed.

(** Nothing is selected when no candidate outside the blacklist improves
    on -1. *)
Lemma selectBest_none_gen (bad : gset string) optimizations best :
  (forall o, In o optimizations ->
             Optimization.id o ∉ bad -> fgt (Optimization.costImprovement o) (-1)%float = false) ->
  snd best = (-1)%float -> fst best = None ->
  fold_left
    (fun best optimization =>
       if fgt (Optimization.costImprovement optimization) (snd best)
          && bool_decide (Optimization.id optimization ∉ bad)
       then (Some optimization, Optimization.costImprovement optimization)
       else best)
    optimizations best = best.
Proof.
  revert best. induction optimizations as [|o os IH]; intros best Hall Hs Hf; simpl; [reflexivity|].
  case_bool_decide as Hbad.
  - rewrite Hs, (Hall o) by (simpl; tauto). simpl. apply IH; auto. intros; apply Hall; simpl; tauto.
  - rewrite andb_false_r. apply IH; auto. intros; apply Hall; simpl; tauto.
Qed.

(** ** Printed integers *)

Lemma string_of_uint_head (d : Decimal.uint) :
  d <> Decimal.Nil ->
  exists c r, NilEmpty.string_of_uint d = String c r /\ numeric c = true.
Proof. destruct d; intros H; try congruence; simpl; eauto. Qed.

Lemma itos_head (z : Z) : exists c r, itos z = String c r /\ numeric c = true.
Proof.
  unfold itos. destruct z as [|p|p]; simpl.
  - eauto.
  - destruct (string_of_uint_head (Pos.to_uint p) (Unsigned.to_uint_nonnil p))
      as (c & r & E & Hc).
    unfold NilZero.string_of_uint. destruct (Pos.to_uint p); eauto.
  - eauto.
Qed.

Lemma itos_inj (a b : Z) : itos a = itos b -> a = b.
Proof.
  unfold itos. intros H. apply to_int_inj.
  assert (Hn : forall z, Z.to_int z <> Decimal.Pos Decimal.Nil
                         /\ Z.to_int z <> Decimal.Neg Decimal.Nil).
  { intros [|p|p]; simpl; split; try congruence;
      intros [= E]; exact (Unsigned.to_uint_nonnil p E). }
  apply (f_equal NilZero.int_of_string) in H.
  rewrite !NilZero.isi in H by apply Hn. congruence.
Qed.

Lemma itos_not_head (z : Z) (c : ascii) (r : string) :
  numeric c = false -> itos z <> String c r.
Proof.
  intros Hc E. destruct (itos_head z) as (c' & r' & E' & Hc').
  rewrite E in E'. injection E' as -> _. congruence.
Qed.

Lemma itos_nonempty (z : Z) : itos z <> "".
Proof. destruct (itos_head z) as (c & r & E & _). rewrite E. discriminate. Qed.

(** Two names differ: peel equal leading characters, then the heads
    differ, or a printed integer would be empty or start with a letter, or
    two printed integers would be equal. *)
Ltac names_differ :=
  let H := fresh "H" in
  intros H;
  repeat (cbv beta iota fix delta [String.append] in H;
          first
            [ discriminate H
            | solve [refine (itos_not_head _ _ _ _ H); reflexivity]
            | solve [refine (itos_not_head _ _ _ _ (eq_sym H)); reflexivity]
            | solve [exact (itos_nonempty _ H)]
            | solve [exact (itos_nonempty _ (eq_sym H))]
            | solve [apply itos_inj in H; congruence]
            | injection H as H ]).

Lemma machine_loop_fold {A B} (f : Z -> list A * list B) (l : list Z) (a : list A) (b : list B) :
  fold_left (fun acc i => let '(moves, parts) := f i in (fst acc ++ moves, snd acc ++ parts))
            l (a, b)
  = (a ++ flat_map (fun i => fst (f i)) l, b ++ flat_map (fun i => snd (f i)) l).
Proof.
  revert a b. induction l as [|i l IH]; intros a b; simpl.
  - now rewrite !app_nil_r.
  - destruct (f i) as [moves parts]. simpl. rewrite IH. now rewrite <- !app_assoc.
Qed.

Lemma generateOptimizations_eq (sv : Solver.t) (state : State) :
  Solver.generateOptimizations sv state
  = flat_map (fun i => fst (Solver.machineMoves sv state i)) (seqZ 0 (Solver.noMachines sv))
    ++ fleetMove sv state ++ shutdownMove sv state.
Proof.
  unfold Solver.generateOptimizations, fleetMove, shutdownMove.
  rewrite (machine_loop_fold (Solver.machineMoves sv state)). reflexivity.
Qed.

Lemma named_app nm l1 l2 : named nm (l1 ++ l2) = named nm l1 ++ named nm l2.
Proof. apply List.filter_app. Qed.

Lemma named_flat_map {A} nm (f : A -> list Optimization.t) (l : list A) :
  named nm (flat_map f l) = flat_map (fun x => named nm (f x)) l.
Proof.
  induction l as [|x l IH]; simpl; [reflexivity|]. now rewrite named_app, IH.
Qed.

Lemma named_In nm l o : In o (named nm l) <-> In o l /\ Optimization.name o = nm.
Proof. unfold named. rewrite List.filter_In, String.eqb_eq. tauto. Qed.

Lemma named_make_eq nm parts : named nm [Optimization.make nm parts] = [Optimization.make nm parts].
Proof. unfold named. simpl. now rewrite String.eqb_refl. Qed.

Lemma named_make_ne nm nm' parts : nm' <> nm -> named nm [Optimization.make nm' parts] = [].
Proof. unfold named. simpl. intros H. apply String.eqb_neq in H. now rewrite H. Qed.

Lemma named_if nm (b : bool) l : named nm (if b then l else []) = if b then named nm l else [].
Proof. now destruct b. Qed.

Lemma named_map_make_ne {A} nm nm' (f : A -> list OptimizationPart.t) (l : list A) :
  nm' <> nm -> named nm (map (fun x => Optimization.make nm' (f x)) l) = [].
Proof.
  intros H. induction l as [|x l IH]; [reflexivity|].
  change (named nm ([Optimization.make nm' (f x)] ++ map (fun x => Optimization.make nm' (f x)) l) = []).
  now rewrite named_app, named_make_ne, IH.
Qed.

(** Selecting at one index of a range. *)
Lemma flat_map_single {A} (f g : Z -> list A) (i n : Z) :
  0 <= i < n ->
  (forall j, 0 <= j < n -> j <> i -> f j = []) -> f i = g i ->
  flat_map f (seqZ 0 n) = g i.
Proof.
  intros Hi Hne Heq.
  assert (Hnil : forall l, (forall j, In j l -> 0 <= j < n /\ j <> i) -> flat_map f l = []).
  { induction l as [|x l IH]; simpl; [reflexivity|]. intros Hn.
    rewrite Hne, IH; [reflexivity | | |]; try (apply Hn; tauto).
    intros j Hj. apply Hn. tauto. }
  replace n with (i + (1 + (n - i - 1))) by lia.
  rewrite seqZ_app, (seqZ_app (0 + i)) by lia.
  rewrite !flat_map_app.
  rewrite (Hnil (seqZ 0 i)), (Hnil (seqZ (0 + i + 1) _)).
  - change (seqZ (0 + i) 1) with ([0 + i]). simpl. rewrite app_nil_r.
    replace (0 + i) with i by lia. now rewrite app_nil_r.
  - intros j. rewrite <- list_elem_of_In, elem_of_seqZ. lia.
  - intros j. rewrite <- list_elem_of_In, elem_of_seqZ. lia.
Qed.

Lemma named_improve nm side nm' state i splits :
  nm' <> nm ->
  named nm (flat_map (Solver.improveSplitMoves side nm' state i) splits) = [].
Proof.
  intros H. rewrite named_flat_map.
  induction splits as [|sp l IH]; simpl; [reflexivity|].
  rewrite IH, app_nil_r. unfold Solver.improveSplitMoves.
  rewrite named_if. rewrite named_make_ne by exact H. now destruct Solver.canImproveSplit.
Qed.

Lemma named_create nm sv side nm' state i last dl oc :
  nm' <> nm ->
  named nm (Solver.createSplitMoves sv side nm' state i last dl oc) = [].
Proof.
  intros H. unfold Solver.createSplitMoves.
  destruct Solver.createSplitScan as [parts newPatterns].
  rewrite named_if. rewrite named_make_ne by exact H.
  now destruct (_ && _).
Qed.

Lemma improve_moves_map side nm state i splits :
  flat_map (Solver.improveSplitMoves side nm state i) splits
  = map (fun split => Optimization.make nm
                        (map (Solver.reducePart side state i) (seqZ (fst split) (snd split))))
        (List.filter
           (Solver.canImproveSplit
              (Solver.patternsOf side (idx (machines state) i emptyMachine))
              (loads (idx (machines state) i emptyMachine)))
           splits).
Proof.
  induction splits as [|sp l IH]; simpl; [reflexivity|].
  rewrite IH. unfold Solver.improveSplitMoves at 1.
  now destruct Solver.canImproveSplit.
Qed.

(** The moves of machine [j] named as the weekday global reduction of
    machine [i]. *)
Lemma named_machine_RGWD sv state i j :
  named ("ReduceGlobalWeekDay" +:+ itos i) (fst (Solver.machineMoves sv state j))
  = if decide (j = i) then
      if Solver.canReduceGlobalWeekDay sv (idx (machines state) i emptyMachine)
      then [Optimization.make ("ReduceGlobalWeekDay" +:+ itos i)
              (map (Solver.reducePart WEEK_DAY state i)
                   (seqZ 0 (fst (Solver.getLastOperatingWeeks sv (idx (machines state) i emptyMachine)) + 1)))]
      else []
    else [].
Proof.
  unfold Solver.machineMoves, Solver.reduceGlobalMoves, Solver.splitMoves.
  destruct (Solver.getLastOperatingWeeks sv (idx (machines state) j emptyMachine))
    as [lwd lwe] eqn:Hlast.
  cbn [fst snd].
  rewrite !named_app, !named_if, !named_app.
  rewrite !named_improve, !named_create by names_differ.
  rewrite (named_make_ne _ ("ReduceGlobal" +:+ itos j)) by names_differ.
  rewrite (named_make_ne _ ("ReduceGlobalWeekEnd" +:+ itos j)) by names_differ.
  destruct (decide (j = i)) as [->|Hne].
  - rewrite named_make_eq, Hlast. cbn [fst].
    destruct (_ && _), (Solver.canReduceGlobalWeekDay _ _), (Solver.canReduceGlobalWeekEnd _ _),
      (negb (lwd =? -1)), (negb (lwe =? -1)); reflexivity.
  - rewrite named_make_ne by names_differ.
    destruct (_ && _), (Solver.canReduceGlobalWeekDay _ _), (Solver.canReduceGlobalWeekEnd _ _),
      (negb (lwd =? -1)), (negb (lwe =? -1)); reflexivity.
Qed.

Lemma named_fleet_ne nm sv state :
  "ReduceGlobal" <> nm -> named nm (fleetMove sv state) = [].
Proof.
  intros H. unfold fleetMove. rewrite named_if, named_make_ne by exact H.
  now destruct (_ && _).
Qed.

Lemma named_shutdown_ne nm sv state :
  "Shutdown" <> nm -> named nm (shutdownMove sv state) = [].
Proof.
  intros H. unfold shutdownMove. rewrite named_if, named_make_ne by exact H.
  now destruct (_ =? _).
Qed.

Lemma named_RGWD sv state i :
  0 <= i < Solver.noMachines sv ->
  named ("ReduceGlobalWeekDay" +:+ itos i) (Solver.generateOptimizations sv state)
  = if Solver.canReduceGlobalWeekDay sv (idx (machines state) i emptyMachine)
    then [Optimization.make ("ReduceGlobalWeekDay" +:+ itos i)
            (map (Solver.reducePart WEEK_DAY state i)
                 (seqZ 0 (fst (Solver.getLastOperatingWeeks sv (idx (machines state) i emptyMachine)) + 1)))]
    else [].
Proof.
  intros Hi. rewrite generateOptimizations_eq, !named_app, named_flat_map.
  rewrite named_fleet_ne, named_shutdown_ne by names_differ.
  rewrite !app_nil_r.
  rewrite (flat_map_single _
             (fun j => named ("ReduceGlobalWeekDay" +:+ itos i)
                             (fst (Solver.machineMoves sv state j))) i _ Hi).
  - rewrite named_machine_RGWD. now destruct (decide (i = i)).
  - intros j _ Hj. rewrite named_machine_RGWD. now destruct (decide (j = i)).
  - reflexivity.
Qed.

(** ** The guard of the weekday global reduction *)

Lemma reduceGlobalScan_constant patterns loads n : forall j can loadSum,
  (forall k, j <= k < j + Z.of_nat n -> idx patterns k 0 = idx patterns 0 0) ->
  Solver.reduceGlobalScan patterns loads j n can loadSum
  = (can, fold_left PrimFloat.add
            (map (fun k => idx loads k 0%float) (seqZ j (Z.of_nat n))) loadSum).
Proof.
  induction n as [|n IH]; intros j can loadSum Hconst; [reflexivity|].
  cbn [Solver.reduceGlobalScan].
  rewrite Hconst, Z.eqb_refl by lia. cbn [negb].
  rewrite IH by (intros; apply Hconst; lia).
  rewrite (seqZ_cons j (Z.of_nat (S n))) by lia.
  replace (Z.pred (Z.of_nat (S n))) with (Z.of_nat n) by lia.
  reflexivity.
Qed.

Lemma reduceGlobalScan_differs patterns loads n : forall j can loadSum k,
  j <= k < j + Z.of_nat n -> idx patterns k 0 <> idx patterns 0 0 ->
  fst (Solver.reduceGlobalScan patterns loads j n can loadSum) = false.
Proof.
  induction n as [|n IH]; intros j can loadSum k Hk Hd; [lia|].
  cbn [Solver.reduceGlobalScan].
  destruct (Z.eqb_spec (idx patterns j 0) (idx patterns 0 0)) as [E|E]; cbn [negb]; [|reflexivity].
  apply (IH _ _ _ k); [|exact Hd].
  destruct (decide (k = j)) as [->|]; [contradiction | lia].
Qed.

(** Whether the pattern is the same over weeks [j .. j + n - 1] as in week 0. *)
Lemma constant_dec patterns n : forall j,
  (forall k, j <= k < j + Z.of_nat n -> idx patterns k 0 = idx patterns 0 0)
  \/ (exists k, j <= k < j + Z.of_nat n /\ idx patterns k 0 <> idx patterns 0 0).
Proof.
  induction n as [|n IH]; intros j; [left; lia|].
  destruct (Z.eq_dec (idx patterns j 0) (idx patterns 0 0)) as [E|E].
  - destruct (IH (j + 1)) as [H|(k & Hk & Hd)].
    + left. intros k Hk. destruct (decide (k = j)) as [->|]; [exact E | apply H; lia].
    + right. exists k. split; [lia | exact Hd].
  - right. exists j. split; [lia | exact E].
Qed.

Lemma canReduceGlobal_weekday sv patterns loads last :
  -1 <= last ->
  Solver.canReduceGlobal sv patterns loads 0 last = true
  <-> last <> -1
      /\ (forall j, 0 <= j <= last -> idx patterns j 0 = idx patterns 0 0)
      /\ (Solver.noInteractions sv <> 300 ->
          fgt (loadSumFrom loads 0 (last + 1) / Z2double (last + 1))%float 0.75%float = false).
Proof.
  intros Hlast. unfold Solver.canReduceGlobal.
  replace (last - 0 + 1) with (last + 1) by lia.
  destruct (constant_dec patterns (Z.to_nat (last + 1)) 0) as [Hc|(k & Hk & Hd)].
  - rewrite reduceGlobalScan_constant by exact Hc.
    rewrite Z2Nat.id by lia. fold (loadSumFrom loads 0 (last + 1)).
    destruct (Z.eqb_spec (Solver.noInteractions sv) 300) as [E|E]; cbn [negb andb].
    + destruct (Z.eqb_spec last (-1)); cbn [negb]; split; try tauto; try congruence.
      intros _. repeat split; try assumption; [intros; apply Hc; lia | congruence].
    + destruct (fgt _ _) eqn:G.
      * split; [congruence|]. intros (_ & _ & H). symmetry. now apply H.
      * destruct (Z.eqb_spec last (-1)); cbn [negb]; split; try tauto; try congruence.
        intros _. repeat split; try assumption. intros; apply Hc; lia.
  - destruct (Solver.reduceGlobalScan _ _ _ _ _ _) as [can loadSum] eqn:Hscan.
    assert (can = false) as ->.
    { change can with (fst (can, loadSum)). rewrite <- Hscan.
      apply (reduceGlobalScan_differs _ _ _ _ _ _ k Hk Hd). }
    split.
    + now destruct (_ && _).
    + intros (_ & Hc & _). exfalso. apply Hd, Hc. lia.
Qed.

Lemma lastOperatingLoop_lower machine n : forall wd we,
  -1 <= wd -> -1 <= we ->
  -1 <= fst (Solver.lastOperatingLoop machine n wd we)
  /\ -1 <= snd (Solver.lastOperatingLoop machine n wd we).
Proof.
  induction n as [|n IH]; intros wd we Hwd Hwe; cbn [Solver.lastOperatingLoop]; [now split|].
  destruct (_ || _); [|now split].
  apply IH; destruct (_ && _); lia.
Qed.

Lemma getLastOperatingWeeks_lower sv machine :
  -1 <= fst (Solver.getLastOperatingWeeks sv machine)
  /\ -1 <= snd (Solver.getLastOperatingWeeks sv machine).
Proof. apply lastOperatingLoop_lower; lia. Qed.

Lemma lastOperatingLoop_spec machine noWeeks n : forall wd we,
  Z.of_nat n <= noWeeks ->
  lastNotOneFrom (weekDayPatterns machine) noWeeks (Z.of_nat n) wd ->
  lastNotOneFrom (weekEndPatterns machine) noWeeks (Z.of_nat n) we ->
  lastNotOne (weekDayPatterns machine) noWeeks
             (fst (Solver.lastOperatingLoop machine n wd we))
  /\ lastNotOne (weekEndPatterns machine) noWeeks
                (snd (Solver.lastOperatingLoop machine n wd we)).
Proof.
  assert (Hstop : forall patterns k last,
             0 <= k -> last <> -1 -> lastNotOneFrom patterns noWeeks k last ->
             lastNotOne patterns noWeeks last).
  { intros patterns k last Hk Hl [[E _]|(Hr & Hp & Hall)]; [contradiction|].
    right. repeat split; try assumption; lia. }
  assert (Hstep : forall patterns k last,
             0 <= k < noWeeks -> lastNotOneFrom patterns noWeeks (k + 1) last ->
             lastNotOneFrom patterns noWeeks k
               (if (last =? -1) && negb (idx patterns k 0 =? 1) then k else last)).
  { intros patterns k last Hk [[-> Hall]|(Hr & Hp & Hall)].
    - change (-1 =? -1) with true. cbn [andb].
      destruct (Z.eqb_spec (idx patterns k 0) 1) as [E|E]; cbn [negb].
      + left. split; [reflexivity|]. intros w Hw.
        destruct (decide (w = k)) as [->|]; [exact E | apply Hall; lia].
      + right. split; [lia|]. split; [exact E|]. intros w Hw. apply Hall. lia.
    - destruct (Z.eqb_spec last (-1)); [lia|]. cbn [andb].
      right. repeat split; try assumption; lia. }
  induction n as [|n IH]; intros wd we Hn Hwd Hwe; cbn [Solver.lastOperatingLoop].
  - cbn [fst snd]. split.
    + destruct Hwd as [[-> H]|(Hr & Hp & Hall)]; [left | right]; repeat split; try assumption; lia.
    + destruct Hwe as [[-> H]|(Hr & Hp & Hall)]; [left | right]; repeat split; try assumption; lia.
  - replace (Z.of_nat (S n)) with (Z.of_nat n + 1) in * by lia.
    destruct ((wd =? -1) || (we =? -1)) eqn:Hor.
    + apply IH; [lia | |]; apply Hstep; try assumption; lia.
    + apply orb_false_elim in Hor as [Hd He].
      apply Z.eqb_neq in Hd, He. cbn [fst snd].
      split; eapply Hstop; eauto; lia.
Qed.

Lemma getLastOperatingWeeks_spec (sv : Solver.t) (machine : Machine) :
  lastNotOne (weekDayPatterns machine) (Z.max 0 (Solver.noWeeks sv))
             (fst (Solver.getLastOperatingWeeks sv machine))
  /\ lastNotOne (weekEndPatterns machine) (Z.max 0 (Solver.noWeeks sv))
                (snd (Solver.getLastOperatingWeeks sv machine)).
Proof.
  unfold Solver.getLastOperatingWeeks.
  apply lastOperatingLoop_spec; [lia | |]; left; split; try reflexivity; intros; lia.
Qed.

(** The weekend guard as the source computes it: the same conditions,
    but the sum of the loads starts at week 1 while the divisor counts
    week 0 as well. *)
Lemma canReduceGlobal_weekend sv patterns loads last :
  -1 <= last ->
  Solver.canReduceGlobal sv patterns loads 1 last = true
  <-> last <> -1
      /\ (forall j, 0 <= j <= last -> idx patterns j 0 = idx patterns 0 0)
      /\ (Solver.noInteractions sv <> 300 ->
          fgt (loadSumFrom loads 1 last / Z2double (last + 1))%float 0.75%float = false).
Proof.
  intros Hlast. unfold Solver.canReduceGlobal.
  replace (last - 1 + 1) with last by lia.
  destruct (constant_dec patterns (Z.to_nat last) 1) as [Hc|(k & Hk & Hd)].
  - rewrite reduceGlobalScan_constant by exact Hc.
    assert (Hsum : fold_left PrimFloat.add
                     (map (fun k => idx loads k 0%float) (seqZ 1 (Z.of_nat (Z.to_nat last)))) 0%float
                   = loadSumFrom loads 1 last).
    { unfold loadSumFrom. destruct (Z.le_gt_cases 0 last).
      - now rewrite Z2Nat.id by lia.
      - replace (Z.to_nat last) with 0%nat by lia. now rewrite (seqZ_nil 1 last) by lia. }
    rewrite Hsum.
    assert (Hall : forall j, 0 <= j <= last -> idx patterns j 0 = idx patterns 0 0).
    { intros j Hj. destruct (decide (j = 0)) as [->|]; [reflexivity | apply Hc; lia]. }
    destruct (Z.eqb_spec (Solver.noInteractions sv) 300) as [E|E]; cbn [negb andb].
    + destruct (Z.eqb_spec last (-1)); cbn [negb]; split; try tauto; try congruence.
    + destruct (fgt _ _) eqn:G.
      * split; [congruence|]. intros (_ & _ & H). symmetry. now apply H.
      * destruct (Z.eqb_spec last (-1)); cbn [negb]; split; try tauto; try congruence.
  - destruct (Solver.reduceGlobalScan _ _ _ _ _ _) as [can loadSum] eqn:Hscan.
    assert (can = false) as ->.
    { change can with (fst (can, loadSum)). rewrite <- Hscan.
      apply (reduceGlobalScan_differs _ _ _ _ _ _ k Hk Hd). }
    split.
    + now destruct (_ && _).
    + intros (_ & Hc & _). exfalso. apply Hd, Hc. lia.
Qed.

(** C6, as the code has it.  For a machine [i] of the fleet, a move named
    ReduceGlobalWeekDay<i> is generated if and only if the last operating
    weekday week is not -1, the weekday pattern is the same over weeks
    0..last, and, when the number of interactions is not 300, the mean of
    the loads of weeks 0..last is not above 0.75. *)
Theorem reduceGlobalWeekDay_generated_iff (sv : Solver.t) (state : State) (i : Z) :
  0 <= i < Solver.noMachines sv ->
  let machine := idx (machines state) i emptyMachine in
  let last := fst (Solver.getLastOperatingWeeks sv machine) in
  (exists o, In o (Solver.generateOptimizations sv state)
             /\ Optimization.name o = "ReduceGlobalWeekDay" +:+ itos i)
  <-> last <> -1
      /\ (forall j, 0 <= j <= last ->
                    idx (weekDayPatterns machine) j 0 = idx (weekDayPatterns machine) 0 0)
      /\ (Solver.noInteractions sv <> 300 ->
          fgt (loadSumFrom (loads machine) 0 (last + 1) / Z2double (last + 1))%float
              0.75%float = false).
Proof.
  intros Hi machine last.
  rewrite <- (canReduceGlobal_weekday sv (weekDayPatterns machine) (loads machine) last)
    by apply getLastOperatingWeeks_lower.
  change (Solver.canReduceGlobal sv (weekDayPatterns machine) (loads machine) 0 last)
    with (Solver.canReduceGlobalWeekDay sv machine).
  split.
  - intros (o & Hin & Hname).
    assert (Hn : In o (named ("ReduceGlobalWeekDay" +:+ itos i)
                             (Solver.generateOptimizations sv state)))
      by (apply named_In; tauto).
    rewrite named_RGWD in Hn by exact Hi. fold machine in Hn.
    destruct (Solver.canReduceGlobalWeekDay sv machine); [reflexivity | destruct Hn].
  - intros Hcan.
    pose proof (named_RGWD sv state i Hi) as Hn. fold machine in Hn. rewrite Hcan in Hn.
    eexists. apply named_In. rewrite Hn. now left.
Qed.

(** ** Runs of equal pattern *)

Lemma seqZ_one (m : Z) : seqZ m 1 = [m].
Proof. reflexivity. Qed.

Lemma seqZ_snoc (m n : Z) : 0 <= n -> seqZ m (n + 1) = seqZ m n ++ [m + n].
Proof. intros H. rewrite seqZ_app by lia. now rewrite seqZ_one. Qed.

Lemma incrLast_snoc splits start size :
  Solver.incrLast (splits ++ [(start, size)]) = splits ++ [(start, size + 1)].
Proof.
  induction splits as [|[s k] l IH]; [reflexivity|].
  cbn [app Solver.incrLast]. rewrite IH.
  destruct (l ++ [(start, size)]) eqn:E; [destruct l; discriminate | reflexivity].
Qed.

Lemma existingSplits_S patterns (n : nat) :
  Solver.existingSplits patterns (Z.of_nat (S n))
  = let splits := Solver.existingSplits patterns (Z.of_nat n) in
    let j := Z.of_nat (S n) in
    if negb (idx patterns j 0 =? idx patterns (j - 1) 0)
    then splits ++ [(j, 1)] else Solver.incrLast splits.
Proof.
  unfold Solver.existingSplits. rewrite seqZ_S, fold_left_app. cbn [fold_left].
  replace (1 + Z.of_nat n) with (Z.of_nat (S n)) by lia. reflexivity.
Qed.

Lemma existingSplits_runs_nat patterns (n : nat) :
  runsOf patterns (Z.of_nat n) (Solver.existingSplits patterns (Z.of_nat n))
  /\ exists splits start size,
       Solver.existingSplits patterns (Z.of_nat n) = splits ++ [(start, size)]
       /\ start + size = Z.of_nat n + 1.
Proof.
  induction n as [|n [[Hcov Hconst Hmax] (splits & start & size & Hsp & Hend)]].
  - split.
    + split; cbn.
      * reflexivity.
      * apply Forall_singleton. cbn [fst snd]. split; [lia|].
        intros j Hj. now replace j with 0 by lia.
      * apply Forall_singleton. cbn [fst]. congruence.
    + exists [], 0, 1. now split.
  - rewrite existingSplits_S. cbv zeta. rewrite Hsp in *.
    set (j := Z.of_nat (S n)).
    assert (Hseq : seqZ 0 (j + 1) = seqZ 0 (Z.of_nat n + 1) ++ [j]).
    { replace (j + 1) with (Z.of_nat n + 1 + 1) by lia.
      rewrite (seqZ_snoc 0 (Z.of_nat n + 1)) by lia. do 2 f_equal. lia. }
    destruct (Z.eqb_spec (idx patterns j 0) (idx patterns (j - 1) 0)) as [E|E]; cbn [negb].
    + rewrite incrLast_snoc. split.
      * rewrite flat_map_app in Hcov. cbn in Hcov. rewrite app_nil_r in Hcov.
        apply Forall_app in Hconst as [Hc1 Hc2]. apply Forall_app in Hmax as [Hm1 Hm2].
        apply Forall_inv in Hc2, Hm2. cbn in Hc2, Hm2. destruct Hc2 as [Hpos Hc2].
        split.
        -- rewrite flat_map_app. cbn. rewrite app_nil_r. unfold weeksOf at 2. cbn.
           rewrite Hseq, <- Hcov, <- app_assoc. f_equal.
           unfold weeksOf. cbn. rewrite seqZ_snoc by lia. do 2 f_equal. lia.
        -- apply Forall_app. split; [exact Hc1|].
           apply Forall_singleton. cbn [fst snd]. split; [lia|].
           intros k Hk. destruct (decide (k = j)) as [->|Hkj].
           ++ rewrite E. apply Hc2. lia.
           ++ apply Hc2. lia.
        -- apply Forall_app. split; [exact Hm1|]. apply Forall_singleton. exact Hm2.
      * exists splits, start, (size + 1). split; [reflexivity | lia].
    + split.
      * split.
        -- rewrite flat_map_app. cbn. rewrite Hcov, Hseq. reflexivity.
        -- apply Forall_app. split; [exact Hconst|].
           apply Forall_singleton. cbn [fst snd]. split; [lia|].
           intros k Hk. now replace k with j by lia.
        -- apply Forall_app. split; [exact Hmax|]. apply Forall_singleton. cbn [fst].
           intros _. congruence.
      * exists (splits ++ [(start, size)]), j, 1. split; [reflexivity | lia].
Qed.

Lemma existingSplits_runs patterns last :
  0 <= last -> runsOf patterns last (Solver.existingSplits patterns last).
Proof.
  intros H. rewrite <- (Z2Nat.id last H). apply existingSplits_runs_nat.
Qed.

(** ** ImproveSplit *)

Lemma improveScan_spec patterns loads n : forall j can loadSum,
  Solver.improveScan patterns loads j n can loadSum
  = if forallb (fun k => negb (idx patterns k 0 =? 1)) (seqZ j (Z.of_nat n))
    then (can, fold_left PrimFloat.add
                 (map (fun k => idx loads k 0%float) (seqZ j (Z.of_nat n))) loadSum)
    else (false, snd (Solver.improveScan patterns loads j n can loadSum)).
Proof.
  induction n as [|n IH]; intros j can loadSum; [reflexivity|].
  rewrite (seqZ_cons j (Z.of_nat (S n))) by lia.
  replace (Z.pred (Z.of_nat (S n))) with (Z.of_nat n) by lia.
  cbn [Solver.improveScan forallb map fold_left].
  destruct (idx patterns j 0 =? 1); cbn [negb andb]; [reflexivity|].
  replace (Z.succ j) with (j + 1) by lia. apply IH.
Qed.

Lemma canImproveSplit_qualifies patterns loads split :
  Solver.canImproveSplit patterns loads split = runQualifies patterns loads split.
Proof.
  destruct split as [start size]. unfold Solver.canImproveSplit, runQualifies, weeksOf.
  cbn [fst snd]. rewrite improveScan_spec.
  destruct (Z.le_gt_cases 0 size) as [Hs|Hs].
  - rewrite Z2Nat.id by exact Hs. fold (loadSumFrom loads start size).
    destruct (forallb _ _); cbn [andb]; now destruct (fgt _ _).
  - replace (Z.to_nat size) with 0%nat by lia.
    rewrite (seqZ_nil start size) by lia. cbn [Z.of_nat]. rewrite seqZ_nil by lia.
    cbn [forallb map fold_left andb]. unfold loadSumFrom. rewrite seqZ_nil by lia.
    cbn [map fold_left]. now destruct (fgt _ _).
Qed.

Lemma named_make_map_eq {A} nm (f : A -> list OptimizationPart.t) (l : list A) :
  named nm (map (fun x => Optimization.make nm (f x)) l)
  = map (fun x => Optimization.make nm (f x)) l.
Proof.
  induction l as [|x l IH]; [reflexivity|].
  unfold named in *. cbn [map List.filter Optimization.name Optimization.make].
  now rewrite String.eqb_refl, IH.
Qed.

Lemma named_machine_improve sv side state i j :
  named (improveName side +:+ itos i) (fst (Solver.machineMoves sv state j))
  = if decide (j = i) then improveSplitsOf sv side state i else [].
Proof.
  unfold Solver.machineMoves, Solver.reduceGlobalMoves, Solver.splitMoves, improveSplitsOf,
    lastOperating.
  destruct (Solver.getLastOperatingWeeks sv (idx (machines state) j emptyMachine))
    as [lwd lwe] eqn:Hlast.
  cbn [fst snd].
  rewrite !named_app, !named_if, !named_app.
  rewrite !named_create by (destruct side; names_differ).
  rewrite (named_make_ne _ ("ReduceGlobal" +:+ itos j)) by (destruct side; names_differ).
  rewrite (named_make_ne _ ("ReduceGlobalWeekDay" +:+ itos j)) by (destruct side; names_differ).
  rewrite (named_make_ne _ ("ReduceGlobalWeekEnd" +:+ itos j)) by (destruct side; names_differ).
  rewrite !improve_moves_map.
  destruct (decide (j = i)) as [->|Hne].
  - rewrite Hlast. cbn [fst snd].
    destruct side; cbn [improveName Solver.patternsOf].
    + rewrite named_make_map_eq, named_map_make_ne by names_differ.
      rewrite (List.filter_ext _ _ (canImproveSplit_qualifies _ _)).
      destruct (_ && _), (Solver.canReduceGlobalWeekDay _ _), (Solver.canReduceGlobalWeekEnd _ _),
        (lwd =? -1), (lwe =? -1); cbn [negb app]; rewrite ?app_nil_r; reflexivity.
    + rewrite named_make_map_eq, named_map_make_ne by names_differ.
      rewrite (List.filter_ext _ _ (canImproveSplit_qualifies _ _)).
      destruct (_ && _), (Solver.canReduceGlobalWeekDay _ _), (Solver.canReduceGlobalWeekEnd _ _),
        (lwd =? -1), (lwe =? -1); cbn [negb app]; rewrite ?app_nil_r; reflexivity.
  - rewrite !named_map_make_ne by (destruct side; names_differ).
    destruct (_ && _), (Solver.canReduceGlobalWeekDay _ _), (Solver.canReduceGlobalWeekEnd _ _),
      (negb (lwd =? -1)), (negb (lwe =? -1)); reflexivity.
Qed.

(** C5, as the code has it.  For a machine [i] of the fleet and either
    side, the moves named ImproveSplit<Side><i> that one call of the
    generator emits are, in the order of the runs from the first to the
    last, one move for every run of equal pattern over the operating prefix
    that has no week of code 1 and whose mean load is not above 0.9; the
    move of a run reduces every week of that run by 1.  There are as many
    such moves as there are qualifying runs.  The runs are the splits the
    generator finds: in order they cover the operating prefix, each is a
    non-empty stretch of one pattern, and each but the first starts where
    the pattern changes. *)
Theorem improveSplit_one_per_qualifying_run
        (sv : Solver.t) (state : State) (side : OptimizationPartType) (i : Z) :
  0 <= i < Solver.noMachines sv ->
  let machine := idx (machines state) i emptyMachine in
  let last := lastOperating sv side machine in
  named (improveName side +:+ itos i) (Solver.generateOptimizations sv state)
  = improveSplitsOf sv side state i
  /\ (last <> -1 ->
      runsOf (Solver.patternsOf side machine) last
             (Solver.existingSplits (Solver.patternsOf side machine) last)).
Proof.
  intros Hi machine last. split.
  2: { intros Hl. apply existingSplits_runs.
       pose proof (getLastOperatingWeeks_lower sv machine) as [H1 H2].
       unfold last, lastOperating in *. destruct side; lia. }
  rewrite generateOptimizations_eq, !named_app, named_flat_map.
  rewrite named_fleet_ne, named_shutdown_ne by (destruct side; names_differ).
  rewrite !app_nil_r.
  rewrite (flat_map_single _
             (fun j => named (improveName side +:+ itos i)
                             (fst (Solver.machineMoves sv state j))) i _ Hi).
  - rewrite named_machine_improve. now destruct (decide (i = i)).
  - intros j _ Hj. rewrite named_machine_improve. now destruct (decide (j = i)).
  - reflexivity.
Qed.

Lemma named_machine_fixed nm sv state j :
  (forall k, "ReduceGlobal" +:+ itos k <> nm) ->
  (forall k, "ReduceGlobalWeekDay" +:+ itos k <> nm) ->
  (forall k, "ReduceGlobalWeekEnd" +:+ itos k <> nm) ->
  (forall k, "ImproveSplitWeekDay" +:+ itos k <> nm) ->
  (forall k, "ImproveSplitWeekEnd" +:+ itos k <> nm) ->
  (forall k, "CreateSplitWeekDay" +:+ itos k <> nm) ->
  (forall k, "CreateSplitWeekEnd" +:+ itos k <> nm) ->
  named nm (fst (Solver.machineMoves sv state j)) = [].
Proof.
  intros H1 H2 H3 H4 H5 H6 H7.
  unfold Solver.machineMoves, Solver.reduceGlobalMoves, Solver.splitMoves.
  destruct (Solver.getLastOperatingWeeks sv (idx (machines state) j emptyMachine))
    as [lwd lwe].
  cbn [fst snd].
  rewrite !named_app, !named_if, !named_app.
  rewrite !named_improve, !named_create, !named_make_ne by auto.
  destruct (_ && _), (Solver.canReduceGlobalWeekDay _ _), (Solver.canReduceGlobalWeekEnd _ _),
    (negb (lwd =? -1)), (negb (lwe =? -1)); reflexivity.
Qed.

Lemma named_Shutdown sv state :
  named "Shutdown" (Solver.generateOptimizations sv state) = shutdownMove sv state.
Proof.
  rewrite generateOptimizations_eq, !named_app, named_flat_map.
  rewrite named_fleet_ne by names_differ.
  replace (flat_map _ _) with (@nil Optimization.t).
  - unfold shutdownMove. rewrite named_if, named_make_eq. reflexivity.
  - symmetry. induction (seqZ 0 (Solver.noMachines sv)) as [|j l IH]; [reflexivity|].
    cbn [flat_map]. rewrite IH, app_nil_r.
    apply named_machine_fixed; intros k; names_differ.
Qed.

Lemma shutdown_generated_iff sv state :
  (exists o, In o (Solver.generateOptimizations sv state) /\ Optimization.name o = "Shutdown")
  <-> vsize (Solver.states sv) = Solver.noInteractions sv.
Proof.
  split.
  - intros (o & Hin & Hn).
    assert (H : In o (named "Shutdown" (Solver.generateOptimizations sv state)))
      by (apply named_In; tauto).
    rewrite named_Shutdown in H. unfold shutdownMove in H.
    destruct (Z.eqb_spec (vsize (Solver.states sv)) (Solver.noInteractions sv)); [assumption|destruct H].
  - intros E. eexists. apply named_In. rewrite named_Shutdown. unfold shutdownMove.
    rewrite E, Z.eqb_refl. now left.
Qed.

(** *** Sizes along the loop *)

Lemma revert_size sv : vsize (Solver.states (Solver.revert sv)) = vsize (Solver.states sv).
Proof.
  unfold Solver.revert. destruct (Solver.previousOptimization sv); [|reflexivity].
  destruct (_ || _); cbn [Solver.states]; [apply vsize_upd | reflexivity].
Qed.

Lemma revert_noInteractions sv :
  Solver.noInteractions (Solver.revert sv) = Solver.noInteractions sv.
Proof.
  unfold Solver.revert. destruct (Solver.previousOptimization sv); [|reflexivity].
  now destruct (_ || _).
Qed.

Lemma tryBest_size sv : vsize (Solver.states (Solver.tryBest sv)) = vsize (Solver.states sv).
Proof.
  unfold Solver.tryBest. cbn [Solver.states].
  destruct (fst _); [apply vsize_upd | reflexivity].
Qed.

Lemma refine_size sv : vsize (Solver.states (Solver.refine sv)) = vsize (Solver.states sv).
Proof. unfold Solver.refine. now rewrite tryBest_size, revert_size. Qed.

Lemma refine_noInteractions sv :
  Solver.noInteractions (Solver.refine sv) = Solver.noInteractions sv.
Proof. unfold Solver.refine, Solver.tryBest. cbn. apply revert_noInteractions. Qed.

Lemma readFeedback_size sv i fb :
  vsize (Solver.states (readFeedback sv i fb)) = vsize (Solver.states sv).
Proof. unfold readFeedback. cbn. apply vsize_upd. Qed.

Lemma pushNextState_size sv i :
  vsize (Solver.states (pushNextState sv i)) = vsize (Solver.states sv) + 1.
Proof. unfold pushNextState, vsize. cbn. rewrite length_app. cbn. lia. Qed.

Lemma interaction_noInteractions sv i fb :
  Solver.noInteractions (interaction sv i fb) = Solver.noInteractions sv.
Proof.
  unfold interaction. cbn [readFeedback Solver.noInteractions Solver.withStates].
  destruct (_ =? _); [reflexivity|]. now rewrite refine_noInteractions.
Qed.

Lemma interaction_size sv i fb :
  i <> Solver.noInteractions sv - 1 ->
  vsize (Solver.states (interaction sv i fb)) = vsize (Solver.states sv) + 1.
Proof.
  intros H. unfold interaction. cbn [readFeedback Solver.noInteractions Solver.withStates].
  destruct (Z.eqb_spec i (Solver.noInteractions sv - 1)); [contradiction|].
  now rewrite refine_size, pushNextState_size, readFeedback_size.
Qed.

Lemma refineCalls_size fbs : forall sv i j sv',
  vsize (Solver.states sv) = i + 1 ->
  In (j, sv') (refineCalls sv i fbs) ->
  vsize (Solver.states sv') = j + 2
  /\ Solver.noInteractions sv' = Solver.noInteractions sv
  /\ i <= j < Solver.noInteractions sv - 1.
Proof.
  induction fbs as [|fb fbs IH]; intros sv i j sv' Hsize Hin; [destruct Hin|].
  cbn [refineCalls] in Hin.
  destruct (Z.ltb_spec i (Solver.noInteractions sv)) as [Hlt|]; [|destruct Hin].
  destruct (Z.eqb_spec i (Solver.noInteractions sv - 1)) as [|Hne]; [destruct Hin|].
  destruct Hin as [[= <- <-]|Hin].
  - rewrite pushNextState_size, readFeedback_size. split; [lia|]. split; [reflexivity | lia].
  - apply IH in Hin; [|rewrite interaction_size by exact Hne; lia].
    rewrite interaction_noInteractions in Hin. lia.
Qed.

Lemma initialSolver_size W M C N costs :
  vsize (Solver.states (initialSolver W M C N costs)) = 1.
Proof.
  unfold initialSolver, Solver.setInitialPatterns. cbn [Solver.states Solver.withStates Solver.make].
  now rewrite !vsize_upd.
Qed.

Lemma initialSolver_noInteractions W M C N costs :
  Solver.noInteractions (initialSolver W M C N costs) = N.
Proof. reflexivity. Qed.

(** C8.  Whatever the header and the feedback, when [refine] is called in
    the loop iteration [i], the solver holds [i + 2] states, which is the
    1-based number of the interaction being prepared, and the candidates
    it generates contain a move named Shutdown if and only if that number
    is the number of interactions [N]. *)
Theorem shutdown_only_in_last_round
        (W M C N : Z) (costs : Costs) (fbs : list Feedback) (i : Z) (sv : Solver.t) :
  In (i, sv) (refineCalls (initialSolver W M C N costs) 0 fbs) ->
  vsize (Solver.states sv) = i + 2
  /\ ((exists o, In o (candidates sv) /\ Optimization.name o = "Shutdown") <-> i + 2 = N).
Proof.
  intros Hin.
  apply refineCalls_size in Hin; [|apply initialSolver_size].
  destruct Hin as (Hsize & HN & _). rewrite initialSolver_noInteractions in HN.
  split; [exact Hsize|].
  unfold candidates. rewrite shutdown_generated_iff, revert_size, revert_noInteractions.
  rewrite Hsize, HN. reflexivity.
Qed.

(** The loop does call [refine] in every round but the last one. *)
Lemma refineCalls_length fbs : forall sv i,
  0 <= i ->
  length (refineCalls sv i fbs)
  = Nat.min (length fbs) (Z.to_nat (Solver.noInteractions sv - 1 - i)).
Proof.
  induction fbs as [|fb fbs IH]; intros sv i Hi; [reflexivity|].
  cbn [refineCalls length].
  destruct (Z.ltb_spec i (Solver.noInteractions sv)) as [Hlt|Hge].
  - destruct (Z.eqb_spec i (Solver.noInteractions sv - 1)) as [E|Hne].
    + cbn [length]. lia.
    + cbn [length]. rewrite IH, interaction_noInteractions by lia. lia.
  - cbn [length]. lia.
Qed.

(** Before the last interaction, the loop leaves the solver as the last
    call of [refine] returned it. *)
Lemma mainLoop_refineCalls fbs : forall solver i,
  i + Z.of_nat (length fbs) <= Solver.noInteractions solver - 1 ->
  mainLoop solver i fbs
  = match last (refineCalls solver i fbs) with
    | Some call => Solver.refine (snd call)
    | None => solver
    end.
Proof.
  induction fbs as [|fb fbs IH]; intros solver i Hlen; [reflexivity|].
  cbn [length] in Hlen. cbn [mainLoop refineCalls].
  destruct (Z.ltb_spec i (Solver.noInteractions solver)); [|lia].
  destruct (Z.eqb_spec i (Solver.noInteractions solver - 1)) as [|Hne]; [lia|].
  rewrite IH by (rewrite interaction_noInteractions; lia).
  rewrite last_cons.
  destruct (last (refineCalls (interaction solver i fb) (i + 1) fbs)); [reflexivity|].
  cbn [snd]. unfold interaction.
  cbn [readFeedback Solver.noInteractions Solver.withStates].
  now destruct (Z.eqb_spec i (Solver.noInteractions solver - 1)).
Qed.

(** ** The controller *)

Lemma currentState_upd sv' states' state :
  states' <> [] ->
  Solver.states sv' = upd states' (vsize states' - 1) state ->
  Solver.currentState sv' = state.
Proof.
  intros Hne E. unfold Solver.currentState. rewrite E, vsize_upd.
  apply idx_upd_eq. unfold vsize. destruct states'; [contradiction | cbn; lia].
Qed.

(** C1, as the code has it.  [refine] first raises [bestScore] to the
    maximum of itself and the score of the current state.  With a previous
    move present, the move is reverted when that score is 0 or is below the
    raised [bestScore]: the current state becomes the undone one, the
    move's identity is inserted into [badOptimizations], and
    [reduceGlobalFailed] is set if the move's name is "ReduceGlobal" and
    kept otherwise.  In every other case the states, the blacklist and the
    flag are left as they were.  The delay count is not consulted. *)
Theorem refine_reverts_on_zero_or_lower_score (sv : Solver.t) (previous : Optimization.t) :
  Solver.states sv <> [] ->
  Solver.previousOptimization sv = Some previous ->
  let state := Solver.currentState sv in
  let best := Z.max (Solver.bestScore sv) (score state) in
  Solver.bestScore (Solver.refine sv) = best
  /\ (score state = 0 \/ score state < best ->
      Solver.currentState (Solver.revert sv) = Optimization.undo previous state
      /\ Solver.badOptimizations (Solver.refine sv)
         = {[ Optimization.id previous ]} ∪ Solver.badOptimizations sv
      /\ Optimization.id previous ∈ Solver.badOptimizations (Solver.refine sv)
      /\ (Optimization.name previous = "ReduceGlobal" ->
          Solver.reduceGlobalFailed (Solver.refine sv) = true)
      /\ (Optimization.name previous <> "ReduceGlobal" ->
          Solver.reduceGlobalFailed (Solver.refine sv) = Solver.reduceGlobalFailed sv))
  /\ (~ (score state = 0 \/ score state < best) ->
      Solver.states (Solver.revert sv) = Solver.states sv
      /\ Solver.badOptimizations (Solver.refine sv) = Solver.badOptimizations sv
      /\ Solver.reduceGlobalFailed (Solver.refine sv) = Solver.reduceGlobalFailed sv).
Proof.
  intros Hne Hprev state best.
  unfold Solver.refine, Solver.tryBest.
  cbn [Solver.bestScore Solver.badOptimizations Solver.reduceGlobalFailed].
  unfold Solver.revert. rewrite Hprev. fold state. fold best.
  destruct ((score state =? 0) || (score state <? best)) eqn:Hb.
  - split; [reflexivity|]. split; [intros _ | intros Hn; exfalso; apply Hn; lia].
    cbn [Solver.states Solver.badOptimizations Solver.reduceGlobalFailed].
    split; [eapply currentState_upd; [exact Hne | reflexivity]|].
    split; [reflexivity|]. split; [set_solver|].
    split; intros Hn.
    + apply String.eqb_eq in Hn. now rewrite Hn.
    + apply String.eqb_neq in Hn. now rewrite Hn.
  - split; [reflexivity|]. split; [intros Hr; exfalso; lia | intros _].
    cbn [Solver.states Solver.badOptimizations Solver.reduceGlobalFailed].
    repeat split.
Qed.

(** C3, as the code has it.  The move [refine] selects and applies is a
    generated candidate outside the blacklist whose aggregate improvement is
    strictly above -1, the initial threshold of the selection loop, and the
    current state becomes that move applied to the state after the revert
    step.  If no candidate outside the blacklist has an improvement above
    -1, no move is selected and the states are left as the revert step
    left them. *)
Theorem refine_selects_above_minus_one (sv : Solver.t) :
  Solver.states sv <> [] ->
  let reverted := Solver.revert sv in
  (forall o, Solver.previousOptimization (Solver.refine sv) = Some o ->
             In o (candidates sv)
             /\ (Optimization.id o ∉ Solver.badOptimizations reverted)
             /\ fgt (Optimization.costImprovement o) (-1)%float = true
             /\ Solver.currentState (Solver.refine sv)
                = Optimization.apply o (Solver.currentState reverted))
  /\ ((forall o, In o (candidates sv) ->
                 Optimization.id o ∉ Solver.badOptimizations reverted ->
                 fgt (Optimization.costImprovement o) (-1)%float = false) ->
      Solver.previousOptimization (Solver.refine sv) = None
      /\ Solver.states (Solver.refine sv) = Solver.states reverted).
Proof.
  intros Hne reverted.
  assert (Hne' : Solver.states reverted <> []).
  { intros E. pose proof (revert_size sv) as Hs. fold reverted in Hs.
    rewrite E in Hs. unfold vsize in Hs. destruct (Solver.states sv); [contradiction|cbn in Hs; lia]. }
  unfold Solver.refine. fold reverted. unfold candidates. fold reverted.
  set (cands := Solver.generateOptimizations reverted (Solver.currentState reverted)).
  split.
  - intros o Ho. unfold Solver.tryBest in Ho |- *. cbn [Solver.previousOptimization] in Ho.
    fold cands in Ho |- *.
    pose proof (selectBest_inv (Solver.badOptimizations reverted) cands) as [_ Hinv].
    rewrite Ho in Hinv |- *. destruct Hinv as (Hin & Hbad & _ & Hgt).
    repeat split; try assumption.
    eapply currentState_upd; [exact Hne' | reflexivity].
  - intros Hall. unfold Solver.tryBest. cbn [Solver.previousOptimization Solver.states].
    fold cands. unfold Solver.selectBest.
    rewrite selectBest_none_gen; try reflexivity; [now split | exact Hall].
Qed.

(** ** Move identities and the blacklist *)

Lemma named_machine_RG sv state i j :
  named ("ReduceGlobal" +:+ itos i) (fst (Solver.machineMoves sv state j))
  = if decide (j = i) then
      if Solver.canReduceGlobalWeekDay sv (idx (machines state) i emptyMachine)
         && Solver.canReduceGlobalWeekEnd sv (idx (machines state) i emptyMachine)
      then [Optimization.make ("ReduceGlobal" +:+ itos i) (Solver.reduceGlobalPartsOf sv state i)]
      else []
    else [].
Proof.
  unfold Solver.machineMoves, Solver.reduceGlobalMoves, Solver.splitMoves.
  destruct (Solver.getLastOperatingWeeks sv (idx (machines state) j emptyMachine))
    as [lwd lwe] eqn:Hlast.
  cbn [fst snd].
  rewrite !named_app, !named_if, !named_app.
  rewrite !named_improve, !named_create by names_differ.
  rewrite (named_make_ne _ ("ReduceGlobalWeekDay" +:+ itos j)) by names_differ.
  rewrite (named_make_ne _ ("ReduceGlobalWeekEnd" +:+ itos j)) by names_differ.
  destruct (decide (j = i)) as [->|Hne].
  - rewrite named_make_eq.
    destruct (_ && _), (Solver.canReduceGlobalWeekDay _ _), (Solver.canReduceGlobalWeekEnd _ _),
      (negb (lwd =? -1)), (negb (lwe =? -1)); reflexivity.
  - rewrite named_make_ne by names_differ.
    destruct (_ && _), (Solver.canReduceGlobalWeekDay _ _), (Solver.canReduceGlobalWeekEnd _ _),
      (negb (lwd =? -1)), (negb (lwe =? -1)); reflexivity.
Qed.

Lemma named_RG sv state i :
  0 <= i < Solver.noMachines sv ->
  named ("ReduceGlobal" +:+ itos i) (Solver.generateOptimizations sv state)
  = if Solver.canReduceGlobalWeekDay sv (idx (machines state) i emptyMachine)
       && Solver.canReduceGlobalWeekEnd sv (idx (machines state) i emptyMachine)
    then [Optimization.make ("ReduceGlobal" +:+ itos i) (Solver.reduceGlobalPartsOf sv state i)]
    else [].
Proof.
  intros Hi. rewrite generateOptimizations_eq, !named_app, named_flat_map.
  rewrite named_fleet_ne, named_shutdown_ne by names_differ.
  rewrite !app_nil_r.
  rewrite (flat_map_single _
             (fun j => named ("ReduceGlobal" +:+ itos i)
                             (fst (Solver.machineMoves sv state j))) i _ Hi).
  - rewrite named_machine_RG. now destruct (decide (i = i)).
  - intros j _ Hj. rewrite named_machine_RG. now destruct (decide (j = i)).
  - reflexivity.
Qed.

Lemma named_fleet sv state :
  named "ReduceGlobal" (Solver.generateOptimizations sv state) = fleetMove sv state.
Proof.
  rewrite generateOptimizations_eq, !named_app, named_flat_map.
  rewrite named_shutdown_ne by names_differ.
  replace (flat_map _ _) with (@nil Optimization.t).
  - unfold fleetMove. rewrite named_if, named_make_eq, app_nil_r. reflexivity.
  - symmetry. induction (seqZ 0 (Solver.noMachines sv)) as [|j l IH]; [reflexivity|].
    cbn [flat_map]. rewrite IH, app_nil_r.
    apply named_machine_fixed; intros k; names_differ.
Qed.

Lemma machineMoves_snd sv state j :
  snd (Solver.machineMoves sv state j)
  = if Solver.canReduceGlobalWeekDay sv (idx (machines state) j emptyMachine)
       && Solver.canReduceGlobalWeekEnd sv (idx (machines state) j emptyMachine)
    then Solver.reduceGlobalPartsOf sv state j else [].
Proof.
  unfold Solver.machineMoves, Solver.reduceGlobalMoves.
  now destruct (Solver.getLastOperatingWeeks sv (idx (machines state) j emptyMachine)).
Qed.

Lemma refine_bad_grows sv :
  Solver.badOptimizations sv ⊆ Solver.badOptimizations (Solver.refine sv).
Proof.
  unfold Solver.refine, Solver.tryBest. cbn [Solver.badOptimizations].
  unfold Solver.revert. destruct (Solver.previousOptimization sv); [|reflexivity].
  destruct (_ || _); cbn [Solver.badOptimizations]; set_solver.
Qed.

(** ** What holds along the interaction loop *)

(** A property kept by reading feedback, by pushing the next state and by
    [refine] holds at every call of [refine]. *)
Lemma refineCalls_invariant (P : Solver.t -> Prop) :
  (forall sv i fb, P sv -> P (pushNextState (readFeedback sv i fb) i)) ->
  (forall sv, P sv -> P (Solver.refine sv)) ->
  forall fbs solver i j sv',
    P solver -> In (j, sv') (refineCalls solver i fbs) -> P sv'.
Proof.
  intros Hread Hrefine. induction fbs as [|fb fbs IH]; intros solver i j sv' HP Hin; [destruct Hin|].
  cbn [refineCalls] in Hin.
  destruct (i <? Solver.noInteractions solver); [|destruct Hin].
  destruct (Z.eqb_spec i (Solver.noInteractions solver - 1)) as [|Hne]; [destruct Hin|].
  destruct Hin as [[= <- <-]|Hin]; [now apply Hread|].
  eapply IH; [|exact Hin].
  unfold interaction. cbn [readFeedback Solver.noInteractions Solver.withStates].
  destruct (Z.eqb_spec i (Solver.noInteractions solver - 1)); [contradiction|].
  now apply Hrefine, Hread.
Qed.

Lemma refineCall_bad sv i fb :
  Solver.badOptimizations (pushNextState (readFeedback sv i fb) i) = Solver.badOptimizations sv.
Proof. reflexivity. Qed.

Lemma refineCall_flag sv i fb :
  Solver.reduceGlobalFailed (pushNextState (readFeedback sv i fb) i)
  = Solver.reduceGlobalFailed sv.
Proof. reflexivity. Qed.

Lemma revert_bad_grows sv :
  Solver.badOptimizations sv ⊆ Solver.badOptimizations (Solver.revert sv).
Proof.
  unfold Solver.revert. destruct (Solver.previousOptimization sv); [|reflexivity].
  destruct (_ || _); cbn [Solver.badOptimizations]; set_solver.
Qed.

Lemma revert_flag_sticky sv :
  Solver.reduceGlobalFailed sv = true -> Solver.reduceGlobalFailed (Solver.revert sv) = true.
Proof.
  intros H. unfold Solver.revert. destruct (Solver.previousOptimization sv); [|exact H].
  destruct (_ || _); cbn [Solver.reduceGlobalFailed]; [|exact H].
  now destruct (String.eqb _ _).
Qed.

Lemma refine_flag_sticky sv :
  Solver.reduceGlobalFailed sv = true -> Solver.reduceGlobalFailed (Solver.refine sv) = true.
Proof. intros H. unfold Solver.refine, Solver.tryBest. cbn. now apply revert_flag_sticky. Qed.

(** ** Generated moves are made by the constructor *)

(** A move as the constructor leaves it. *)
Lemma made_make (nm : string) (parts : list OptimizationPart.t) :
  Optimization.id (Optimization.make nm parts)
  = Optimization.idStream (Optimization.parts (Optimization.make nm parts)).
Proof. reflexivity. Qed.

Lemma made_machineMoves sv state i o :
  In o (fst (Solver.machineMoves sv state i)) ->
  Optimization.id o = Optimization.idStream (Optimization.parts o).
Proof.
  unfold Solver.machineMoves, Solver.reduceGlobalMoves, Solver.splitMoves.
  destruct (Solver.getLastOperatingWeeks sv (idx (machines state) i emptyMachine))
    as [lwd lwe] eqn:Hlast.
  cbn [fst snd]. rewrite !in_app_iff.
  assert (Himp : forall side nm splits,
             In o (flat_map (Solver.improveSplitMoves side nm state i) splits) ->
             Optimization.id o = Optimization.idStream (Optimization.parts o)).
  { intros side nm splits Hin. apply in_flat_map in Hin as (sp & _ & Hin).
    unfold Solver.improveSplitMoves in Hin. destruct Solver.canImproveSplit; [|destruct Hin].
    destruct Hin as [<-|[]]. apply made_make. }
  assert (Hcre : forall side nm last dl oc,
             In o (Solver.createSplitMoves sv side nm state i last dl oc) ->
             Optimization.id o = Optimization.idStream (Optimization.parts o)).
  { intros side nm last dl oc Hin. unfold Solver.createSplitMoves in Hin.
    destruct Solver.createSplitScan as [parts np].
    destruct (_ && _); [|destruct Hin]. destruct Hin as [<-|[]]. apply made_make. }
  intros [[Hin|[Hin|Hin]]|[Hin|Hin]].
  - destruct (_ && _); [|destruct Hin]. destruct Hin as [<-|[]]. apply made_make.
  - destruct (Solver.canReduceGlobalWeekDay _ _); [|destruct Hin]. destruct Hin as [<-|[]].
    apply made_make.
  - destruct (Solver.canReduceGlobalWeekEnd _ _); [|destruct Hin]. destruct Hin as [<-|[]].
    apply made_make.
  - destruct (negb (lwd =? -1)); [|destruct Hin].
    apply in_app_iff in Hin as [Hin|Hin]; eauto.
  - destruct (negb (lwe =? -1)); [|destruct Hin].
    apply in_app_iff in Hin as [Hin|Hin]; eauto.
Qed.

(** The identity of every generated move is the stream of its parts. *)
Lemma generated_id sv state o :
  In o (Solver.generateOptimizations sv state) ->
  Optimization.id o = Optimization.idStream (Optimization.parts o).
Proof.
  rewrite generateOptimizations_eq, !in_app_iff. intros [Hin|[Hin|Hin]].
  - apply in_flat_map in Hin as (i & _ & Hin). now apply made_machineMoves in Hin.
  - unfold fleetMove in Hin. destruct (_ && _); [|destruct Hin]. destruct Hin as [<-|[]].
    apply made_make.
  - unfold shutdownMove in Hin. destruct (_ =? _); [|destruct Hin]. destruct Hin as [<-|[]].
    apply made_make.
Qed.

(** A blacklisted identity is not selected, and stays blacklisted. *)
Lemma refine_skips_blacklisted sv id :
  id ∈ Solver.badOptimizations sv ->
  (forall o, Solver.previousOptimization (Solver.refine sv) = Some o -> Optimization.id o <> id)
  /\ id ∈ Solver.badOptimizations (Solver.refine sv).
Proof.
  intros Hbad. split; [|now apply refine_bad_grows].
  intros o Hsel <-.
  unfold Solver.refine, Solver.tryBest in Hsel. cbn [Solver.previousOptimization] in Hsel.
  pose proof (selectBest_inv (Solver.badOptimizations (Solver.revert sv))
                (Solver.generateOptimizations (Solver.revert sv)
                   (Solver.currentState (Solver.revert sv)))) as [_ Hinv].
  rewrite Hsel in Hinv. destruct Hinv as (_ & Hnot & _).
  apply Hnot. now apply revert_bad_grows.
Qed.

(** C10.  The identity of a move is computed from its parts alone.  Two
    moves built from the same parts under different names have the same
    identity; the identity of every move [generateOptimizations] emits is
    the stream of its parts, so any two generated moves with equal part
    lists, whatever calls generated them, have identical identities.  When
    exactly one machine [m] of the fleet passes both global reduction guards
    (and the fleet-wide move is generated at all), the fleet-wide
    ReduceGlobal move and the move ReduceGlobal<m> are such a pair.  A move
    whose identity is in the blacklist is not selected by [refine], and its
    identity is still in the blacklist afterwards; so once the identity of
    one of two generated moves with equal parts is in the blacklist, no
    later call of [refine] in the run selects the other. *)
Theorem identity_ignores_name_and_blacklist_is_shared :
  (forall (name1 name2 : string) (parts : list OptimizationPart.t),
      Optimization.id (Optimization.make name1 parts)
      = Optimization.id (Optimization.make name2 parts))
  /\ (forall (sv : Solver.t) (state : State) (o : Optimization.t),
         In o (Solver.generateOptimizations sv state) ->
         Optimization.id o = Optimization.idStream (Optimization.parts o))
  /\ (forall (sv1 sv2 : Solver.t) (state1 state2 : State) (o1 o2 : Optimization.t),
         In o1 (Solver.generateOptimizations sv1 state1) ->
         In o2 (Solver.generateOptimizations sv2 state2) ->
         Optimization.parts o1 = Optimization.parts o2 ->
         Optimization.id o1 = Optimization.id o2)
  /\ (forall (sv : Solver.t) (state : State) (m : Z),
         0 <= m < Solver.noMachines sv ->
         Solver.noInteractions sv <> 300 ->
         Solver.reduceGlobalFailed sv = false ->
         (forall j, 0 <= j < Solver.noMachines sv ->
                    (Solver.canReduceGlobalWeekDay sv (idx (machines state) j emptyMachine)
                     && Solver.canReduceGlobalWeekEnd sv (idx (machines state) j emptyMachine)
                     = true) <-> j = m) ->
         exists fleet single,
           named "ReduceGlobal" (Solver.generateOptimizations sv state) = [fleet]
           /\ named ("ReduceGlobal" +:+ itos m) (Solver.generateOptimizations sv state) = [single]
           /\ Optimization.parts fleet = Optimization.parts single
           /\ Optimization.id fleet = Optimization.id single)
  /\ (forall (sv : Solver.t) (o : Optimization.t),
         Optimization.id o ∈ Solver.badOptimizations sv ->
         Solver.previousOptimization (Solver.refine sv) <> Some o
         /\ Optimization.id o ∈ Solver.badOptimizations (Solver.refine sv))
  /\ (forall (sv1 sv2 : Solver.t) (state1 state2 : State) (o1 o2 : Optimization.t)
             (solver : Solver.t) (i : Z) (fbs : list Feedback) (j : Z) (sv : Solver.t),
         In o1 (Solver.generateOptimizations sv1 state1) ->
         In o2 (Solver.generateOptimizations sv2 state2) ->
         Optimization.parts o1 = Optimization.parts o2 ->
         Optimization.id o1 ∈ Solver.badOptimizations solver ->
         In (j, sv) (refineCalls solver i fbs) ->
         Solver.previousOptimization (Solver.refine sv) <> Some o2
         /\ Optimization.id o2 ∈ Solver.badOptimizations (Solver.refine sv)).
Proof.
  assert (Hsame : forall sv1 sv2 state1 state2 o1 o2,
             In o1 (Solver.generateOptimizations sv1 state1) ->
             In o2 (Solver.generateOptimizations sv2 state2) ->
             Optimization.parts o1 = Optimization.parts o2 ->
             Optimization.id o1 = Optimization.id o2).
  { intros sv1 sv2 state1 state2 o1 o2 H1 H2 E.
    now rewrite (generated_id sv1 state1 o1 H1), (generated_id sv2 state2 o2 H2), E. }
  split; [reflexivity|]. split; [exact generated_id|]. split; [exact Hsame|].
  split; [|split].
  - intros sv state m Hm HN Hrgf Honly.
    exists (Optimization.make "ReduceGlobal" (Solver.reduceGlobalPartsOf sv state m)),
      (Optimization.make ("ReduceGlobal" +:+ itos m) (Solver.reduceGlobalPartsOf sv state m)).
    assert (Hboth : Solver.canReduceGlobalWeekDay sv (idx (machines state) m emptyMachine)
                    && Solver.canReduceGlobalWeekEnd sv (idx (machines state) m emptyMachine)
                    = true) by now apply Honly.
    split; [|split; [|split; reflexivity]].
    + rewrite named_fleet. unfold fleetMove. rewrite Hrgf.
      destruct (Z.eqb_spec (Solver.noInteractions sv) 300); [contradiction|]. cbn [negb andb].
      do 2 f_equal.
      rewrite (flat_map_single _ (fun j => snd (Solver.machineMoves sv state j)) m _ Hm).
      * now rewrite machineMoves_snd, Hboth.
      * intros j Hj Hne. rewrite machineMoves_snd.
        destruct (Solver.canReduceGlobalWeekDay sv (idx (machines state) j emptyMachine)
                  && Solver.canReduceGlobalWeekEnd sv (idx (machines state) j emptyMachine))
          eqn:E; [|reflexivity].
        apply Honly in E; [contradiction | exact Hj].
      * reflexivity.
    + rewrite named_RG by exact Hm. now rewrite Hboth.
  - intros sv o Hbad. destruct (refine_skips_blacklisted sv _ Hbad) as [Hskip Hstay].
    split; [|exact Hstay]. intros Hsel. now apply (Hskip o Hsel).
  - intros sv1 sv2 state1 state2 o1 o2 solver i fbs j sv H1 H2 E Hbad Hin.
    rewrite (Hsame _ _ _ _ _ _ H1 H2 E) in Hbad.
    assert (H : Optimization.id o2 ∈ Solver.badOptimizations sv).
    { apply (refineCalls_invariant (fun s => Optimization.id o2 ∈ Solver.badOptimizations s))
        with (fbs := fbs) (solver := solver) (i := i) (j := j); try assumption.
      - intros. now rewrite refineCall_bad.
      - intros s Hs. now apply refine_bad_grows. }
    destruct (refine_skips_blacklisted sv _ H) as [Hskip Hstay].
    split; [|exact Hstay]. intros Hsel. now apply (Hskip o2 Hsel).
Qed.

(** ** CreateSplit and the change budget of a machine *)

Lemma write_machines_size x v s : vsize (machines (write x v s)) = vsize (machines s).
Proof.
  destruct x as [[m w] side], s as [ms sc nv nd].
  destruct side; cbn; apply vsize_upd.
Qed.

Lemma write_side_same i w side v s :
  0 <= i < vsize (machines s) ->
  sidePatterns side (write (i, w, side) v s) i = upd (sidePatterns side s i) w v.
Proof.
  intros Hi. destruct s as [ms sc nv nd]. unfold sidePatterns.
  destruct side; cbn; now rewrite idx_upd_eq by exact Hi.
Qed.

Lemma write_side_other i w side v s :
  0 <= i < vsize (machines s) ->
  sidePatterns (otherSide side) (write (i, w, side) v s) i
  = sidePatterns (otherSide side) s i.
Proof.
  intros Hi. destruct s as [ms sc nv nd]. unfold sidePatterns.
  destruct side; cbn; now rewrite idx_upd_eq by exact Hi.
Qed.

Lemma reducePart_slot side state i j :
  slotOf (Solver.reducePart side state i j) = (i, j, side).
Proof. now destruct side. Qed.

Lemma reducePart_to side state i j :
  OptimizationPart.to (Solver.reducePart side state i j)
  = idx (sidePatterns side state i) j 0 - 1.
Proof. now destruct side. Qed.

(** The scan keeps [newPatterns] equal to what applying the parts it has
    added gives on the side it works on, and the parts leave the other side
    alone. *)
Lemma createSplitScan_apply side state i divisorLast n :
  forall j loadSum parts newPatterns parts' newPatterns' s,
    0 <= i < vsize (machines s) ->
    sidePatterns side s i = newPatterns ->
    (forall k, k <= j -> idx newPatterns k 0 = idx (sidePatterns side state i) k 0) ->
    Solver.createSplitScan side state i divisorLast j n loadSum parts newPatterns
    = (parts', newPatterns') ->
    exists extra,
      parts' = parts ++ extra
      /\ sidePatterns side (applyParts extra s) i = newPatterns'
      /\ sidePatterns (otherSide side) (applyParts extra s) i
         = sidePatterns (otherSide side) s i.
Proof.
  induction n as [|n IH]; intros j loadSum parts np parts' np' s Hi Hs Hsame Hscan.
  - cbn in Hscan. injection Hscan as <- <-. exists []. rewrite app_nil_r. now repeat split.
  - cbn [Solver.createSplitScan] in Hscan.
    destruct (fgt _ _).
    + injection Hscan as <- <-. exists []. rewrite app_nil_r. now repeat split.
    + set (q := Solver.reducePart side state i j) in *.
      set (s1 := OptimizationPart.apply q s).
      assert (Hs1 : sidePatterns side s1 i = upd np j (idx np j 0 - 1)).
      { unfold s1. rewrite apply_write. unfold q.
        rewrite reducePart_slot, reducePart_to, write_side_same by exact Hi.
        rewrite Hs, Hsame by lia. reflexivity. }
      assert (Ho1 : sidePatterns (otherSide side) s1 i = sidePatterns (otherSide side) s i).
      { unfold s1. rewrite apply_write. unfold q.
        rewrite reducePart_slot. now apply write_side_other. }
      assert (Hi1 : 0 <= i < vsize (machines s1)).
      { unfold s1. rewrite apply_write, write_machines_size. exact Hi. }
      assert (Hsame1 : forall k, k <= j - 1 ->
                idx (upd np j (idx np j 0 - 1)) k 0 = idx (sidePatterns side state i) k 0).
      { intros k Hk. rewrite idx_upd_ne by lia. apply Hsame. lia. }
      destruct (IH _ _ _ _ _ _ s1 Hi1 Hs1 Hsame1 Hscan) as (extra & -> & He & Ho).
      exists (q :: extra). rewrite <- app_assoc. split; [reflexivity|].
      cbn [applyParts fold_left]. fold s1. fold (applyParts extra s1).
      split; [exact He | now rewrite Ho].
Qed.

Lemma named_create_eq nm sv side state i last dl oc :
  named nm (Solver.createSplitMoves sv side nm state i last dl oc)
  = Solver.createSplitMoves sv side nm state i last dl oc.
Proof.
  unfold Solver.createSplitMoves.
  destruct Solver.createSplitScan as [parts newPatterns].
  rewrite named_if, named_make_eq. reflexivity.
Qed.

Lemma named_machine_create sv side state i j :
  named (createName side +:+ itos i) (fst (Solver.machineMoves sv state j))
  = if decide (j = i) then createSplitsOf sv side state i else [].
Proof.
  unfold Solver.machineMoves, Solver.reduceGlobalMoves, Solver.splitMoves, createSplitsOf,
    lastOperating.
  destruct (Solver.getLastOperatingWeeks sv (idx (machines state) j emptyMachine))
    as [lwd lwe] eqn:Hlast.
  cbn [fst snd].
  rewrite !named_app, !named_if, !named_app.
  rewrite !named_improve by (destruct side; names_differ).
  rewrite (named_make_ne _ ("ReduceGlobal" +:+ itos j)) by (destruct side; names_differ).
  rewrite (named_make_ne _ ("ReduceGlobalWeekDay" +:+ itos j)) by (destruct side; names_differ).
  rewrite (named_make_ne _ ("ReduceGlobalWeekEnd" +:+ itos j)) by (destruct side; names_differ).
  destruct (decide (j = i)) as [->|Hne].
  - rewrite Hlast. cbn [fst snd].
    destruct side; cbn [createName Solver.patternsOf otherSide].
    + rewrite named_create_eq, named_create by names_differ.
      destruct (_ && _), (Solver.canReduceGlobalWeekDay _ _), (Solver.canReduceGlobalWeekEnd _ _),
        (lwd =? -1), (lwe =? -1); cbn [negb app]; rewrite ?app_nil_r; reflexivity.
    + rewrite named_create_eq, named_create by names_differ.
      destruct (_ && _), (Solver.canReduceGlobalWeekDay _ _), (Solver.canReduceGlobalWeekEnd _ _),
        (lwd =? -1), (lwe =? -1); cbn [negb app]; rewrite ?app_nil_r; reflexivity.
  - rewrite !named_create by (destruct side; names_differ).
    destruct (_ && _), (Solver.canReduceGlobalWeekDay _ _), (Solver.canReduceGlobalWeekEnd _ _),
      (negb (lwd =? -1)), (negb (lwe =? -1)); reflexivity.
Qed.

Lemma named_createSplit sv side state i :
  0 <= i < Solver.noMachines sv ->
  named (createName side +:+ itos i) (Solver.generateOptimizations sv state)
  = createSplitsOf sv side state i.
Proof.
  intros Hi. rewrite generateOptimizations_eq, !named_app, named_flat_map.
  rewrite named_fleet_ne, named_shutdown_ne by (destruct side; names_differ).
  rewrite !app_nil_r.
  rewrite (flat_map_single _
             (fun j => named (createName side +:+ itos i)
                             (fst (Solver.machineMoves sv state j))) i _ Hi).
  - rewrite named_machine_create. now destruct (decide (i = i)).
  - intros j _ Hj. rewrite named_machine_create. now destruct (decide (j = i)).
  - reflexivity.
Qed.

Lemma getRemainingChanges_sides sv side s i :
  Solver.getRemainingChanges sv (idx (machines s) i emptyMachine)
  = int32 (Solver.maxChanges sv - Solver.getChanges sv (sidePatterns side s i)
           - Solver.getChanges sv (sidePatterns (otherSide side) s i)).
Proof.
  unfold Solver.getRemainingChanges, sidePatterns. destruct side; cbn; f_equal; lia.
Qed.

(** What the guard of CreateSplit does achieve.  The budget is kept per
    machine: if the generator emits a move named CreateSplit<Side><i> for a
    machine [i] of the fleet, then after that move is applied to the state
    it was generated from, the remaining change budget of machine [i], as
    [getRemainingChanges] computes it, is not negative. *)
Lemma createSplit_keeps_machine_budget
        (sv : Solver.t) (state : State) (side : OptimizationPartType) (i : Z)
        (o : Optimization.t) :
  0 <= i < Solver.noMachines sv ->
  Solver.noMachines sv <= vsize (machines state) ->
  In o (Solver.generateOptimizations sv state) ->
  Optimization.name o = createName side +:+ itos i ->
  0 <= Solver.getRemainingChanges sv
         (idx (machines (Optimization.apply o state)) i emptyMachine).
Proof.
  intros Hi Hwf Hin Hname.
  assert (Hn : In o (named (createName side +:+ itos i) (Solver.generateOptimizations sv state)))
    by (apply named_In; tauto).
  rewrite named_createSplit in Hn by exact Hi.
  unfold createSplitsOf in Hn.
  destruct (_ =? -1); [destruct Hn|].
  unfold Solver.createSplitMoves in Hn.
  destruct Solver.createSplitScan as [parts newPatterns] eqn:Hscan.
  destruct (negb _ && (0 <=? _)) eqn:Hguard; [|destruct Hn].
  destruct Hn as [<-|[]].
  apply andb_prop in Hguard as [_ Hbudget]. apply Z.leb_le in Hbudget.
  eapply (createSplitScan_apply side state i _ _ _ _ _ _ _ _ state) in Hscan;
    [ | lia | reflexivity | reflexivity ].
  destruct Hscan as (extra & Hparts & Hside & Hother). cbn [app] in Hparts. subst extra.
  rewrite (getRemainingChanges_sides sv side).
  unfold Optimization.apply. cbn [Optimization.parts Optimization.make].
  fold (applyParts parts state). rewrite Hside, Hother.
  unfold sidePatterns. lia.
Qed.

(** ** Generated moves are built on the state they are generated from *)

Lemma builtOn_from state p :
  builtOn state p -> OptimizationPart.from p = slotValue state (slotOf p).
Proof. intros (side & i & j & v & ->). now destruct side. Qed.

Lemma builtOn_reducePart side state i j : builtOn state (Solver.reducePart side state i j).
Proof. unfold Solver.reducePart. now eexists side, i, j, _. Qed.

Lemma builtOn_weekDay state i j v : builtOn state (OptimizationPart.weekDay state i j v).
Proof. now exists WEEK_DAY, i, j, v. Qed.

Lemma builtOn_weekEnd state i j v : builtOn state (OptimizationPart.weekEnd state i j v).
Proof. now exists WEEK_END, i, j, v. Qed.

Lemma builtOn_reduceGlobalPartsOf sv state i :
  Forall (builtOn state) (Solver.reduceGlobalPartsOf sv state i).
Proof.
  unfold Solver.reduceGlobalPartsOf. destruct Solver.getLastOperatingWeeks as [lwd lwe].
  induction (seqZ 0 _) as [|j l IH]; cbn [flat_map]; [constructor|].
  cbn [app]. repeat (constructor; [apply builtOn_reducePart|]). exact IH.
Qed.

Lemma builtOn_map_reducePart side state i l :
  Forall (builtOn state) (map (Solver.reducePart side state i) l).
Proof. apply List.Forall_map, List.Forall_forall. intros; apply builtOn_reducePart. Qed.

Lemma builtOn_createSplitScan side state i dl n : forall j loadSum parts newPatterns,
  Forall (builtOn state) parts ->
  Forall (builtOn state)
         (fst (Solver.createSplitScan side state i dl j n loadSum parts newPatterns)).
Proof.
  induction n as [|n IH]; intros j loadSum parts np H; cbn [Solver.createSplitScan]; [exact H|].
  destruct (fgt _ _); [exact H|].
  apply IH, List.Forall_app. split; [exact H|]. constructor; [apply builtOn_reducePart|constructor].
Qed.

Lemma builtOn_shutdownScan state i n : forall j pa pd pe,
  Forall (builtOn state) pa -> Forall (builtOn state) pd -> Forall (builtOn state) pe ->
  let r := Solver.shutdownScan state i j n pa pd pe in
  Forall (builtOn state) (fst (fst r))
  /\ Forall (builtOn state) (snd (fst r))
  /\ Forall (builtOn state) (snd r).
Proof.
  induction n as [|n IH]; intros j pa pd pe Ha Hd He; cbn [Solver.shutdownScan]; [now repeat split|].
  destruct (fgt _ _); [now repeat split|].
  apply IH; apply List.Forall_app; (split; [assumption|]);
    repeat (constructor; [first [apply builtOn_weekDay | apply builtOn_weekEnd]|]); constructor.
Qed.

Lemma builtOn_shutdownPartsOf sv state i :
  Forall (builtOn state) (Solver.shutdownPartsOf sv state i).
Proof.
  unfold Solver.shutdownPartsOf.
  destruct (_ =? 0); [constructor|].
  destruct Solver.getLastOperatingWeeks as [lwd lwe].
  pose proof (builtOn_shutdownScan state i (Z.to_nat (Z.max lwd lwe + 1)) (Z.max lwd lwe)
                [] [] [] (List.Forall_nil _) (List.Forall_nil _) (List.Forall_nil _)) as H.
  cbv zeta in H. destruct Solver.shutdownScan as [[pa pd] pe]. cbn [fst snd] in H.
  destruct H as (Ha & Hd & He).
  destruct (_ =? 1); [destruct (fgt _ _)|]; assumption.
Qed.

Lemma builtOn_machineMoves sv state i o :
  In o (fst (Solver.machineMoves sv state i)) ->
  Forall (builtOn state) (Optimization.parts o).
Proof.
  unfold Solver.machineMoves, Solver.reduceGlobalMoves, Solver.splitMoves.
  destruct (Solver.getLastOperatingWeeks sv (idx (machines state) i emptyMachine))
    as [lwd lwe] eqn:Hlast.
  cbn [fst snd]. rewrite !in_app_iff.
  assert (Himp : forall side nm splits,
             In o (flat_map (Solver.improveSplitMoves side nm state i) splits) ->
             Forall (builtOn state) (Optimization.parts o)).
  { intros side nm splits Hin. apply in_flat_map in Hin as (sp & _ & Hin).
    unfold Solver.improveSplitMoves in Hin. destruct Solver.canImproveSplit; [|destruct Hin].
    destruct Hin as [<-|[]]. apply builtOn_map_reducePart. }
  assert (Hcre : forall side nm last dl oc,
             In o (Solver.createSplitMoves sv side nm state i last dl oc) ->
             Forall (builtOn state) (Optimization.parts o)).
  { intros side nm last dl oc Hin. unfold Solver.createSplitMoves in Hin.
    pose proof (builtOn_createSplitScan side state i dl (Z.to_nat (last + 1)) last 0%float []
                  (Solver.patternsOf side (idx (machines state) i emptyMachine))
                  (List.Forall_nil _)) as H.
    destruct Solver.createSplitScan as [parts np]. cbn [fst] in H.
    destruct (_ && _); [|destruct Hin]. destruct Hin as [<-|[]]. exact H. }
  intros [[Hin|[Hin|Hin]]|[Hin|Hin]].
  - destruct (_ && _); [|destruct Hin]. destruct Hin as [<-|[]].
    apply builtOn_reduceGlobalPartsOf.
  - destruct (Solver.canReduceGlobalWeekDay _ _); [|destruct Hin]. destruct Hin as [<-|[]].
    apply builtOn_map_reducePart.
  - destruct (Solver.canReduceGlobalWeekEnd _ _); [|destruct Hin]. destruct Hin as [<-|[]].
    apply builtOn_map_reducePart.
  - destruct (negb (lwd =? -1)); [|destruct Hin].
    apply in_app_iff in Hin as [Hin|Hin]; eauto.
  - destruct (negb (lwe =? -1)); [|destruct Hin].
    apply in_app_iff in Hin as [Hin|Hin]; eauto.
Qed.

Lemma builtOn_generated sv state o :
  In o (Solver.generateOptimizations sv state) ->
  Forall (builtOn state) (Optimization.parts o).
Proof.
  rewrite generateOptimizations_eq, !in_app_iff. intros [Hin|[Hin|Hin]].
  - apply in_flat_map in Hin as (i & _ & Hin). now apply builtOn_machineMoves in Hin.
  - unfold fleetMove in Hin. destruct (_ && _); [|destruct Hin]. destruct Hin as [<-|[]].
    cbn [Optimization.parts Optimization.make].
    induction (seqZ 0 (Solver.noMachines sv)) as [|j l IH]; cbn [flat_map]; [constructor|].
    apply List.Forall_app. split; [|exact IH].
    rewrite machineMoves_snd. destruct (_ && _); [apply builtOn_reduceGlobalPartsOf | constructor].
  - unfold shutdownMove in Hin. destruct (_ =? _); [|destruct Hin]. destruct Hin as [<-|[]].
    cbn [Optimization.parts Optimization.make].
    induction (seqZ 0 (Solver.noMachines sv)) as [|j l IH]; cbn [flat_map]; [constructor|].
    apply List.Forall_app. split; [apply builtOn_shutdownPartsOf | exact IH].
Qed.

(** Every move built on a state is undone exactly on that state. *)
Lemma built_move_undo_apply (state : State) (o : Optimization.t) :
  Forall (builtOn state) (Optimization.parts o) ->
  Optimization.undo o (Optimization.apply o state) = state.
Proof.
  intros H. rewrite undo_writes, apply_writes. apply undo_apply_snapshot.
  eapply List.Forall_impl; [|exact H]. intros p. apply builtOn_from.
Qed.

(** Every move the generator builds on a state is undone exactly on that
    state. *)
Lemma generated_move_undo_apply (sv : Solver.t) (state : State) (o : Optimization.t) :
  In o (Solver.generateOptimizations sv state) ->
  Optimization.undo o (Optimization.apply o state) = state.
Proof.
  intros Hin. rewrite undo_writes, apply_writes. apply undo_apply_snapshot.
  eapply List.Forall_impl; [|exact (builtOn_generated sv state o Hin)].
  intros p. apply builtOn_from.
Qed.

(** C9.  Undoing a move after applying it gives the state back.  A
    part is only ever built by [OptimizationPart::weekDay] or
    [OptimizationPart::weekEnd], which record as [from] what the state holds
    in the slot.  For every state and every move whose parts were built on
    that state, [undo] after [apply] restores the state exactly: every
    weekday and weekend pattern array, and every other field.  Every move
    [generateOptimizations] emits for a state is such a move, and so is
    undone exactly on the state it was generated from, which is the state
    [refine] applies it to. *)
Theorem undo_apply_round_trip (state : State) :
  (forall mv : Optimization.t,
      Forall (builtOn state) (Optimization.parts mv) ->
      Optimization.undo mv (Optimization.apply mv state) = state)
  /\ (forall (sv : Solver.t) (mv : Optimization.t),
         In mv (Solver.generateOptimizations sv state) ->
         Forall (builtOn state) (Optimization.parts mv)
         /\ Optimization.undo mv (Optimization.apply mv state) = state).
Proof.
  split.
  - intros mv. apply built_move_undo_apply.
  - intros sv mv Hin. split.
    + exact (builtOn_generated sv state mv Hin).
    + exact (generated_move_undo_apply sv state mv Hin).
Qed.

(** ** Counting changes *)

Lemma count_fold (f : Z -> bool) (l : list Z) : forall c,
  fold_left (fun changes i => if f i then changes + 1 else changes) l c
  = c + Z.of_nat (length (List.filter f l)).
Proof.
  induction l as [|i l IH]; intros c; cbn [fold_left List.filter]; [cbn; lia|].
  rewrite IH. destruct (f i); cbn [length]; lia.
Qed.

Lemma getChanges_changeWeeks sv patterns :
  Solver.getChanges sv patterns = Z.of_nat (length (changeWeeks sv patterns)).
Proof. unfold Solver.getChanges, changeWeeks. now rewrite count_fold. Qed.

Lemma filter_nil_iff {A} (f : A -> bool) (l : list A) :
  List.filter f l = [] <-> forall x, In x l -> f x = false.
Proof.
  induction l as [|x l IH]; cbn [List.filter]; [now split|].
  destruct (f x) eqn:E; split.
  - discriminate.
  - intros H. specialize (H x (or_introl eq_refl)). congruence.
  - intros H y [<-|Hy]; [exact E | now apply IH].
  - intros H. apply IH. intros y Hy. apply H. now right.
Qed.

(** X2.  [getChanges] counts the weeks below [noWeeks - 1] whose pattern
    differs from the next week's: the count lies between 0 and
    [noWeeks - 1], it is 0 exactly when the pattern is the same in all
    weeks below [noWeeks], and it is 0 when there is at most one week. *)
Theorem getChanges_counts_adjacent_differences (sv : Solver.t) (patterns : list Z) :
  0 <= Solver.getChanges sv patterns <= Z.max 0 (Solver.noWeeks sv - 1)
  /\ (Solver.getChanges sv patterns = 0
      <-> forall i, 0 <= i < Solver.noWeeks sv - 1 ->
                    idx patterns i 0 = idx patterns (i + 1) 0)
  /\ (Solver.noWeeks sv <= 1 -> Solver.getChanges sv patterns = 0).
Proof.
  rewrite getChanges_changeWeeks. unfold changeWeeks.
  set (f := fun i => negb (idx patterns i 0 =? idx patterns (i + 1) 0)).
  pose proof (List.filter_length_le f (seqZ 0 (Solver.noWeeks sv - 1))) as Hle.
  rewrite length_seqZ in Hle.
  split; [lia|]. split.
  - transitivity (List.filter f (seqZ 0 (Solver.noWeeks sv - 1)) = []).
    + destruct (List.filter f _); cbn [length]; split; try reflexivity; try discriminate; lia.
    + rewrite filter_nil_iff. split.
      * intros H i Hi. specialize (H i). unfold f in H.
        destruct (Z.eqb_spec (idx patterns i 0) (idx patterns (i + 1) 0)) as [E|E]; [exact E|].
        cbn in H. discriminate H. apply list_elem_of_In, elem_of_seqZ. lia.
      * intros H i Hi. apply list_elem_of_In, elem_of_seqZ in Hi. unfold f.
        rewrite (H i) by lia. now rewrite Z.eqb_refl.
  - intros Hw. rewrite seqZ_nil by lia. reflexivity.
Qed.

(** ** Last operating weeks *)

(** X1.  [getLastOperatingWeeks] returns, for each side, the last week
    below [noWeeks] whose pattern is not 1, or -1 when every week has
    pattern 1; with no week at all both results are -1. *)
Theorem getLastOperatingWeeks_finds_last_operating_week
        (sv : Solver.t) (machine : Machine) :
  lastNotOne (weekDayPatterns machine) (Z.max 0 (Solver.noWeeks sv))
             (fst (Solver.getLastOperatingWeeks sv machine))
  /\ lastNotOne (weekEndPatterns machine) (Z.max 0 (Solver.noWeeks sv))
                (snd (Solver.getLastOperatingWeeks sv machine))
  /\ (Solver.noWeeks sv <= 0 -> Solver.getLastOperatingWeeks sv machine = (-1, -1)).
Proof.
  pose proof (getLastOperatingWeeks_spec sv machine) as [Hd He].
  split; [exact Hd|]. split; [exact He|].
  intros Hw. unfold Solver.getLastOperatingWeeks.
  now replace (Z.to_nat (Solver.noWeeks sv)) with 0%nat by lia.
Qed.

(** ** The selection loop picks a maximum *)

Lemma fgt_false_trans (a b c : float) :
  fgt a b = false -> fgt c b = true -> fgt a c = false.
Proof.
  intros H1 H2. destruct (fgt a c) eqn:E; [|reflexivity].
  rewrite (fgt_trans _ _ _ E H2) in H1. discriminate.
Qed.

Lemma fgt_irrefl (a : float) : fgt a a = false.
Proof.
  unfold fgt. rewrite FloatAxioms.ltb_spec. unfold SFltb.
  destruct (Prim2SF a) as [[]|[]| |[] m e]; cbn; try reflexivity;
    now rewrite Z.compare_refl, Pos.compare_cont_refl.
Qed.

Lemma selectBest_max_gen (bad : gset string) optimizations : forall seen best,
  noneAbove bad seen (snd best) ->
  noneAbove bad (seen ++ optimizations)
    (snd (fold_left
            (fun best optimization =>
               if fgt (Optimization.costImprovement optimization) (snd best)
                  && bool_decide (Optimization.id optimization ∉ bad)
               then (Some optimization, Optimization.costImprovement optimization)
               else best)
            optimizations best)).
Proof.
  induction optimizations as [|o os IH]; intros seen best Hseen; cbn [fold_left].
  - now rewrite app_nil_r.
  - replace (seen ++ o :: os) with ((seen ++ [o]) ++ os) by now rewrite <- app_assoc.
    apply IH.
    destruct (fgt (Optimization.costImprovement o) (snd best)) eqn:Hgt; cbn [andb].
    + case_bool_decide as Hbad; cbn [snd].
      * intros o' Hin Hnb. apply in_app_iff in Hin as [Hin|[<-|[]]].
        -- exact (fgt_false_trans _ _ _ (Hseen o' Hin Hnb) Hgt).
        -- apply fgt_irrefl.
      * intros o' Hin Hnb. apply in_app_iff in Hin as [Hin|[<-|[]]]; [now apply Hseen | contradiction].
    + intros o' Hin Hnb. apply in_app_iff in Hin as [Hin|[<-|[]]]; [now apply Hseen | exact Hgt].
Qed.

(** As long as nothing is selected the threshold stays where it was. *)
Lemma selectBest_none_threshold (bad : gset string) optimizations : forall best,
  fst (fold_left
         (fun best optimization =>
            if fgt (Optimization.costImprovement optimization) (snd best)
               && bool_decide (Optimization.id optimization ∉ bad)
            then (Some optimization, Optimization.costImprovement optimization)
            else best)
         optimizations best) = None ->
  fst best = None
  /\ snd (fold_left
            (fun best optimization =>
               if fgt (Optimization.costImprovement optimization) (snd best)
                  && bool_decide (Optimization.id optimization ∉ bad)
               then (Some optimization, Optimization.costImprovement optimization)
               else best)
            optimizations best) = snd best.
Proof.
  induction optimizations as [|o os IH]; intros best H; cbn [fold_left] in *; [now split|].
  destruct (_ && _).
  - apply IH in H as [H _]. discriminate H.
  - now apply IH.
Qed.

(** When nothing is selected, no candidate outside the blacklist improves
    on -1. *)
Lemma selectBest_none_below (bad : gset string) (optimizations : list Optimization.t) :
  fst (Solver.selectBest bad optimizations) = None ->
  forall o, In o optimizations -> Optimization.id o ∉ bad ->
            fgt (Optimization.costImprovement o) (-1)%float = false.
Proof.
  pose proof (selectBest_max_gen bad optimizations [] (None, (-1)%float)) as Hmax.
  cbn [app snd] in Hmax. fold (Solver.selectBest bad optimizations) in Hmax.
  specialize (Hmax (fun o (H : In o []) => match H with end)).
  intros Hn o Ho Hnb.
  apply selectBest_none_threshold in Hn as [_ E]. cbn [snd] in E.
  fold (Solver.selectBest bad optimizations) in E. rewrite <- E. now apply Hmax.
Qed.

(** X7.  The selection loop of [refine] picks a maximum: the move it
    selects is a candidate outside the blacklist, the final threshold is
    its improvement, and no candidate outside the blacklist has a greater
    improvement.  When it selects nothing, no candidate outside the
    blacklist has an improvement above -1. *)
Theorem selectBest_picks_a_maximum (bad : gset string) (optimizations : list Optimization.t) :
  (forall best, fst (Solver.selectBest bad optimizations) = Some best ->
     In best optimizations
     /\ (Optimization.id best ∉ bad)
     /\ snd (Solver.selectBest bad optimizations) = Optimization.costImprovement best
     /\ forall o, In o optimizations -> Optimization.id o ∉ bad ->
                  fgt (Optimization.costImprovement o) (Optimization.costImprovement best) = false)
  /\ (fst (Solver.selectBest bad optimizations) = None ->
      forall o, In o optimizations -> Optimization.id o ∉ bad ->
                fgt (Optimization.costImprovement o) (-1)%float = false).
Proof.
  pose proof (selectBest_inv bad optimizations) as [Hthr Hinv].
  pose proof (selectBest_max_gen bad optimizations [] (None, (-1)%float)) as Hmax.
  cbn [app snd] in Hmax. fold (Solver.selectBest bad optimizations) in Hmax.
  specialize (Hmax (fun o (H : In o []) => match H with end)).
  split.
  - intros best Hb. rewrite Hb in Hinv. destruct Hinv as (Hin & Hnb & Heq & _).
    repeat split; try assumption. intros o Ho Hn. rewrite <- Heq. now apply Hmax.
  - apply selectBest_none_below.
Qed.

(** ** After a failed fleet-wide reduction *)

(** X9.  Once [reduceGlobalFailed] is set it stays set for the rest of the
    run, and from then on no call of [refine] generates the fleet-wide
    move named "ReduceGlobal". *)
Theorem reduceGlobal_never_generated_after_failure
        (solver : Solver.t) (i : Z) (fbs : list Feedback) (j : Z) (sv : Solver.t) :
  Solver.reduceGlobalFailed solver = true ->
  In (j, sv) (refineCalls solver i fbs) ->
  Solver.reduceGlobalFailed sv = true
  /\ Solver.reduceGlobalFailed (Solver.refine sv) = true
  /\ forall o, In o (candidates sv) -> Optimization.name o <> "ReduceGlobal".
Proof.
  intros Hflag Hin.
  assert (H : Solver.reduceGlobalFailed sv = true).
  { apply (refineCalls_invariant (fun s => Solver.reduceGlobalFailed s = true))
      with (fbs := fbs) (solver := solver) (i := i) (j := j); try assumption.
    - intros. now rewrite refineCall_flag.
    - apply refine_flag_sticky. }
  split; [exact H|]. split; [now apply refine_flag_sticky|].
  intros o Ho Hname.
  assert (Hn : In o (named "ReduceGlobal" (candidates sv))) by (apply named_In; tauto).
  unfold candidates in Hn. rewrite named_fleet in Hn. unfold fleetMove in Hn.
  rewrite (revert_flag_sticky sv H), andb_false_r in Hn. destruct Hn.
Qed.

(** ** More on vectors *)

Lemma idx_app_l {A} (l l' : list A) (k : Z) (d : A) :
  0 <= k < vsize l -> idx (l ++ l') k d = idx l k d.
Proof.
  unfold idx, vsize. intros H. destruct (Z.ltb_spec k 0); [lia|].
  apply app_nth1. lia.
Qed.

Lemma idx_app_last {A} (l : list A) (x d : A) : idx (l ++ [x]) (vsize l) d = x.
Proof.
  unfold idx, vsize. destruct (Z.ltb_spec (Z.of_nat (length l)) 0); [lia|].
  rewrite Nat2Z.id, app_nth2, Nat.sub_diag by lia. reflexivity.
Qed.

Lemma map_upd_same {A B} (f : A -> B) (l : list A) (i : Z) (x d : A) :
  f x = f (idx l i d) -> map f (upd l i x) = map f l.
Proof.
  unfold upd, idx. intros H. destruct (Z.ltb_spec i 0); [reflexivity|].
  change (map f) with (fmap (M := list) f). rewrite list_fmap_insert.
  apply list_insert_id'. intros Hlt. rewrite length_fmap in Hlt.
  rewrite list_lookup_fmap.
  destruct (nth_lookup_or_length l (Z.to_nat i) d) as [E|E]; [|lia].
  rewrite E. cbn. now rewrite H.
Qed.

Lemma grid_patternsAt solver k :
  grid solver k = map (fun p => combine (fst p) (snd p)) (patternsAt solver k).
Proof. unfold grid, patternsAt, patternsOfState. now rewrite map_map. Qed.

(** ** Reading feedback *)

Lemma readFeedback_machines_patterns W blocks js : forall ms,
  map (fun machine => (weekDayPatterns machine, weekEndPatterns machine))
      (fold_left (fun ms j => upd ms j (readMachine W (idx ms j emptyMachine) (idx blocks j [])))
                 js ms)
  = map (fun machine => (weekDayPatterns machine, weekEndPatterns machine)) ms.
Proof.
  induction js as [|j js IH]; intros ms; cbn [fold_left]; [reflexivity|].
  rewrite IH. now apply map_upd_same with (d := emptyMachine).
Qed.

Lemma readFeedback_patternsAt solver i fb k :
  patternsAt (readFeedback solver i fb) k = patternsAt solver k.
Proof.
  unfold patternsAt, readFeedback. cbn [Solver.states Solver.withStates].
  destruct (decide (k = i)) as [->|Hne]; [|now rewrite idx_upd_ne by congruence].
  destruct (decide (0 <= i < vsize (Solver.states solver))) as [Hi|Hi].
  - rewrite idx_upd_eq by exact Hi. unfold patternsOfState. cbn [machines].
    apply readFeedback_machines_patterns.
  - now rewrite upd_outside.
Qed.

Lemma readFeedback_bestScore solver i fb :
  Solver.bestScore (readFeedback solver i fb) = Solver.bestScore solver.
Proof. reflexivity. Qed.

Lemma refineCall_currentState solver i fb :
  0 <= i < vsize (Solver.states solver) ->
  Solver.currentState (pushNextState (readFeedback solver i fb) i)
  = idx (Solver.states (readFeedback solver i fb)) i emptyState.
Proof.
  intros Hi. unfold Solver.currentState, pushNextState. cbn [Solver.states Solver.withStates].
  replace (vsize (_ ++ [_]) - 1) with (vsize (Solver.states (readFeedback solver i fb))).
  - apply idx_app_last.
  - unfold vsize. rewrite length_app. cbn. lia.
Qed.

Lemma refineCall_score solver i fb :
  0 <= i < vsize (Solver.states solver) ->
  score (Solver.currentState (pushNextState (readFeedback solver i fb) i)) = fbScore fb.
Proof.
  intros Hi. rewrite refineCall_currentState by exact Hi.
  unfold readFeedback. cbn [Solver.states Solver.withStates].
  now rewrite idx_upd_eq by exact Hi.
Qed.

Lemma refine_bestScore sv :
  Solver.bestScore (Solver.refine sv)
  = Z.max (Solver.bestScore sv) (score (Solver.currentState sv)).
Proof.
  unfold Solver.refine, Solver.tryBest. cbn [Solver.bestScore]. unfold Solver.revert.
  destruct (Solver.previousOptimization sv); [destruct (_ || _)|]; reflexivity.
Qed.

(** ** The interaction loop, block by block *)

Lemma interaction_middle solver i fb :
  i <> Solver.noInteractions solver - 1 ->
  interaction solver i fb = Solver.refine (pushNextState (readFeedback solver i fb) i).
Proof.
  intros H. unfold interaction. cbn [readFeedback Solver.noInteractions Solver.withStates].
  now destruct (Z.eqb_spec i (Solver.noInteractions solver - 1)).
Qed.

Lemma interaction_last solver i fb :
  i = Solver.noInteractions solver - 1 ->
  interaction solver i fb = readFeedback solver i fb.
Proof.
  intros H. unfold interaction. cbn [readFeedback Solver.noInteractions Solver.withStates].
  now destruct (Z.eqb_spec i (Solver.noInteractions solver - 1)).
Qed.

Lemma mainLoop_noInteractions fbs : forall solver i,
  Solver.noInteractions (mainLoop solver i fbs) = Solver.noInteractions solver.
Proof.
  induction fbs as [|fb fbs IH]; intros solver i; cbn [mainLoop]; [reflexivity|].
  destruct (_ <? _); [|reflexivity].
  destruct (_ =? _); [apply interaction_noInteractions|].
  now rewrite IH, interaction_noInteractions.
Qed.

Lemma mainLoop_size fbs : forall solver i,
  0 <= i -> vsize (Solver.states solver) = i + 1 ->
  vsize (Solver.states (mainLoop solver i fbs))
  = i + 1 + Z.min (Z.of_nat (length fbs)) (Z.max 0 (Solver.noInteractions solver - 1 - i)).
Proof.
  induction fbs as [|fb fbs IH]; intros solver i Hi Hs; cbn [mainLoop length]; [lia|].
  destruct (Z.ltb_spec i (Solver.noInteractions solver)); [|lia].
  destruct (Z.eqb_spec i (Solver.noInteractions solver - 1)) as [E|Hne].
  - rewrite interaction_last, readFeedback_size by exact E. lia.
  - rewrite IH; rewrite ?interaction_noInteractions, ?interaction_size; try lia.
Qed.

Lemma mainLoop_bestScore fbs : forall solver i,
  0 <= i -> vsize (Solver.states solver) = i + 1 ->
  Solver.bestScore (mainLoop solver i fbs)
  = fold_left Z.max
      (map fbScore (firstn (Z.to_nat (Solver.noInteractions solver - 1 - i)) fbs))
      (Solver.bestScore solver).
Proof.
  induction fbs as [|fb fbs IH]; intros solver i Hi Hs; cbn [mainLoop].
  - now rewrite firstn_nil.
  - destruct (Z.ltb_spec i (Solver.noInteractions solver)).
    + destruct (Z.eqb_spec i (Solver.noInteractions solver - 1)) as [E|Hne].
      * rewrite interaction_last by exact E.
        replace (Z.to_nat _) with 0%nat by lia. reflexivity.
      * rewrite IH; rewrite ?interaction_noInteractions, ?interaction_size; try lia.
        replace (Z.to_nat (Solver.noInteractions solver - 1 - i))
          with (S (Z.to_nat (Solver.noInteractions solver - 1 - (i + 1)))) by lia.
        cbn [firstn map fold_left]. f_equal.
        rewrite interaction_middle, refine_bestScore by exact Hne.
        rewrite refineCall_score by lia. reflexivity.
    + replace (Z.to_nat _) with 0%nat by lia. reflexivity.
Qed.

(** X8.  After the run, [bestScore] is the greatest of 0 and the scores of
    the feedback blocks that were followed by a call of [refine], which are
    the first [N - 1] blocks. *)
Theorem bestScore_is_running_maximum
        (W M C N : Z) (costs : Costs) (fbs : list Feedback) :
  Solver.bestScore (runMain W M C N costs fbs)
  = fold_left Z.max (map fbScore (firstn (Z.to_nat (N - 1)) fbs)) 0.
Proof.
  unfold runMain. rewrite mainLoop_bestScore by (rewrite ?initialSolver_size; lia).
  rewrite initialSolver_noInteractions. now replace (N - 1 - 0) with (N - 1) by lia.
Qed.

(** X13.  The run holds one state per grid written: one for the initial
    grid and one more for every feedback block followed by a call of
    [refine], of which there are at most [N - 1]. *)
Theorem one_state_per_written_grid
        (W M C N : Z) (costs : Costs) (fbs : list Feedback) :
  vsize (Solver.states (runMain W M C N costs fbs))
  = 1 + Z.min (Z.of_nat (length fbs)) (Z.max 0 (N - 1))
  /\ length (refineCalls (initialSolver W M C N costs) 0 fbs)
     = Nat.min (length fbs) (Z.to_nat (N - 1)).
Proof.
  split.
  - unfold runMain. rewrite mainLoop_size by (rewrite ?initialSolver_size; lia).
    rewrite initialSolver_noInteractions. now replace (N - 1 - 0) with (N - 1) by lia.
  - rewrite refineCalls_length by lia. rewrite initialSolver_noInteractions.
    now replace (N - 1 - 0) with (N - 1) by lia.
Qed.

(** ** Moves act on the pattern vectors only *)

Lemma idx_map {A B} (f : A -> B) (l : list A) (i : Z) (d : A) :
  idx (map f l) i (f d) = f (idx l i d).
Proof. unfold idx. destruct (i <? 0); [reflexivity | apply map_nth]. Qed.

Lemma map_upd {A B} (f : A -> B) (l : list A) (i : Z) (x : A) :
  map f (upd l i x) = upd (map f l) i (f x).
Proof.
  unfold upd. destruct (i <? 0); [reflexivity|].
  change (map f) with (fmap (M := list) f). apply list_fmap_insert.
Qed.

Lemma fold_left_map {A B C} (P : A -> B) (f : A -> C -> A) (g : B -> C -> B) (l : list C) :
  (forall a c, P (f a c) = g (P a) c) ->
  forall a, P (fold_left f l a) = fold_left g l (P a).
Proof.
  intros H. induction l as [|c l IH]; intros a; cbn [fold_left]; [reflexivity|].
  now rewrite IH, H.
Qed.

Lemma patterns_write x v s :
  patternsOfState (write x v s) = pwrite x v (patternsOfState s).
Proof.
  destruct x as [[m w] side], s as [ms sc nv nd]. unfold patternsOfState, pwrite.
  cbn [machines].
  pose proof (idx_map (fun machine => (weekDayPatterns machine, weekEndPatterns machine))
                      ms m emptyMachine) as E.
  cbn [weekDayPatterns weekEndPatterns emptyMachine] in E. rewrite E.
  destruct side; cbn [write setWeekDay setWeekEnd withMachines machines];
    rewrite map_upd; reflexivity.
Qed.

Lemma patterns_writes ws s :
  patternsOfState (writes ws s) = pwrites ws (patternsOfState s).
Proof.
  unfold writes, pwrites.
  apply (fold_left_map patternsOfState). intros a c. apply patterns_write.
Qed.

Lemma patterns_apply o s :
  patternsOfState (Optimization.apply o s)
  = pwrites (map (fun p => (slotOf p, OptimizationPart.to p)) (Optimization.parts o))
            (patternsOfState s).
Proof. now rewrite apply_writes, patterns_writes. Qed.

Lemma patterns_undo o s :
  patternsOfState (Optimization.undo o s)
  = pwrites (map (fun p => (slotOf p, OptimizationPart.from p)) (Optimization.parts o))
            (patternsOfState s).
Proof. now rewrite undo_writes, patterns_writes. Qed.

(** ** Shapes *)

Lemma Forall_upd {A} (P : A -> Prop) (l : list A) (i : Z) (x : A) :
  Forall P l -> P x -> Forall P (upd l i x).
Proof. unfold upd. intros Hl Hx. destruct (i <? 0); [exact Hl | now apply Forall_insert]. Qed.

Lemma Forall_idx {A} (P : A -> Prop) (l : list A) (i : Z) (d : A) :
  Forall P l -> P d -> P (idx l i d).
Proof.
  unfold idx. intros Hl Hd. destruct (i <? 0); [exact Hd|].
  destruct (nth_in_or_default (Z.to_nat i) l d) as [Hin|E]; [|now rewrite E].
  rewrite List.Forall_forall in Hl. now apply Hl.
Qed.

Lemma shaped_pwrite W M x v ps : shaped W M ps -> shaped W M (pwrite x v ps).
Proof.
  destruct x as [[m w] side]. intros [Hlen Hall]. unfold pwrite.
  destruct (decide (0 <= m < vsize ps)) as [Hm|Hm]; [|now rewrite upd_outside].
  split; [now rewrite length_upd|].
  apply Forall_upd; [exact Hall|].
  assert (Hp : length (fst (idx ps m ([], []))) = W /\ length (snd (idx ps m ([], []))) = W).
  { unfold idx, vsize in *. destruct (Z.ltb_spec m 0); [lia|].
    rewrite List.Forall_forall in Hall. apply Hall, nth_In. lia. }
  destruct side; cbn [fst snd]; rewrite length_upd; tauto.
Qed.

Lemma shaped_pwrites W M ws : forall ps, shaped W M ps -> shaped W M (pwrites ws ps).
Proof.
  unfold pwrites. induction ws as [|w ws IH]; intros ps H; cbn [fold_left]; [exact H|].
  now apply IH, shaped_pwrite.
Qed.

(** ** Loops that visit every index once *)

Lemma upd_middle {A} (pre : list A) (x y : A) (r : list A) :
  upd (pre ++ x :: r) (vsize pre) y = pre ++ y :: r.
Proof.
  unfold upd, vsize. destruct (Z.ltb_spec (Z.of_nat (length pre)) 0); [lia|].
  rewrite Nat2Z.id, insert_app_r_alt, Nat.sub_diag by lia. reflexivity.
Qed.

Lemma idx_middle {A} (pre : list A) (x d : A) (r : list A) :
  idx (pre ++ x :: r) (vsize pre) d = x.
Proof.
  unfold idx, vsize. destruct (Z.ltb_spec (Z.of_nat (length pre)) 0); [lia|].
  rewrite Nat2Z.id, app_nth2, Nat.sub_diag by lia. reflexivity.
Qed.

(** A loop over the indices of a vector whose step rewrites the element at
    its index maps the vector. *)
Lemma fold_range_map {A} (F : list A -> Z -> list A) (H : A -> A) :
  (forall pre x r, F (pre ++ x :: r) (vsize pre) = pre ++ H x :: r) ->
  forall rest pre,
    fold_left F (seqZ (vsize pre) (vsize rest)) (pre ++ rest) = pre ++ map H rest.
Proof.
  intros HF. induction rest as [|x r IH]; intros pre.
  - cbn. reflexivity.
  - unfold vsize at 2. cbn [length]. rewrite seqZ_cons by lia.
    cbn [fold_left map]. rewrite HF.
    replace (pre ++ H x :: r) with ((pre ++ [H x]) ++ r) by now rewrite <- app_assoc.
    replace (Z.succ (vsize pre)) with (vsize (pre ++ [H x]))
      by (unfold vsize; rewrite length_app; cbn; lia).
    replace (Z.pred (Z.of_nat (S (length r)))) with (vsize r) by (unfold vsize; lia).
    rewrite IH, <- app_assoc. reflexivity.
Qed.

Lemma fold_range_map_all {A} (F : list A -> Z -> list A) (H : A -> A) (n : Z) (l : list A) :
  (forall pre x r, F (pre ++ x :: r) (vsize pre) = pre ++ H x :: r) ->
  vsize l = Z.max 0 n ->
  fold_left F (seqZ 0 n) l = map H l.
Proof.
  intros HF Hn. destruct (Z.le_gt_cases 0 n).
  - replace n with (vsize l) by lia. apply (fold_range_map F H HF l []).
  - rewrite seqZ_nil by lia. unfold vsize in Hn. destruct l; [reflexivity | cbn in Hn; lia].
Qed.

Lemma map_const_repeat {A B} (c : B) (l : list A) : map (fun _ => c) l = repeat c (length l).
Proof. induction l; cbn; congruence. Qed.

(** ** The initial patterns *)

(** Filling a vector of [noWeeks] weeks with one value. *)
Lemma fill_all (x : Z) (noWeeks : Z) (v : list Z) :
  vsize v = Z.max 0 noWeeks ->
  fold_left (fun v j => upd v j x) (seqZ 0 noWeeks) v = repeat x (length v).
Proof.
  intros H. rewrite (fold_range_map_all _ (fun _ => x)); [apply map_const_repeat | | exact H].
  intros pre y r. apply upd_middle.
Qed.

(** The inner loop of [setInitialPatterns] on the pattern vectors. *)
Lemma setInitialWeeks_patterns i js : forall st,
  patternsOfState (Solver.setInitialWeeks i st js)
  = fold_left (fun ps j => pwrite (i, j, WEEK_END) 9 (pwrite (i, j, WEEK_DAY) 9 ps))
              js (patternsOfState st).
Proof.
  unfold Solver.setInitialWeeks.
  apply (fold_left_map patternsOfState). intros st j.
  change (setWeekEnd (setWeekDay st i j 9) i j 9)
    with (write (i, j, WEEK_END) 9 (write (i, j, WEEK_DAY) 9 st)).
  now rewrite !patterns_write.
Qed.

Lemma fill_machine (pre : list (list Z * list Z)) (a b : list Z) r js : forall a' b',
  fold_left (fun ps j => pwrite (vsize pre, j, WEEK_END) 9 (pwrite (vsize pre, j, WEEK_DAY) 9 ps))
            js (pre ++ (a', b') :: r)
  = pre ++ (fold_left (fun v j => upd v j 9) js a',
            fold_left (fun v j => upd v j 9) js b') :: r.
Proof.
  induction js as [|j js IH]; intros a' b'; cbn [fold_left]; [reflexivity|].
  unfold pwrite. cbn beta iota zeta.
  repeat first [rewrite idx_middle | rewrite upd_middle | progress cbn [fst snd]].
  apply IH.
Qed.

Lemma combine_repeat {A B} (a : A) (b : B) (n : nat) :
  combine (repeat a n) (repeat b n) = repeat (a, b) n.
Proof. induction n as [|n IH]; cbn; [reflexivity | now rewrite IH]. Qed.

Lemma initialSolver_states (W M C N : Z) (costs : Costs) :
  Solver.states (initialSolver W M C N costs)
  = [fold_left (fun st i => Solver.setInitialWeeks i st (seqZ 0 W)) (seqZ 0 M)
       (fold_left
          (fun st i => withMachines st (upd (machines st) i (readCosts W (idx costs i []))))
          (seqZ 0 M) (mkState (repeat emptyMachine (Z.to_nat M)) 0 0 0))].
Proof. reflexivity. Qed.

Lemma initialSolver_patterns (W M C N : Z) (costs : Costs) :
  patternsAt (initialSolver W M C N costs) 0
  = repeat (repeat 9 (Z.to_nat W), repeat 9 (Z.to_nat W)) (Z.to_nat M).
Proof.
  unfold patternsAt. rewrite initialSolver_states.
  change (idx [?x] 0 emptyState) with x.
  (* the costs loop *)
  set (st0 := fold_left _ (seqZ 0 M) (mkState _ 0 0 0)).
  assert (H0 : patternsOfState st0
               = repeat (repeat 0 (Z.to_nat W), repeat 0 (Z.to_nat W)) (Z.to_nat M)).
  { unfold st0.
    rewrite (fold_left_map patternsOfState _
               (fun ps i => upd ps i (repeat 0 (Z.to_nat W), repeat 0 (Z.to_nat W)))).
    - unfold patternsOfState at 1. cbn [machines].
      rewrite (fold_range_map_all _ (fun _ => (repeat 0 (Z.to_nat W), repeat 0 (Z.to_nat W)))).
      + now rewrite map_const_repeat, length_map, repeat_length.
      + intros pre y r. apply upd_middle.
      + unfold vsize. rewrite length_map, repeat_length. lia.
    - intros st i. unfold patternsOfState. cbn [machines withMachines].
      now rewrite map_upd. }
  (* the loop of setInitialPatterns *)
  rewrite (fold_left_map patternsOfState _
             (fun ps i => fold_left
                            (fun ps j => pwrite (i, j, WEEK_END) 9 (pwrite (i, j, WEEK_DAY) 9 ps))
                            (seqZ 0 W) ps)).
  2: { intros st i. apply setInitialWeeks_patterns. }
  rewrite H0.
  rewrite (fold_range_map_all _
             (fun p => (fold_left (fun v j => upd v j 9) (seqZ 0 W) (fst p),
                        fold_left (fun v j => upd v j 9) (seqZ 0 W) (snd p)))).
  - rewrite List.map_repeat. cbn [fst snd].
    rewrite !fill_all by (unfold vsize; rewrite repeat_length; lia).
    now rewrite repeat_length.
  - intros pre [a b] r. apply fill_machine; assumption.
  - unfold vsize. rewrite repeat_length. lia.
Qed.

(** X3.  Before the first feedback every machine has pattern 9 on both
    sides of every week: the first grid written is [noMachines] rows of
    [noWeeks] pairs (9, 9), whatever the unit costs. *)
Theorem initial_grid_is_all_nines (W M C N : Z) (costs : Costs) :
  patternsAt (initialSolver W M C N costs) 0
  = repeat (repeat 9 (Z.to_nat W), repeat 9 (Z.to_nat W)) (Z.to_nat M)
  /\ grid (initialSolver W M C N costs) 0
     = repeat (repeat (9, 9) (Z.to_nat W)) (Z.to_nat M).
Proof.
  split; [apply initialSolver_patterns|].
  rewrite grid_patternsAt, initialSolver_patterns.
  rewrite List.map_repeat. cbn [fst snd]. now rewrite combine_repeat.
Qed.

(** ** The shape of the states *)

Lemma shapedState_patterns W M s : shapedState W M s <-> shaped W M (patternsOfState s).
Proof.
  unfold shapedState, shaped, patternsOfState. rewrite length_map, List.Forall_map. reflexivity.
Qed.

Lemma Forall_upd_idx {A} (P : A -> Prop) (g : A -> A) (l : list A) (i : Z) (d : A) :
  Forall P l -> (forall x, P x -> P (g x)) -> Forall P (upd l i (g (idx l i d))).
Proof.
  intros Hl Hg. destruct (decide (0 <= i < vsize l)) as [Hi|Hi]; [|now rewrite upd_outside].
  apply Forall_upd; [exact Hl|]. apply Hg.
  unfold idx, vsize in *. destruct (Z.ltb_spec i 0); [lia|].
  rewrite List.Forall_forall in Hl. apply Hl, nth_In. lia.
Qed.

Lemma shapedState_apply W M o s : shapedState W M s -> shapedState W M (Optimization.apply o s).
Proof. rewrite !shapedState_patterns, patterns_apply. apply shaped_pwrites. Qed.

Lemma shapedState_undo W M o s : shapedState W M s -> shapedState W M (Optimization.undo o s).
Proof. rewrite !shapedState_patterns, patterns_undo. apply shaped_pwrites. Qed.

Lemma revert_shaped W M sv :
  Forall (shapedState W M) (Solver.states sv) ->
  Forall (shapedState W M) (Solver.states (Solver.revert sv)).
Proof.
  intros H. unfold Solver.revert. destruct (Solver.previousOptimization sv) as [o|]; [|exact H].
  destruct (_ || _); cbn [Solver.states]; [|exact H].
  unfold Solver.currentState.
  apply (Forall_upd_idx _ (Optimization.undo o)); [exact H|]. intros x. apply shapedState_undo.
Qed.

Lemma tryBest_shaped W M sv :
  Forall (shapedState W M) (Solver.states sv) ->
  Forall (shapedState W M) (Solver.states (Solver.tryBest sv)).
Proof.
  intros H. unfold Solver.tryBest. cbn [Solver.states].
  destruct (fst _) as [o|]; [|exact H].
  unfold Solver.currentState.
  apply (Forall_upd_idx _ (Optimization.apply o)); [exact H|]. intros x. apply shapedState_apply.
Qed.

Lemma refine_shaped W M sv :
  Forall (shapedState W M) (Solver.states sv) ->
  Forall (shapedState W M) (Solver.states (Solver.refine sv)).
Proof. intros H. now apply tryBest_shaped, revert_shaped. Qed.

Lemma readFeedback_shaped W M sv i fb :
  Forall (shapedState W M) (Solver.states sv) ->
  Forall (shapedState W M) (Solver.states (readFeedback sv i fb)).
Proof.
  intros H. unfold readFeedback. cbn [Solver.states Solver.withStates].
  apply (Forall_upd_idx _
           (fun st => mkState
                        (fold_left
                           (fun ms j => upd ms j (readMachine (Solver.noWeeks sv)
                                                    (idx ms j emptyMachine)
                                                    (idx (fbMachines fb) j [])))
                           (seqZ 0 (Solver.noMachines sv)) (machines st))
                        (fbScore fb) (fbNoViolations fb) (fbNoDelays fb)));
    [exact H|].
  intros x. rewrite !shapedState_patterns. unfold patternsOfState at 2. cbn [machines].
  now rewrite readFeedback_machines_patterns.
Qed.

Lemma pushNextState_shaped W M sv i :
  0 <= i < vsize (Solver.states sv) ->
  Forall (shapedState W M) (Solver.states sv) ->
  Forall (shapedState W M) (Solver.states (pushNextState sv i)).
Proof.
  intros Hi H. unfold pushNextState. cbn [Solver.states Solver.withStates].
  apply List.Forall_app. split; [exact H|]. constructor; [|constructor].
  unfold idx, vsize in *. destruct (Z.ltb_spec i 0); [lia|].
  rewrite List.Forall_forall in H. apply H, nth_In. lia.
Qed.

Lemma mainLoop_shaped W M fbs : forall solver i,
  0 <= i -> vsize (Solver.states solver) = i + 1 ->
  Forall (shapedState W M) (Solver.states solver) ->
  Forall (shapedState W M) (Solver.states (mainLoop solver i fbs)).
Proof.
  induction fbs as [|fb fbs IH]; intros solver i Hi Hs H; cbn [mainLoop]; [exact H|].
  destruct (_ <? _); [|exact H].
  destruct (Z.eqb_spec i (Solver.noInteractions solver - 1)) as [E|Hne].
  - rewrite interaction_last by exact E. now apply readFeedback_shaped.
  - apply IH; [lia | rewrite interaction_size by exact Hne; lia |].
    rewrite interaction_middle by exact Hne.
    apply refine_shaped, pushNextState_shaped; [rewrite readFeedback_size; lia|].
    now apply readFeedback_shaped.
Qed.

Lemma initialSolver_shaped (W M C N : Z) (costs : Costs) :
  Forall (shapedState (Z.to_nat W) (Z.to_nat M)) (Solver.states (initialSolver W M C N costs)).
Proof.
  rewrite initialSolver_states. constructor; [|constructor].
  apply shapedState_patterns.
  pose proof (initialSolver_patterns W M C N costs) as Hp.
  unfold patternsAt in Hp. rewrite initialSolver_states in Hp.
  change (idx [?x] 0 emptyState) with x in Hp. rewrite Hp.
  split; [apply repeat_length|].
  apply List.Forall_forall. intros p Hin. apply repeat_spec in Hin. subst p.
  cbn [fst snd]. now rewrite repeat_length.
Qed.

(** X11.  Every state of a run, and so every grid written, has
    [noMachines] machines with [noWeeks] weeks on both sides: moves, reverts
    and feedback never change the dimensions. *)
Theorem every_state_keeps_the_grid_dimensions
        (W M C N : Z) (costs : Costs) (fbs : list Feedback) :
  Forall (shapedState (Z.to_nat W) (Z.to_nat M))
         (Solver.states (runMain W M C N costs fbs)).
Proof.
  unfold runMain.
  apply mainLoop_shaped; [lia | apply initialSolver_size | apply initialSolver_shaped].
Qed.

(** ** Written grids are final *)

Lemma revert_older sv k :
  k <> vsize (Solver.states sv) - 1 ->
  idx (Solver.states (Solver.revert sv)) k emptyState = idx (Solver.states sv) k emptyState.
Proof.
  intros H. unfold Solver.revert.
  destruct (Solver.previousOptimization sv); [|reflexivity].
  destruct (_ || _); cbn [Solver.states]; [|reflexivity].
  now rewrite idx_upd_ne by congruence.
Qed.

Lemma tryBest_older sv k :
  k <> vsize (Solver.states sv) - 1 ->
  idx (Solver.states (Solver.tryBest sv)) k emptyState = idx (Solver.states sv) k emptyState.
Proof.
  intros H. unfold Solver.tryBest. cbn [Solver.states].
  destruct (fst _); [|reflexivity]. now rewrite idx_upd_ne by congruence.
Qed.

(** [refine] works on the newest state only. *)
Lemma refine_older sv k :
  k <> vsize (Solver.states sv) - 1 ->
  idx (Solver.states (Solver.refine sv)) k emptyState = idx (Solver.states sv) k emptyState.
Proof.
  intros H. unfold Solver.refine.
  rewrite tryBest_older by (rewrite revert_size; exact H).
  now apply revert_older.
Qed.

Lemma pushNextState_older sv i k :
  0 <= k < vsize (Solver.states sv) ->
  idx (Solver.states (pushNextState sv i)) k emptyState = idx (Solver.states sv) k emptyState.
Proof.
  intros H. unfold pushNextState. cbn [Solver.states Solver.withStates].
  now rewrite idx_app_l.
Qed.

Lemma readFeedback_older sv i fb k :
  k <> i ->
  idx (Solver.states (readFeedback sv i fb)) k emptyState = idx (Solver.states sv) k emptyState.
Proof.
  intros H. unfold readFeedback. cbn [Solver.states Solver.withStates].
  now rewrite idx_upd_ne by congruence.
Qed.

(** After the feedback for [states[i]] is read, the round leaves the states
    up to [i] as they are. *)
Lemma interaction_older solver i fb k :
  0 <= k <= i -> vsize (Solver.states solver) = i + 1 ->
  idx (Solver.states (interaction solver i fb)) k emptyState
  = idx (Solver.states (readFeedback solver i fb)) k emptyState.
Proof.
  intros Hk Hs.
  destruct (Z.eqb_spec i (Solver.noInteractions solver - 1)) as [E|Hne].
  - now rewrite interaction_last by exact E.
  - rewrite interaction_middle by exact Hne.
    rewrite refine_older by (rewrite pushNextState_size, readFeedback_size; lia).
    apply pushNextState_older. rewrite readFeedback_size. lia.
Qed.

Lemma mainLoop_older fbs : forall solver i k,
  0 <= k < i -> vsize (Solver.states solver) = i + 1 ->
  idx (Solver.states (mainLoop solver i fbs)) k emptyState
  = idx (Solver.states solver) k emptyState.
Proof.
  induction fbs as [|fb fbs IH]; intros solver i k Hk Hs; cbn [mainLoop]; [reflexivity|].
  destruct (_ <? _); [|reflexivity].
  destruct (Z.eqb_spec i (Solver.noInteractions solver - 1)) as [E|Hne].
  - rewrite interaction_older by lia. apply readFeedback_older. lia.
  - rewrite IH; [ | lia | rewrite interaction_size by exact Hne; lia ].
    rewrite interaction_older by lia. apply readFeedback_older. lia.
Qed.

Lemma mainLoop_patternsAt fbs : forall solver i k,
  0 <= k <= i -> vsize (Solver.states solver) = i + 1 ->
  patternsAt (mainLoop solver i fbs) k = patternsAt solver k.
Proof.
  intros solver i k Hk Hs.
  destruct (decide (k = i)) as [->|Hne];
    [|unfold patternsAt; now rewrite mainLoop_older by lia].
  destruct fbs as [|fb fbs]; cbn [mainLoop]; [reflexivity|].
  destruct (_ <? _); [|reflexivity].
  destruct (Z.eqb_spec i (Solver.noInteractions solver - 1)) as [E|Hne].
  - rewrite interaction_last by exact E. apply readFeedback_patternsAt.
  - unfold patternsAt.
    rewrite mainLoop_older by (rewrite ?interaction_size by exact Hne; lia).
    rewrite interaction_older by lia. apply readFeedback_patternsAt.
Qed.

Lemma mainLoop_nil_or_done solver i fbs :
  Solver.noInteractions solver <= i -> mainLoop solver i fbs = solver.
Proof.
  intros H. destruct fbs as [|fb fbs]; cbn [mainLoop]; [reflexivity|].
  now destruct (Z.ltb_spec i (Solver.noInteractions solver)); [lia|].
Qed.

Lemma mainLoop_app fbs : forall solver i more,
  mainLoop solver i (fbs ++ more)
  = mainLoop (mainLoop solver i fbs)
             (if i + Z.of_nat (length fbs) <=? Solver.noInteractions solver - 1
              then i + Z.of_nat (length fbs) else Solver.noInteractions solver)
             more.
Proof.
  induction fbs as [|fb fbs IH]; intros solver i more; cbn [app mainLoop length].
  - destruct (Z.leb_spec (i + Z.of_nat 0) (Solver.noInteractions solver - 1)).
    + now replace (i + Z.of_nat 0) with i by lia.
    + rewrite (mainLoop_nil_or_done solver (Solver.noInteractions solver)) by lia.
      apply mainLoop_nil_or_done. lia.
  - destruct (Z.ltb_spec i (Solver.noInteractions solver)).
    + destruct (Z.eqb_spec i (Solver.noInteractions solver - 1)) as [E|Hne].
      * destruct (Z.leb_spec (i + Z.of_nat (S (length fbs))) (Solver.noInteractions solver - 1)); [lia|].
        rewrite mainLoop_nil_or_done; [reflexivity|].
        rewrite interaction_noInteractions. lia.
      * rewrite IH, interaction_noInteractions.
        replace (i + 1 + Z.of_nat (length fbs)) with (i + Z.of_nat (S (length fbs))) by lia.
        reflexivity.
    + destruct (Z.leb_spec (i + Z.of_nat (S (length fbs))) (Solver.noInteractions solver - 1)); [lia|].
      now rewrite mainLoop_nil_or_done by lia.
Qed.

(** X12.  A grid that has been written is final: whatever feedback
    follows, the patterns of every state the run already holds stay as they
    are; only the newest state is ever worked on. *)
Theorem written_grids_are_final
        (W M C N : Z) (costs : Costs) (fbs more : list Feedback) (k : Z) :
  0 <= k < vsize (Solver.states (runMain W M C N costs fbs)) ->
  patternsAt (runMain W M C N costs (fbs ++ more)) k
  = patternsAt (runMain W M C N costs fbs) k
  /\ grid (runMain W M C N costs (fbs ++ more)) k = grid (runMain W M C N costs fbs) k.
Proof.
  intros Hk.
  assert (Hp : patternsAt (runMain W M C N costs (fbs ++ more)) k
               = patternsAt (runMain W M C N costs fbs) k).
  { unfold runMain in *. rewrite mainLoop_app, initialSolver_noInteractions.
    rewrite mainLoop_size in Hk by (rewrite ?initialSolver_size; lia).
    rewrite initialSolver_noInteractions in Hk.
    destruct (Z.leb_spec (0 + Z.of_nat (length fbs)) (N - 1)).
    - apply mainLoop_patternsAt; [lia|].
      rewrite mainLoop_size by (rewrite ?initialSolver_size; lia).
      rewrite initialSolver_noInteractions. lia.
    - rewrite mainLoop_nil_or_done; [reflexivity|].
      rewrite mainLoop_noInteractions, initialSolver_noInteractions. lia. }
  split; [exact Hp|]. now rewrite !grid_patternsAt, Hp.
Qed.

(** ** Rolling back a rejected move *)

Lemma currentState_last sv' states' state :
  states' <> [] ->
  Solver.states sv' = upd states' (vsize states' - 1) state ->
  Solver.currentState sv' = state.
Proof.
  intros Hne E. unfold Solver.currentState. rewrite E, vsize_upd.
  apply idx_upd_eq. unfold vsize. destruct states'; [contradiction | cbn; lia].
Qed.

(** X6.  A move that [refine] applied and that the next feedback rejects
    (score 0, or below the best score) is rolled back completely: after the
    revert step of the next call, the patterns are again those the move was
    generated from, whatever loads and delays the feedback carried. *)
Theorem rejected_move_is_rolled_back
        (sv : Solver.t) (o : Optimization.t) (fb : Feedback) :
  Solver.states sv <> [] ->
  Solver.previousOptimization (Solver.refine sv) = Some o ->
  fbScore fb = 0 \/ fbScore fb < Solver.bestScore (Solver.refine sv) ->
  let i := vsize (Solver.states (Solver.refine sv)) - 1 in
  let next := refineCall (Solver.refine sv) i fb in
  patternsOfState (Solver.currentState (Solver.revert next))
  = patternsOfState (Solver.currentState (Solver.revert sv))
  /\ Optimization.id o ∈ Solver.badOptimizations (Solver.revert next).
Proof.
  intros Hne Hsel Hrej i next.
  set (sv1 := Solver.refine sv) in *.
  set (s0 := Solver.currentState (Solver.revert sv)).
  assert (Hsize : 0 < vsize (Solver.states sv1)).
  { unfold sv1. rewrite refine_size. unfold vsize.
    destruct (Solver.states sv); [contradiction | cbn; lia]. }
  assert (Hne0 : Solver.states (Solver.revert sv) <> []).
  { intros E. pose proof (revert_size sv) as Hs. rewrite E in Hs.
    unfold sv1 in Hsize. rewrite refine_size in Hsize. unfold vsize in *. cbn in Hs. lia. }
  (* the move was generated on s0 and applied there *)
  assert (Hgen : In o (Solver.generateOptimizations (Solver.revert sv) s0)
                 /\ Solver.currentState sv1 = Optimization.apply o s0).
  { pose proof (selectBest_inv (Solver.badOptimizations (Solver.revert sv))
                  (Solver.generateOptimizations (Solver.revert sv) s0)) as [_ Hinv].
    assert (E : fst (Solver.selectBest (Solver.badOptimizations (Solver.revert sv))
                       (Solver.generateOptimizations (Solver.revert sv) s0)) = Some o)
      by exact Hsel.
    rewrite E in Hinv. destruct Hinv as (Hin & _).
    split; [exact Hin|].
    apply (currentState_last sv1 (Solver.states (Solver.revert sv))); [exact Hne0|].
    unfold sv1, Solver.refine, Solver.tryBest. cbn [Solver.states].
    fold s0. now rewrite E. }
  destruct Hgen as [Hin Happ].
  (* the state [refine] is called on next *)
  assert (Hcur : patternsOfState (Solver.currentState next) = patternsOfState (Optimization.apply o s0)
                 /\ score (Solver.currentState next) = fbScore fb).
  { unfold next, refineCall. rewrite refineCall_score by lia. split; [|reflexivity].
    rewrite refineCall_currentState by lia.
    change (patternsOfState (idx (Solver.states (readFeedback sv1 i fb)) i emptyState))
      with (patternsAt (readFeedback sv1 i fb) i).
    rewrite readFeedback_patternsAt. unfold patternsAt.
    rewrite <- Happ. reflexivity. }
  destruct Hcur as [Hpat Hscore].
  assert (Hprev : Solver.previousOptimization next = Some o) by exact Hsel.
  assert (Hbest : Solver.bestScore next = Solver.bestScore sv1) by reflexivity.
  assert (Hnext : Solver.states next <> []).
  { unfold next, refineCall, pushNextState. cbn [Solver.states Solver.withStates].
    intros E. apply app_eq_nil in E as [_ E]. discriminate. }
  assert (Hb : (fbScore fb =? 0) || (fbScore fb <? Z.max (Solver.bestScore sv1) (fbScore fb)) = true)
    by (apply orb_true_iff; rewrite Z.eqb_eq, Z.ltb_lt; lia).
  assert (Hrev : Solver.states (Solver.revert next)
                 = upd (Solver.states next) (vsize (Solver.states next) - 1)
                       (Optimization.undo o (Solver.currentState next))
                 /\ Solver.badOptimizations (Solver.revert next)
                    = {[ Optimization.id o ]} ∪ Solver.badOptimizations next).
  { unfold Solver.revert. rewrite Hprev, Hscore, Hbest, Hb. split; reflexivity. }
  destruct Hrev as [Hstates Hbad].
  split; [|rewrite Hbad; apply elem_of_union_l, elem_of_singleton; reflexivity].
  rewrite (currentState_last _ _ _ Hnext Hstates).
  rewrite patterns_undo, Hpat, <- patterns_undo.
  now rewrite (generated_move_undo_apply (Solver.revert sv) s0 o Hin).
Qed.

(** ** Moves only step down *)

Lemma slotValue_write x v s y :
  slotValue (write x v s) y = slotValue s y
  \/ (x = y /\ slotValue (write x v s) y = v).
Proof.
  destruct x as [[m w] side], y as [[m' w'] side'].
  destruct (decide (0 <= m < vsize (machines s))) as [Hm|Hm];
    [|left; now rewrite write_outside].
  destruct (decide (m = m')) as [<-|Hne].
  - destruct s as [ms sc nv nd]. cbn [machines] in Hm.
    destruct side, side'; unfold slotValue, write, setWeekDay, setWeekEnd, withMachines;
      cbn [machines]; rewrite idx_upd_eq by exact Hm;
      cbn [Solver.patternsOf withWeekDayPatterns withWeekEndPatterns
           weekDayPatterns weekEndPatterns]; try (left; reflexivity).
    + destruct (decide (w = w')) as [<-|Hw]; [|left; now rewrite idx_upd_ne].
      destruct (decide (0 <= w < vsize (weekDayPatterns (idx ms m emptyMachine)))) as [Hw|Hw].
      * right. split; [reflexivity | now apply idx_upd_eq].
      * left. now rewrite upd_outside.
    + destruct (decide (w = w')) as [<-|Hw]; [|left; now rewrite idx_upd_ne].
      destruct (decide (0 <= w < vsize (weekEndPatterns (idx ms m emptyMachine)))) as [Hw|Hw].
      * right. split; [reflexivity | now apply idx_upd_eq].
      * left. now rewrite upd_outside.
  - left. destruct s as [ms sc nv nd].
    destruct side; unfold slotValue, write, setWeekDay, setWeekEnd, withMachines;
      cbn [machines]; now rewrite idx_upd_ne.
Qed.

Lemma slotValue_writes (f : slot -> Z) ws : forall s y,
  Forall (fun w => snd w = f (fst w)) ws ->
  slotValue (writes ws s) y = slotValue s y \/ slotValue (writes ws s) y = f y.
Proof.
  unfold writes. induction ws as [|[x v] ws IH]; intros s y H; cbn [fold_left]; [now left|].
  apply List.Forall_cons_iff in H as [Hx H]. cbn [fst snd] in *.
  destruct (IH (write x v s) y H) as [E|E]; [|now right].
  rewrite E. destruct (slotValue_write x v s y) as [E'|[<- E']]; [now left|].
  right. now rewrite E'.
Qed.

Lemma lowers_reducePart side state i j : lowers state (Solver.reducePart side state i j).
Proof. unfold lowers. rewrite reducePart_to, reducePart_slot. reflexivity. Qed.

Lemma lowers_map_reducePart side state i l :
  Forall (lowers state) (map (Solver.reducePart side state i) l).
Proof. apply List.Forall_map, List.Forall_forall. intros; apply lowers_reducePart. Qed.

Lemma lowers_reduceGlobalPartsOf sv state i :
  Forall (lowers state) (Solver.reduceGlobalPartsOf sv state i).
Proof.
  unfold Solver.reduceGlobalPartsOf. destruct Solver.getLastOperatingWeeks as [lwd lwe].
  induction (seqZ 0 _) as [|j l IH]; cbn [flat_map]; [constructor|].
  cbn [app]. repeat (constructor; [apply lowers_reducePart|]). exact IH.
Qed.

Lemma lowers_createSplitScan side state i dl n : forall j loadSum parts newPatterns,
  Forall (lowers state) parts ->
  Forall (lowers state)
         (fst (Solver.createSplitScan side state i dl j n loadSum parts newPatterns)).
Proof.
  induction n as [|n IH]; intros j loadSum parts np H; cbn [Solver.createSplitScan]; [exact H|].
  destruct (fgt _ _); [exact H|].
  apply IH, List.Forall_app. split; [exact H|]. constructor; [apply lowers_reducePart|constructor].
Qed.

Lemma lowers_machineMoves sv state i o :
  In o (fst (Solver.machineMoves sv state i)) ->
  Forall (lowers state) (Optimization.parts o).
Proof.
  unfold Solver.machineMoves, Solver.reduceGlobalMoves, Solver.splitMoves.
  destruct (Solver.getLastOperatingWeeks sv (idx (machines state) i emptyMachine))
    as [lwd lwe] eqn:Hlast.
  cbn [fst snd]. rewrite !in_app_iff.
  assert (Himp : forall side nm splits,
             In o (flat_map (Solver.improveSplitMoves side nm state i) splits) ->
             Forall (lowers state) (Optimization.parts o)).
  { intros side nm splits Hin. apply in_flat_map in Hin as (sp & _ & Hin).
    unfold Solver.improveSplitMoves in Hin. destruct Solver.canImproveSplit; [|destruct Hin].
    destruct Hin as [<-|[]]. apply lowers_map_reducePart. }
  assert (Hcre : forall side nm last dl oc,
             In o (Solver.createSplitMoves sv side nm state i last dl oc) ->
             Forall (lowers state) (Optimization.parts o)).
  { intros side nm last dl oc Hin. unfold Solver.createSplitMoves in Hin.
    pose proof (lowers_createSplitScan side state i dl (Z.to_nat (last + 1)) last 0%float []
                  (Solver.patternsOf side (idx (machines state) i emptyMachine))
                  (List.Forall_nil _)) as H.
    destruct Solver.createSplitScan as [parts np]. cbn [fst] in H.
    destruct (_ && _); [|destruct Hin]. destruct Hin as [<-|[]]. exact H. }
  intros [[Hin|[Hin|Hin]]|[Hin|Hin]].
  - destruct (_ && _); [|destruct Hin]. destruct Hin as [<-|[]].
    apply lowers_reduceGlobalPartsOf.
  - destruct (Solver.canReduceGlobalWeekDay _ _); [|destruct Hin]. destruct Hin as [<-|[]].
    apply lowers_map_reducePart.
  - destruct (Solver.canReduceGlobalWeekEnd _ _); [|destruct Hin]. destruct Hin as [<-|[]].
    apply lowers_map_reducePart.
  - destruct (negb (lwd =? -1)); [|destruct Hin].
    apply in_app_iff in Hin as [Hin|Hin]; eauto.
  - destruct (negb (lwe =? -1)); [|destruct Hin].
    apply in_app_iff in Hin as [Hin|Hin]; eauto.
Qed.

Lemma closes_shutdownScan state i n : forall j pa pd pe,
  Forall closes pa -> Forall closes pd -> Forall closes pe ->
  let r := Solver.shutdownScan state i j n pa pd pe in
  Forall closes (fst (fst r)) /\ Forall closes (snd (fst r)) /\ Forall closes (snd r).
Proof.
  induction n as [|n IH]; intros j pa pd pe Ha Hd He; cbn [Solver.shutdownScan]; [now repeat split|].
  destruct (fgt _ _); [now repeat split|].
  apply IH; apply List.Forall_app; (split; [assumption|]);
    repeat (constructor; [reflexivity|]); constructor.
Qed.

Lemma closes_shutdownPartsOf sv state i :
  Forall closes (Solver.shutdownPartsOf sv state i).
Proof.
  unfold Solver.shutdownPartsOf.
  destruct (_ =? 0); [constructor|].
  destruct Solver.getLastOperatingWeeks as [lwd lwe].
  pose proof (closes_shutdownScan state i (Z.to_nat (Z.max lwd lwe + 1)) (Z.max lwd lwe)
                [] [] [] (List.Forall_nil _) (List.Forall_nil _) (List.Forall_nil _)) as H.
  cbv zeta in H. destruct Solver.shutdownScan as [[pa pd] pe]. cbn [fst snd] in H.
  destruct H as (Ha & Hd & He).
  destruct (_ =? 1); [destruct (fgt _ _)|]; assumption.
Qed.

Lemma generated_lowers_or_closes sv state o :
  In o (Solver.generateOptimizations sv state) ->
  Forall (lowers state) (Optimization.parts o)
  \/ (Optimization.name o = "Shutdown" /\ Forall closes (Optimization.parts o)).
Proof.
  rewrite generateOptimizations_eq, !in_app_iff. intros [Hin|[Hin|Hin]].
  - left. apply in_flat_map in Hin as (i & _ & Hin). now apply lowers_machineMoves in Hin.
  - left. unfold fleetMove in Hin. destruct (_ && _); [|destruct Hin]. destruct Hin as [<-|[]].
    cbn [Optimization.parts Optimization.make].
    induction (seqZ 0 (Solver.noMachines sv)) as [|j l IH]; cbn [flat_map]; [constructor|].
    apply List.Forall_app. split; [|exact IH].
    rewrite machineMoves_snd. destruct (_ && _); [apply lowers_reduceGlobalPartsOf | constructor].
  - right. unfold shutdownMove in Hin. destruct (_ =? _); [|destruct Hin]. destruct Hin as [<-|[]].
    split; [reflexivity|].
    cbn [Optimization.parts Optimization.make].
    induction (seqZ 0 (Solver.noMachines sv)) as [|j l IH]; cbn [flat_map]; [constructor|].
    apply List.Forall_app. split; [apply closes_shutdownPartsOf | exact IH].
Qed.

(** X10.  A generated move only steps down: applied to the state it was
    generated from, it leaves every slot of the grid as it was or one below;
    the one exception is Shutdown, which leaves a slot as it was or sets it
    to 1.  None but Shutdown changes a slot by more than one. *)
Theorem generated_move_steps_down
        (sv : Solver.t) (state : State) (o : Optimization.t) :
  In o (Solver.generateOptimizations sv state) ->
  (forall x, slotValue (Optimization.apply o state) x = slotValue state x
             \/ slotValue (Optimization.apply o state) x = slotValue state x - 1)
  \/ (Optimization.name o = "Shutdown"
      /\ forall x, slotValue (Optimization.apply o state) x = slotValue state x
                   \/ slotValue (Optimization.apply o state) x = 1).
Proof.
  intros Hin. rewrite apply_writes.
  destruct (generated_lowers_or_closes sv state o Hin) as [H|[Hn H]].
  - left. intros x. apply (slotValue_writes (fun y => slotValue state y - 1)).
    apply List.Forall_map. exact H.
  - right. split; [exact Hn|]. intros x. apply (slotValue_writes (fun _ => 1)).
    apply List.Forall_map. exact H.
Qed.

(** ** Reading an identity back *)

Lemma string_of_uint_digits (d : Decimal.uint) :
  allDigits (NilEmpty.string_of_uint d) = true.
Proof. induction d; cbn; auto. Qed.

Lemma itos_shape (z : Z) :
  exists d, d <> "" /\ allDigits d = true /\ (itos z = d \/ itos z = String "-" d).
Proof.
  assert (H : forall u, NilZero.string_of_uint u <> ""
                        /\ allDigits (NilZero.string_of_uint u) = true).
  { intros u. unfold NilZero.string_of_uint. destruct u; cbn; split; try discriminate;
      try reflexivity; apply string_of_uint_digits. }
  unfold itos. destruct z as [|p|p]; cbn [Z.to_int NilZero.string_of_int].
  - exists "0". repeat split; [discriminate | now left].
  - exists (NilZero.string_of_uint (Pos.to_uint p)). destruct (H (Pos.to_uint p)). auto.
  - exists (NilZero.string_of_uint (Pos.to_uint p)). destruct (H (Pos.to_uint p)). auto.
Qed.

Lemma digits_span d1 : forall d2 t1 t2,
  allDigits d1 = true -> allDigits d2 = true -> stops t1 -> stops t2 ->
  d1 +:+ t1 = d2 +:+ t2 -> d1 = d2 /\ t1 = t2.
Proof.
  induction d1 as [|c d1 IH]; intros [|c' d2] t1 t2 H1 H2 S1 S2 E;
    cbv beta iota fix delta [String.append] in E; cbn [allDigits] in H1, H2.
  - auto.
  - subst t1. cbn [stops] in S1. apply andb_true_iff in H2 as [H2 _]. congruence.
  - subst t2. cbn [stops] in S2. apply andb_true_iff in H1 as [H1 _]. congruence.
  - injection E as <- E. apply andb_true_iff in H1 as [_ H1]. apply andb_true_iff in H2 as [_ H2].
    destruct (IH d2 t1 t2 H1 H2 S1 S2 E) as [-> ->]. auto.
Qed.

Lemma itos_span (a b : Z) (t1 t2 : string) :
  stops t1 -> stops t2 -> itos a +:+ t1 = itos b +:+ t2 -> a = b /\ t1 = t2.
Proof.
  intros S1 S2 E.
  destruct (itos_shape a) as (da & Na & Da & Ea), (itos_shape b) as (db & Nb & Db & Eb).
  assert (Hhead : forall d t d' t', d <> "" -> allDigits d = true ->
                    String "-" d' +:+ t' = d +:+ t -> False).
  { intros [|c d] t d' t' N D H; [congruence|].
    cbv beta iota fix delta [String.append] in H. injection H as <- _. discriminate. }
  assert (Hit : itos a = itos b /\ t1 = t2).
  { destruct Ea as [Ea|Ea], Eb as [Eb|Eb]; rewrite Ea, Eb in E |- *.
    - destruct (digits_span da db t1 t2 Da Db S1 S2 E) as [-> ->]. auto.
    - exfalso. symmetry in E. exact (Hhead _ _ _ _ Na Da E).
    - exfalso. exact (Hhead _ _ _ _ Nb Db E).
    - cbv beta iota fix delta [String.append] in E. injection E as E.
      destruct (digits_span da db t1 t2 Da Db S1 S2 E) as [-> ->]. auto. }
  destruct Hit as [Hi ->]. split; [now apply itos_inj | reflexivity].
Qed.

Lemma append_assoc (a b c : string) : (a +:+ b) +:+ c = a +:+ (b +:+ c).
Proof.
  induction a as [|x a IH]; cbv beta iota fix delta [String.append]; [reflexivity|].
  f_equal. exact IH.
Qed.

Lemma typeCode_inj (s t : OptimizationPartType) : typeCode s = typeCode t -> s = t.
Proof. destruct s, t; cbn; congruence. Qed.

Lemma partId_span (p q : OptimizationPart.t) (t1 t2 : string) :
  stops t1 -> stops t2 ->
  Optimization.partId p +:+ t1 = Optimization.partId q +:+ t2 ->
  partKey p = partKey q /\ t1 = t2.
Proof.
  intros S1 S2 E. unfold Optimization.partId in E. rewrite !append_assoc in E.
  apply itos_span in E as [Em E]; [|reflexivity..].
  cbv beta iota fix delta [String.append] in E. injection E as E.
  apply itos_span in E as [Ew E]; [|reflexivity..].
  cbv beta iota fix delta [String.append] in E. injection E as E.
  apply itos_span in E as [Et E]; [|reflexivity..].
  cbv beta iota fix delta [String.append] in E. injection E as E.
  apply itos_span in E as [Ef E]; [|reflexivity..].
  cbv beta iota fix delta [String.append] in E. injection E as E.
  apply itos_span in E as [Eto E]; [|assumption..].
  apply typeCode_inj in Et. unfold partKey. split; congruence.
Qed.

Lemma append_nil_r (a : string) : a +:+ "" = a.
Proof.
  induction a as [|x a IH]; cbv beta iota fix delta [String.append]; [reflexivity|].
  f_equal. exact IH.
Qed.

Lemma idStream_cons p rest :
  Optimization.idStream (p :: rest) = Optimization.partId p +:+ idTail rest.
Proof.
  destruct rest as [|q rest]; cbn [Optimization.idStream idTail];
    [now rewrite append_nil_r | reflexivity].
Qed.

Lemma stops_idTail rest : stops (idTail rest).
Proof. destruct rest; cbn; [exact I | reflexivity]. Qed.

Lemma partId_nonempty p : Optimization.partId p <> "".
Proof.
  unfold Optimization.partId. destruct (itos_head (OptimizationPart.machine p)) as (c & r & E & _).
  rewrite E. discriminate.
Qed.

Lemma idStream_nonempty p rest : Optimization.idStream (p :: rest) <> "".
Proof.
  rewrite idStream_cons. intros E.
  destruct (Optimization.partId p) eqn:Ep; [exact (partId_nonempty p Ep) | discriminate E].
Qed.

Lemma idStream_inj ps : forall qs,
  Optimization.idStream ps = Optimization.idStream qs -> map partKey ps = map partKey qs.
Proof.
  induction ps as [|p ps IH]; intros [|q qs] E.
  - reflexivity.
  - symmetry in E. now apply idStream_nonempty in E.
  - now apply idStream_nonempty in E.
  - rewrite !idStream_cons in E.
    apply partId_span in E as [Ek Et]; [|apply stops_idTail..].
    cbn [map]. rewrite Ek. f_equal. apply IH.
    destruct ps as [|p' ps], qs as [|q' qs]; cbn [idTail] in Et; try reflexivity;
      try discriminate Et.
    cbv beta iota fix delta [String.append] in Et. now injection Et.
Qed.

Lemma writes_of_key (ps qs : list OptimizationPart.t) :
  map partKey ps = map partKey qs ->
  map (fun p => (slotOf p, OptimizationPart.to p)) ps
  = map (fun p => (slotOf p, OptimizationPart.to p)) qs
  /\ map (fun p => (slotOf p, OptimizationPart.from p)) ps
     = map (fun p => (slotOf p, OptimizationPart.from p)) qs.
Proof.
  revert qs. induction ps as [|p ps IH]; intros [|q qs] E; cbn [map] in *;
    try discriminate; [auto|].
  injection E as Em Ew Et Ef Eto Er. destruct (IH qs Er) as [-> ->].
  unfold slotOf. rewrite Em, Ew, Et, Ef, Eto. auto.
Qed.

(** X4.  The identity of a move determines what the move does: two moves
    built by the constructor with the same identity, whatever their names,
    have parts with the same machine, week, side, [from] and [to] in the
    same order, and so apply and undo alike on every state.  Blacklisting an
    identity therefore never bans a move with a different effect. *)
Theorem same_identity_same_effect
        (name name' : string) (parts parts' : list OptimizationPart.t) :
  Optimization.id (Optimization.make name parts)
  = Optimization.id (Optimization.make name' parts') ->
  map partKey parts = map partKey parts'
  /\ forall s,
       Optimization.apply (Optimization.make name parts) s
       = Optimization.apply (Optimization.make name' parts') s
       /\ Optimization.undo (Optimization.make name parts) s
          = Optimization.undo (Optimization.make name' parts') s.
Proof.
  cbn [Optimization.id Optimization.make]. intros E. apply idStream_inj in E.
  split; [exact E|]. intros s. rewrite !apply_writes, !undo_writes.
  cbn [Optimization.parts Optimization.make].
  destruct (writes_of_key _ _ E) as [-> ->]. auto.
Qed.

(** ** The weekend and the combined reduction of one machine *)

Lemma named_machine_RGWE sv state i j :
  named ("ReduceGlobalWeekEnd" +:+ itos i) (fst (Solver.machineMoves sv state j))
  = if decide (j = i) then
      if Solver.canReduceGlobalWeekEnd sv (idx (machines state) i emptyMachine)
      then [Optimization.make ("ReduceGlobalWeekEnd" +:+ itos i)
              (map (Solver.reducePart WEEK_END state i)
                   (seqZ 0 (snd (Solver.getLastOperatingWeeks sv (idx (machines state) i emptyMachine)) + 1)))]
      else []
    else [].
Proof.
  unfold Solver.machineMoves, Solver.reduceGlobalMoves, Solver.splitMoves.
  destruct (Solver.getLastOperatingWeeks sv (idx (machines state) j emptyMachine))
    as [lwd lwe] eqn:Hlast.
  cbn [fst snd].
  rewrite !named_app, !named_if, !named_app.
  rewrite !named_improve, !named_create by names_differ.
  rewrite (named_make_ne _ ("ReduceGlobal" +:+ itos j)) by names_differ.
  rewrite (named_make_ne _ ("ReduceGlobalWeekDay" +:+ itos j)) by names_differ.
  destruct (decide (j = i)) as [->|Hne].
  - rewrite named_make_eq, Hlast. cbn [snd].
    destruct (_ && _), (Solver.canReduceGlobalWeekDay _ _), (Solver.canReduceGlobalWeekEnd _ _),
      (negb (lwd =? -1)), (negb (lwe =? -1)); reflexivity.
  - rewrite named_make_ne by names_differ.
    destruct (_ && _), (Solver.canReduceGlobalWeekDay _ _), (Solver.canReduceGlobalWeekEnd _ _),
      (negb (lwd =? -1)), (negb (lwe =? -1)); reflexivity.
Qed.

Lemma named_RGWE sv state i :
  0 <= i < Solver.noMachines sv ->
  named ("ReduceGlobalWeekEnd" +:+ itos i) (Solver.generateOptimizations sv state)
  = if Solver.canReduceGlobalWeekEnd sv (idx (machines state) i emptyMachine)
    then [Optimization.make ("ReduceGlobalWeekEnd" +:+ itos i)
            (map (Solver.reducePart WEEK_END state i)
                 (seqZ 0 (snd (Solver.getLastOperatingWeeks sv (idx (machines state) i emptyMachine)) + 1)))]
    else [].
Proof.
  intros Hi. rewrite generateOptimizations_eq, !named_app, named_flat_map.
  rewrite named_fleet_ne, named_shutdown_ne by names_differ.
  rewrite !app_nil_r.
  rewrite (flat_map_single _
             (fun j => named ("ReduceGlobalWeekEnd" +:+ itos i)
                             (fst (Solver.machineMoves sv state j))) i _ Hi).
  - rewrite named_machine_RGWE. now destruct (decide (i = i)).
  - intros j _ Hj. rewrite named_machine_RGWE. now destruct (decide (j = i)).
  - reflexivity.
Qed.

Lemma generated_named_iff sv state nm (b : bool) (o0 : Optimization.t) :
  named nm (Solver.generateOptimizations sv state) = (if b then [o0] else []) ->
  Optimization.name o0 = nm ->
  (exists o, In o (Solver.generateOptimizations sv state) /\ Optimization.name o = nm)
  <-> b = true.
Proof.
  intros Hn H0. split.
  - intros (o & Hin & Hname).
    assert (H : In o (named nm (Solver.generateOptimizations sv state)))
      by (apply named_In; tauto).
    rewrite Hn in H. destruct b; [reflexivity | destruct H].
  - intros ->. exists o0. apply named_In. rewrite Hn. now left.
Qed.

(** X5.  For a machine [i] of the fleet, a move named
    ReduceGlobalWeekEnd<i> is generated if and only if the last operating
    weekend week is not -1, the weekend pattern is the same over weeks
    0..last, and, when the number of interactions is not 300, the sum of the
    loads of weeks 1..last divided by last + 1 is not above 0.75.  The move
    then lowers the weekend pattern of every week 0..last by one. *)
Theorem reduceGlobalWeekEnd_generated_iff (sv : Solver.t) (state : State) (i : Z) :
  0 <= i < Solver.noMachines sv ->
  let machine := idx (machines state) i emptyMachine in
  let last := snd (Solver.getLastOperatingWeeks sv machine) in
  ((exists o, In o (Solver.generateOptimizations sv state)
              /\ Optimization.name o = "ReduceGlobalWeekEnd" +:+ itos i)
   <-> last <> -1
       /\ (forall j, 0 <= j <= last ->
                     idx (weekEndPatterns machine) j 0 = idx (weekEndPatterns machine) 0 0)
       /\ (Solver.noInteractions sv <> 300 ->
           fgt (loadSumFrom (loads machine) 1 last / Z2double (last + 1))%float
               0.75%float = false))
  /\ forall o, In o (Solver.generateOptimizations sv state) ->
               Optimization.name o = "ReduceGlobalWeekEnd" +:+ itos i ->
               Optimization.parts o
               = map (Solver.reducePart WEEK_END state i) (seqZ 0 (last + 1)).
Proof.
  intros Hi machine last. split.
  - rewrite <- (canReduceGlobal_weekend sv (weekEndPatterns machine) (loads machine) last)
      by apply getLastOperatingWeeks_lower.
    change (Solver.canReduceGlobal sv (weekEndPatterns machine) (loads machine) 1 last)
      with (Solver.canReduceGlobalWeekEnd sv machine).
    eapply generated_named_iff; [apply (named_RGWE sv state i Hi) | reflexivity].
  - intros o Hin Hname.
    assert (H : In o (named ("ReduceGlobalWeekEnd" +:+ itos i)
                            (Solver.generateOptimizations sv state)))
      by (apply named_In; tauto).
    rewrite named_RGWE in H by exact Hi.
    destruct (Solver.canReduceGlobalWeekEnd _ _); [|destruct H].
    destruct H as [<-|[]]. reflexivity.
Qed.

(** X14.  The combined reduction of a machine needs both sides: for a
    machine [i] of the fleet, ReduceGlobal<i> is generated exactly when both
    ReduceGlobalWeekDay<i> and ReduceGlobalWeekEnd<i> are, and its parts are
    the weekday and weekend reductions of the weeks up to the earlier of the
    two last operating weeks, week by week. *)
Theorem reduceGlobal_of_machine_needs_both_sides (sv : Solver.t) (state : State) (i : Z) :
  0 <= i < Solver.noMachines sv ->
  let generated nm :=
    exists o, In o (Solver.generateOptimizations sv state) /\ Optimization.name o = nm in
  let machine := idx (machines state) i emptyMachine in
  (generated ("ReduceGlobal" +:+ itos i)
   <-> generated ("ReduceGlobalWeekDay" +:+ itos i)
       /\ generated ("ReduceGlobalWeekEnd" +:+ itos i))
  /\ forall o, In o (Solver.generateOptimizations sv state) ->
               Optimization.name o = "ReduceGlobal" +:+ itos i ->
               Optimization.parts o
               = flat_map (fun j => [Solver.reducePart WEEK_DAY state i j;
                                     Solver.reducePart WEEK_END state i j])
                   (seqZ 0 (Z.min (fst (Solver.getLastOperatingWeeks sv machine))
                                  (snd (Solver.getLastOperatingWeeks sv machine)) + 1)).
Proof.
  intros Hi generated machine. split.
  - unfold generated.
    rewrite (generated_named_iff sv state _ _ _ (named_RG sv state i Hi) eq_refl).
    rewrite (generated_named_iff sv state _ _ _ (named_RGWD sv state i Hi) eq_refl).
    rewrite (generated_named_iff sv state _ _ _ (named_RGWE sv state i Hi) eq_refl).
    apply andb_true_iff.
  - intros o Hin Hname.
    assert (H : In o (named ("ReduceGlobal" +:+ itos i)
                            (Solver.generateOptimizations sv state)))
      by (apply named_In; tauto).
    rewrite named_RG in H by exact Hi.
    destruct (_ && _); [|destruct H].
    destruct H as [<-|[]]. cbn [Optimization.parts Optimization.make].
    unfold Solver.reduceGlobalPartsOf. fold machine.
    now destruct (Solver.getLastOperatingWeeks sv machine).
Qed.

(** ** Shutdown *)

Lemma shutdownScan_spec state i top n : forall j pa pd pe,
  Z.of_nat n <= j + 1 -> j <= top ->
  (forall w, j < w <= top ->
             fgt (idx (loads (idx (machines state) i emptyMachine)) w 0%float) 0%float = false) ->
  Forall (closesIdle state i top) pa ->
  Forall (closesIdle state i top) pd -> ofSide WEEK_DAY pd ->
  Forall (closesIdle state i top) pe -> ofSide WEEK_END pe ->
  let r := Solver.shutdownScan state i j n pa pd pe in
  Forall (closesIdle state i top) (fst (fst r))
  /\ (Forall (closesIdle state i top) (snd (fst r)) /\ ofSide WEEK_DAY (snd (fst r)))
  /\ (Forall (closesIdle state i top) (snd r) /\ ofSide WEEK_END (snd r)).
Proof.
  induction n as [|n IH]; intros j pa pd pe Hn Hj Hidle Ha Hd Sd He Se;
    cbn [Solver.shutdownScan]; [now repeat split|].
  destruct (fgt _ _) eqn:G; [now repeat split|].
  assert (Hidle' : forall w, j - 1 < w <= top ->
             fgt (idx (loads (idx (machines state) i emptyMachine)) w 0%float) 0%float = false).
  { intros w Hw. destruct (decide (w = j)) as [->|]; [exact G | apply Hidle; lia]. }
  assert (Hwd : closesIdle state i top (OptimizationPart.weekDay state i j 1)).
  { repeat split; cbn; try lia. intros w Hw. apply Hidle'. lia. }
  assert (Hwe : closesIdle state i top (OptimizationPart.weekEnd state i j 1)).
  { repeat split; cbn; try lia. intros w Hw. apply Hidle'. lia. }
  apply IH; try lia; try exact Hidle'; unfold ofSide;
    apply List.Forall_app; (split; [assumption|]);
    repeat (constructor; [first [exact Hwd | exact Hwe | reflexivity]|]); constructor.
Qed.

Lemma shutdownPartsOf_spec sv state i :
  let machine := idx (machines state) i emptyMachine in
  let top := Z.max (fst (Solver.getLastOperatingWeeks sv machine))
                   (snd (Solver.getLastOperatingWeeks sv machine)) in
  (Solver.getRemainingChanges sv machine = 0 -> Solver.shutdownPartsOf sv state i = [])
  /\ Forall (closesIdle state i top) (Solver.shutdownPartsOf sv state i)
  /\ (Solver.getRemainingChanges sv machine = 1 ->
      ofSide WEEK_DAY (Solver.shutdownPartsOf sv state i)
      \/ ofSide WEEK_END (Solver.shutdownPartsOf sv state i)).
Proof.
  intros machine top. unfold Solver.shutdownPartsOf. fold machine.
  destruct (Z.eqb_spec (Solver.getRemainingChanges sv machine) 0) as [E0|N0].
  { repeat split; [constructor | left; constructor]. }
  pose proof (getLastOperatingWeeks_lower sv machine) as Hlow.
  subst top. destruct (Solver.getLastOperatingWeeks sv machine) as [lwd lwe]. cbn [fst snd] in *.
  pose proof (shutdownScan_spec state i (Z.max lwd lwe) (Z.to_nat (Z.max lwd lwe + 1))
                (Z.max lwd lwe) [] [] []) as H.
  cbv zeta in H. destruct Solver.shutdownScan as [[pa pd] pe]. cbn [fst snd] in H.
  destruct H as (Ha & (Hd & Sd) & (He & Se));
    try solve [constructor]; try lia.
  split; [intros; contradiction|].
  destruct (Z.eqb_spec (Solver.getRemainingChanges sv machine) 1) as [E1|N1].
  - destruct (fgt _ _); (split; [assumption|]); intros _; [now left | now right].
  - split; [assumption | intros; contradiction].
Qed.

(** X15.  Shutdown only closes trailing weeks without load.  Every part
    of the Shutdown move sets its slot to 1, belongs to a machine of the
    fleet whose remaining change budget is not 0, and names a week from
    which every week up to the later of the machine's two last operating
    weeks has a load not above 0.  For a machine whose remaining budget is
    exactly 1, all its parts are on one side. *)
Theorem shutdown_closes_trailing_idle_weeks
        (sv : Solver.t) (state : State) (o : Optimization.t) :
  In o (Solver.generateOptimizations sv state) ->
  Optimization.name o = "Shutdown" ->
  Forall (fun p =>
            let i := OptimizationPart.machine p in
            let machine := idx (machines state) i emptyMachine in
            let top := Z.max (fst (Solver.getLastOperatingWeeks sv machine))
                             (snd (Solver.getLastOperatingWeeks sv machine)) in
            0 <= i < Solver.noMachines sv
            /\ Solver.getRemainingChanges sv machine <> 0
            /\ OptimizationPart.to p = 1
            /\ 0 <= OptimizationPart.week p <= top
            /\ forall w, OptimizationPart.week p <= w <= top ->
                         fgt (idx (loads machine) w 0%float) 0%float = false)
         (Optimization.parts o)
  /\ forall p q, In p (Optimization.parts o) -> In q (Optimization.parts o) ->
                 OptimizationPart.machine p = OptimizationPart.machine q ->
                 Solver.getRemainingChanges sv
                   (idx (machines state) (OptimizationPart.machine p) emptyMachine) = 1 ->
                 OptimizationPart.type p = OptimizationPart.type q.
Proof.
  intros Hin Hname.
  assert (H : In o (named "Shutdown" (Solver.generateOptimizations sv state)))
    by (apply named_In; tauto).
  rewrite named_Shutdown in H. unfold shutdownMove in H.
  destruct (_ =? _); [|destruct H]. destruct H as [<-|[]].
  cbn [Optimization.parts Optimization.make].
  assert (Hpart : forall p, In p (flat_map (Solver.shutdownPartsOf sv state)
                                           (seqZ 0 (Solver.noMachines sv))) ->
            0 <= OptimizationPart.machine p < Solver.noMachines sv
            /\ In p (Solver.shutdownPartsOf sv state (OptimizationPart.machine p))).
  { intros p Hp. apply in_flat_map in Hp as (i & Hi & Hp).
    apply list_elem_of_In, elem_of_seqZ in Hi.
    destruct (shutdownPartsOf_spec sv state i) as (_ & Hall & _).
    rewrite List.Forall_forall in Hall. destruct (Hall p Hp) as (Em & _).
    rewrite Em. split; [lia | exact Hp]. }
  split.
  - apply List.Forall_forall. intros p Hp. cbv zeta.
    destruct (Hpart p Hp) as [Hi Hp'].
    destruct (shutdownPartsOf_spec sv state (OptimizationPart.machine p)) as (Hz & Hall & _).
    rewrite List.Forall_forall in Hall. destruct (Hall p Hp') as (_ & Hto & Hw & Hidle).
    repeat split; try assumption; try lia.
    intros E. rewrite (Hz E) in Hp'. destruct Hp'.
  - intros p q Hp Hq Em E1.
    destruct (Hpart p Hp) as [_ Hp'], (Hpart q Hq) as [_ Hq']. rewrite <- Em in Hq'.
    destruct (shutdownPartsOf_spec sv state (OptimizationPart.machine p)) as (_ & _ & Hside).
    destruct (Hside E1) as [S|S]; unfold ofSide in S; rewrite List.Forall_forall in S;
      now rewrite (S p Hp'), (S q Hq').
Qed.

(** ** No pattern code above 9 *)

Lemma mainLoop_invariant (P : Solver.t -> Prop) :
  (forall sv i fb, P sv -> P (readFeedback sv i fb)) ->
  (forall sv i, 0 <= i < vsize (Solver.states sv) -> P sv -> P (pushNextState sv i)) ->
  (forall sv, P sv -> P (Solver.refine sv)) ->
  forall fbs solver i,
    0 <= i -> vsize (Solver.states solver) = i + 1 ->
    P solver -> P (mainLoop solver i fbs).
Proof.
  intros Hread Hpush Hrefine.
  induction fbs as [|fb fbs IH]; intros solver i Hi Hs H; cbn [mainLoop]; [exact H|].
  destruct (_ <? _); [|exact H].
  destruct (Z.eqb_spec i (Solver.noInteractions solver - 1)) as [E|Hne].
  - rewrite interaction_last by exact E. now apply Hread.
  - apply IH; [lia | rewrite interaction_size by exact Hne; lia |].
    rewrite interaction_middle by exact Hne.
    apply Hrefine, Hpush; [rewrite readFeedback_size; lia|].
    now apply Hread.
Qed.

Lemma capped_pwrite x v ps : v <= 9 -> capped ps -> capped (pwrite x v ps).
Proof.
  destruct x as [[m w] side]. intros Hv Hall. unfold pwrite, capped.
  apply Forall_upd; [exact Hall|].
  assert (Hp : Forall (fun v => v <= 9) (fst (idx ps m ([], [])))
               /\ Forall (fun v => v <= 9) (snd (idx ps m ([], [])))).
  { apply (Forall_idx (fun p => Forall (fun v => v <= 9) (fst p)
                                /\ Forall (fun v => v <= 9) (snd p))); [exact Hall|].
    split; constructor. }
  destruct Hp as [Hd He].
  destruct side; cbn [fst snd]; split; try assumption; now apply Forall_upd.
Qed.

Lemma capped_pwrites ws : forall ps,
  Forall (fun w => snd w <= 9) ws -> capped ps -> capped (pwrites ws ps).
Proof.
  unfold pwrites. induction ws as [|w ws IH]; intros ps Hws H; cbn [fold_left]; [exact H|].
  apply List.Forall_cons_iff in Hws as [Hw Hws]. now apply IH, capped_pwrite.
Qed.

Lemma cappedState_slotValue s x : cappedState s -> slotValue s x <= 9.
Proof.
  destruct x as [[m w] side]. unfold cappedState, capped, patternsOfState, slotValue.
  rewrite List.Forall_map. intros H.
  assert (Hm : Forall (fun v => v <= 9) (weekDayPatterns (idx (machines s) m emptyMachine))
               /\ Forall (fun v => v <= 9) (weekEndPatterns (idx (machines s) m emptyMachine))).
  { apply (Forall_idx (fun machine => Forall (fun v => v <= 9) (weekDayPatterns machine)
                                      /\ Forall (fun v => v <= 9) (weekEndPatterns machine)));
      [exact H | split; constructor]. }
  destruct side; cbn [Solver.patternsOf]; apply (Forall_idx (fun v => v <= 9)); tauto || lia.
Qed.

Lemma cappedState_empty : cappedState emptyState.
Proof. constructor. Qed.

Lemma cappedState_current sv :
  Forall cappedState (Solver.states sv) -> cappedState (Solver.currentState sv).
Proof. intros H. apply (Forall_idx cappedState); [exact H | exact cappedState_empty]. Qed.

Lemma revert_capped sv : cappedSolver sv -> cappedSolver (Solver.revert sv).
Proof.
  intros [Hs Hp]. unfold cappedSolver, Solver.revert.
  destruct (Solver.previousOptimization sv) as [o|] eqn:Eo; [|split; [exact Hs | exact I]].
  destruct (_ || _); cbn [Solver.states Solver.previousOptimization]; rewrite ?Eo;
    [|split; assumption].
  split; [|exact Hp]. unfold Solver.currentState.
  apply (Forall_upd_idx _ (Optimization.undo o)); [exact Hs|].
  intros s H. unfold cappedState. rewrite patterns_undo.
  apply capped_pwrites; [|exact H]. apply List.Forall_map. exact Hp.
Qed.

Lemma generated_capped sv state o :
  cappedState state ->
  In o (Solver.generateOptimizations sv state) ->
  Forall (fun p => OptimizationPart.from p <= 9 /\ OptimizationPart.to p <= 9)
         (Optimization.parts o).
Proof.
  intros Hc Hin.
  pose proof (builtOn_generated sv state o Hin) as Hb.
  assert (Hto : Forall (fun p => OptimizationPart.to p <= 9) (Optimization.parts o)).
  { destruct (generated_lowers_or_closes sv state o Hin) as [H|[_ H]];
      eapply List.Forall_impl; try exact H; intros p Hp; cbv beta in *.
    - unfold lowers in Hp. rewrite Hp.
      pose proof (cappedState_slotValue state (slotOf p) Hc). lia.
    - unfold closes in Hp. lia. }
  rewrite List.Forall_forall in *. intros p Hp. split; [|now apply Hto].
  rewrite (builtOn_from state p (Hb p Hp)). now apply cappedState_slotValue.
Qed.

Lemma tryBest_capped sv :
  Forall cappedState (Solver.states sv) -> cappedSolver (Solver.tryBest sv).
Proof.
  intros Hs. unfold cappedSolver, Solver.tryBest.
  cbn [Solver.states Solver.previousOptimization].
  pose proof (selectBest_inv (Solver.badOptimizations sv)
                (Solver.generateOptimizations sv (Solver.currentState sv))) as [_ Hinv].
  destruct (fst _) as [o|]; [|split; [exact Hs | exact I]].
  destruct Hinv as (Hin & _).
  pose proof (generated_capped sv _ o (cappedState_current sv Hs) Hin) as Hparts.
  split.
  - apply Forall_upd; [exact Hs|]. unfold cappedState. rewrite patterns_apply.
    apply capped_pwrites; [|apply (cappedState_current sv Hs)].
    apply List.Forall_map. eapply List.Forall_impl; [|exact Hparts]. cbv beta. tauto.
  - eapply List.Forall_impl; [|exact Hparts]. cbv beta. tauto.
Qed.

Lemma refine_capped sv : cappedSolver sv -> cappedSolver (Solver.refine sv).
Proof. intros H. apply tryBest_capped, (revert_capped sv H). Qed.

Lemma readFeedback_capped sv i fb : cappedSolver sv -> cappedSolver (readFeedback sv i fb).
Proof.
  intros [Hs Hp]. split; [|exact Hp].
  unfold readFeedback. cbn [Solver.states Solver.withStates].
  apply (Forall_upd_idx _
           (fun st => mkState
                        (fold_left
                           (fun ms j => upd ms j (readMachine (Solver.noWeeks sv)
                                                    (idx ms j emptyMachine)
                                                    (idx (fbMachines fb) j [])))
                           (seqZ 0 (Solver.noMachines sv)) (machines st))
                        (fbScore fb) (fbNoViolations fb) (fbNoDelays fb)));
    [exact Hs|].
  intros x. unfold cappedState, patternsOfState at 2. cbn [machines].
  now rewrite readFeedback_machines_patterns.
Qed.

Lemma pushNextState_capped sv i : cappedSolver sv -> cappedSolver (pushNextState sv i).
Proof.
  intros [Hs Hp]. split; [|exact Hp].
  unfold pushNextState. cbn [Solver.states Solver.withStates].
  apply List.Forall_app. split; [exact Hs|]. constructor; [|constructor].
  apply (Forall_idx cappedState); [exact Hs | exact cappedState_empty].
Qed.

Lemma initialSolver_capped W M C N costs : cappedSolver (initialSolver W M C N costs).
Proof.
  split; [|exact I]. rewrite initialSolver_states. constructor; [|constructor].
  pose proof (initialSolver_patterns W M C N costs) as Hp.
  unfold patternsAt in Hp. rewrite initialSolver_states in Hp.
  change (idx [?x] 0 emptyState) with x in Hp.
  unfold cappedState. rewrite Hp. unfold capped.
  apply List.Forall_forall. intros p Hin. apply repeat_spec in Hin. subst p.
  cbn [fst snd]. split; apply List.Forall_forall; intros v Hv;
    apply repeat_spec in Hv; lia.
Qed.

Lemma Forall_combine {A B} (P : A -> Prop) (Q : B -> Prop) (l : list A) : forall l',
  Forall P l -> Forall Q l' -> Forall (fun p => P (fst p) /\ Q (snd p)) (combine l l').
Proof.
  induction l as [|a l IH]; intros [|b l'] Hl Hl'; cbn [combine]; try constructor.
  - apply List.Forall_cons_iff in Hl as [Ha _], Hl' as [Hb _]. cbn. tauto.
  - apply List.Forall_cons_iff in Hl as [_ Hl], Hl' as [_ Hl']. now apply IH.
Qed.

(** X18.  No grid ever holds a pattern code above 9: in every state of a
    run, whatever the unit costs and the feedback, every weekday and weekend
    code is at most 9. *)
Theorem patterns_never_exceed_nine
        (W M C N : Z) (costs : Costs) (fbs : list Feedback) (k : Z) :
  Forall (Forall (fun p => fst p <= 9 /\ snd p <= 9))
         (grid (runMain W M C N costs fbs) k).
Proof.
  assert (H : cappedSolver (runMain W M C N costs fbs)).
  { unfold runMain. apply (mainLoop_invariant cappedSolver).
    - intros sv i fb. apply readFeedback_capped.
    - intros sv i _. apply pushNextState_capped.
    - apply refine_capped.
    - lia.
    - apply initialSolver_size.
    - apply initialSolver_capped. }
  destruct H as [Hs _].
  assert (Hk : cappedState (idx (Solver.states (runMain W M C N costs fbs)) k emptyState))
    by (apply (Forall_idx cappedState); [exact Hs | exact cappedState_empty]).
  unfold grid. unfold cappedState, capped, patternsOfState in Hk.
  rewrite List.Forall_map in Hk |- *.
  eapply List.Forall_impl; [|exact Hk]. cbv beta. intros machine [Hd He]. cbn [fst snd] in *.
  exact (Forall_combine (fun v => v <= 9) (fun v => v <= 9) _ _ Hd He).
Qed.

(** ** CreateSplit lowers a trailing stretch *)

Lemma trailingLoad_step loads last k :
  0 <= k ->
  trailingLoad loads last k
  = (trailingLoad loads last (k - 1) + idx loads (last - k) 0%float)%float.
Proof.
  intros Hk. unfold trailingLoad.
  replace (k + 1) with ((k - 1 + 1) + 1) at 1 by lia.
  rewrite seqZ_snoc by lia. rewrite map_app, fold_left_app. cbn [map fold_left].
  now replace (0 + (k - 1 + 1)) with k by lia.
Qed.

Lemma createSplitScan_parts side state i dl last n : forall k0 loadSum parts newPatterns,
  0 <= k0 ->
  loadSum = trailingLoad (loads (idx (machines state) i emptyMachine)) last (k0 - 1) ->
  exists m,
    k0 <= m <= k0 + Z.of_nat n
    /\ fst (Solver.createSplitScan side state i dl (last - k0) n loadSum parts newPatterns)
       = parts ++ map (fun k => Solver.reducePart side state i (last - k)) (seqZ k0 (m - k0))
    /\ (forall k, k0 <= k < m ->
                  splitStops (loads (idx (machines state) i emptyMachine)) last dl k = false)
    /\ (m < k0 + Z.of_nat n ->
        splitStops (loads (idx (machines state) i emptyMachine)) last dl m = true).
Proof.
  induction n as [|n IH]; intros k0 loadSum parts np Hk0 Hsum; cbn [Solver.createSplitScan].
  - exists k0. rewrite Z.sub_diag. cbn [fst]. rewrite app_nil_r.
    repeat split; intros; lia.
  - cbv zeta.
    assert (Hs : (loadSum + idx (loads (idx (machines state) i emptyMachine)) (last - k0) 0%float)%float
                 = trailingLoad (loads (idx (machines state) i emptyMachine)) last k0)
      by (rewrite trailingLoad_step by lia; now rewrite Hsum).
    rewrite Hs.
    fold (splitStops (loads (idx (machines state) i emptyMachine)) last dl k0).
    destruct (splitStops _ last dl k0) eqn:G.
    + exists k0. rewrite Z.sub_diag. cbn [fst]. rewrite app_nil_r.
      repeat split; intros; first [lia | exact G].
    + replace (last - k0 - 1) with (last - (k0 + 1)) by lia.
      destruct (IH (k0 + 1)
                   (trailingLoad (loads (idx (machines state) i emptyMachine)) last k0)
                   (parts ++ [Solver.reducePart side state i (last - k0)])
                   (upd np (last - k0) (idx np (last - k0) 0 - 1)))
        as (m & Hm & Hparts & Hlow & Hstop); [lia | now replace (k0 + 1 - 1) with k0 by lia |].
      exists m. split; [lia|]. split; [|split].
      * rewrite Hparts, <- app_assoc. f_equal. cbn [app].
        replace (m - k0) with (Z.succ (m - (k0 + 1))) by lia.
        rewrite (seqZ_cons k0) by lia. cbn [map].
        replace (Z.pred (Z.succ (m - (k0 + 1)))) with (m - (k0 + 1)) by lia.
        replace (Z.succ k0) with (k0 + 1) by lia. reflexivity.
      * intros k Hk. destruct (decide (k = k0)) as [->|]; [exact G | apply Hlow; lia].
      * intros Hlt. apply Hstop. lia.
Qed.

(** X16.  CreateSplit lowers a trailing stretch of the operating
    prefix: a move named CreateSplit<Side><i> for a machine [i] of the fleet
    lowers by one the weeks [last], [last - 1], ..., [last - m + 1] of that
    side, in this order, for some [1 <= m <= last + 1], where [last] is the
    side's last operating week.  For each of these weeks the running mean of
    the loads from [last] down was not above 0.4, and the stretch ends at
    week 0 or at the first week where that mean is above 0.4.  On both sides
    the divisor of the mean is counted from the last operating weekday week. *)
Theorem createSplit_lowers_a_trailing_stretch
        (sv : Solver.t) (state : State) (side : OptimizationPartType) (i : Z)
        (o : Optimization.t) :
  0 <= i < Solver.noMachines sv ->
  In o (Solver.generateOptimizations sv state) ->
  Optimization.name o = createName side +:+ itos i ->
  let machine := idx (machines state) i emptyMachine in
  let last := lastOperating sv side machine in
  let divisorLast := fst (Solver.getLastOperatingWeeks sv machine) in
  exists m,
    1 <= m <= last + 1
    /\ Optimization.parts o = map (Solver.reducePart side state i) (trailingWeeks last m)
    /\ (forall k, 0 <= k < m -> splitStops (loads machine) last divisorLast k = false)
    /\ (m < last + 1 -> splitStops (loads machine) last divisorLast m = true).
Proof.
  intros Hi Hin Hname machine last divisorLast.
  assert (Hn : In o (named (createName side +:+ itos i) (Solver.generateOptimizations sv state)))
    by (apply named_In; tauto).
  rewrite named_createSplit in Hn by exact Hi.
  unfold createSplitsOf in Hn. fold machine last divisorLast in Hn.
  assert (Hlow : -1 <= last).
  { pose proof (getLastOperatingWeeks_lower sv machine). unfold last, lastOperating.
    destruct side; tauto. }
  destruct (Z.eqb_spec last (-1)) as [|Hne]; [destruct Hn|].
  unfold Solver.createSplitMoves in Hn. fold machine in Hn.
  destruct (createSplitScan_parts side state i divisorLast last (Z.to_nat (last + 1)) 0 0%float []
              (Solver.patternsOf side machine))
    as (m & Hm & Hparts & Hbelow & Hstop); [lia | reflexivity |].
  fold machine in Hbelow, Hstop.
  rewrite Z.sub_0_r in Hparts.
  destruct Solver.createSplitScan as [parts newPatterns]. cbn [fst app] in Hparts.
  destruct parts as [|p parts]; [destruct Hn|].
  destruct (0 <=? _); cbn [negb andb] in Hn; [|destruct Hn].
  destruct Hn as [<-|[]]. cbn [Optimization.parts Optimization.make].
  exists m. rewrite ?Z.sub_0_r in Hparts.
  assert (Hm1 : 1 <= m).
  { destruct (Z.le_gt_cases 1 m) as [|Hlt]; [assumption|].
    rewrite (seqZ_nil 0 m) in Hparts by lia. discriminate. }
  split; [lia|]. split; [|split].
  - rewrite Hparts. unfold trailingWeeks. now rewrite map_map.
  - exact Hbelow.
  - intros Hlt. apply Hstop. lia.
Qed.

(** ** The fleet-wide reduction without parts *)

Lemma fleet_parts_nil sv state (l : list Z) :
  (forall i, In i l ->
     Solver.canReduceGlobalWeekDay sv (idx (machines state) i emptyMachine)
     && Solver.canReduceGlobalWeekEnd sv (idx (machines state) i emptyMachine) = false) ->
  flat_map (fun i => snd (Solver.machineMoves sv state i)) l = [].
Proof.
  induction l as [|j l IH]; intros H; cbn [flat_map]; [reflexivity|].
  rewrite machineMoves_snd, (H j) by (cbn; tauto). cbn [app].
  apply IH. intros i Hi. apply H. cbn. tauto.
Qed.

(** X17.  The fleet-wide ReduceGlobal is a candidate even when it has
    nothing to do.  Unless the run has 300 interactions or a ReduceGlobal
    has failed before, the move is generated whether or not any machine
    passes both guards; if none does, it has no parts, the empty identity
    and leaves the state as it is, and since its improvement 0 is above the
    initial threshold -1, [refine] then never ends a round without a
    selected move as long as the empty identity is not blacklisted. *)
Theorem empty_fleet_reduction_is_a_candidate (sv : Solver.t) (state : State) :
  Solver.noInteractions sv <> 300 ->
  Solver.reduceGlobalFailed sv = false ->
  (forall i, 0 <= i < Solver.noMachines sv ->
     Solver.canReduceGlobalWeekDay sv (idx (machines state) i emptyMachine)
     && Solver.canReduceGlobalWeekEnd sv (idx (machines state) i emptyMachine) = false) ->
  let o := Optimization.make "ReduceGlobal" [] in
  In o (Solver.generateOptimizations sv state)
  /\ Optimization.id o = ""
  /\ Optimization.apply o state = state
  /\ ("" ∉ Solver.badOptimizations sv ->
      exists best,
        fst (Solver.selectBest (Solver.badOptimizations sv)
               (Solver.generateOptimizations sv state)) = Some best).
Proof.
  intros HN Hflag Hnone o.
  assert (Hin : In o (Solver.generateOptimizations sv state)).
  { rewrite generateOptimizations_eq, !in_app_iff. right. left.
    unfold fleetMove. rewrite Hflag.
    destruct (Z.eqb_spec (Solver.noInteractions sv) 300); [contradiction|].
    cbn [negb andb]. left. unfold o. f_equal.
    apply fleet_parts_nil. intros i Hi. apply Hnone.
    apply list_elem_of_In, elem_of_seqZ in Hi. lia. }
  repeat split; [exact Hin|].
  intros Hbad.
  destruct (fst (Solver.selectBest _ _)) as [best|] eqn:E; [now exists best|].
  pose proof (selectBest_none_below _ _ E o Hin Hbad) as H.
  vm_compute in H. discriminate H.
Qed.

(** ** Every state keeps its feedback *)

(** A loop over a range of indices whose step rewrites the element at its
    index. *)
Lemma fold_upd_range {A} (g : Z -> A -> A) (d : A) (n : nat) : forall a ms j,
  idx (fold_left (fun ms j => upd ms j (g j (idx ms j d))) (seqZ a (Z.of_nat n)) ms) j d
  = if decide ((a <= j < a + Z.of_nat n) /\ 0 <= j < vsize ms)
    then g j (idx ms j d) else idx ms j d.
Proof.
  induction n as [|n IH]; intros a ms j.
  - cbn [fold_left seqZ]. destruct (decide _) as [[H _]|_]; [lia | reflexivity].
  - rewrite Nat2Z.inj_succ, seqZ_cons by lia. cbn [fold_left].
    replace (Z.pred (Z.succ (Z.of_nat n))) with (Z.of_nat n) by lia.
    rewrite IH, vsize_upd.
    destruct (decide (j = a)) as [->|Hne].
    + destruct (decide _) as [[H _]|_]; [lia|].
      destruct (decide (0 <= a < vsize ms)) as [Hr|Hr].
      * rewrite idx_upd_eq by exact Hr.
        destruct (decide _) as [_|H]; [reflexivity | lia].
      * rewrite upd_outside by exact Hr.
        destruct (decide _) as [H|_]; [lia | reflexivity].
    + rewrite idx_upd_ne by congruence.
      destruct (decide _) as [H|H], (decide _) as [H'|H']; try reflexivity; lia.
Qed.

Lemma readFeedback_records W M sv i fb :
  Solver.noWeeks sv = W -> Solver.noMachines sv = M ->
  0 <= i < vsize (Solver.states sv) ->
  M <= vsize (machines (idx (Solver.states sv) i emptyState)) ->
  records W M fb (idx (Solver.states (readFeedback sv i fb)) i emptyState).
Proof.
  intros HW HM Hi Hms. unfold readFeedback. cbn [Solver.states Solver.withStates].
  rewrite idx_upd_eq by exact Hi. rewrite HW, HM.
  repeat split; cbn [machines];
    destruct (Z.le_gt_cases 0 M) as [H0|H0]; try lia;
    rewrite <- (Z2Nat.id M) at 1 by lia;
    rewrite (fold_upd_range
               (fun j machine => readMachine W machine (idx (fbMachines fb) j []))
               emptyMachine);
    (destruct (decide _) as [_|Hn]; [reflexivity | lia]).
Qed.

Lemma interaction_dimensions sv i fb :
  Solver.noWeeks (interaction sv i fb) = Solver.noWeeks sv
  /\ Solver.noMachines (interaction sv i fb) = Solver.noMachines sv.
Proof.
  unfold interaction. destruct (_ =? _); [split; reflexivity|].
  unfold Solver.refine, Solver.tryBest. cbn [Solver.noWeeks Solver.noMachines].
  unfold Solver.revert.
  destruct (Solver.previousOptimization _); [destruct (_ || _)|]; split; reflexivity.
Qed.

Lemma shapedState_machines W M s : shapedState W M s -> vsize (machines s) = Z.of_nat M.
Proof. intros [H _]. unfold vsize. now rewrite H. Qed.

Lemma mainLoop_records W M fbs : forall solver i k fb,
  Solver.noWeeks solver = W -> Solver.noMachines solver = M ->
  0 <= i -> vsize (Solver.states solver) = i + 1 ->
  Forall (shapedState (Z.to_nat W) (Z.to_nat M)) (Solver.states solver) ->
  i <= k < Solver.noInteractions solver ->
  nth_error fbs (Z.to_nat (k - i)) = Some fb ->
  records W M fb (idx (Solver.states (mainLoop solver i fbs)) k emptyState).
Proof.
  induction fbs as [|fb0 fbs IH]; intros solver i k fb HW HM Hi Hs Hsh Hk Hnth.
  - destruct (Z.to_nat (k - i)); discriminate Hnth.
  - cbn [mainLoop]. destruct (Z.ltb_spec i (Solver.noInteractions solver)); [|lia].
    assert (Hread : records W M fb0
                      (idx (Solver.states (readFeedback solver i fb0)) i emptyState)).
    { apply readFeedback_records; try assumption; [lia|].
      assert (Hsi : shapedState (Z.to_nat W) (Z.to_nat M) (idx (Solver.states solver) i emptyState)).
      { unfold idx, vsize in *. destruct (Z.ltb_spec i 0); [lia|].
        rewrite List.Forall_forall in Hsh. apply Hsh, nth_In. lia. }
      rewrite (shapedState_machines _ _ _ Hsi). lia. }
    destruct (decide (k = i)) as [->|Hne].
    + rewrite Z.sub_diag in Hnth. cbn in Hnth. injection Hnth as <-.
      destruct (Z.eqb_spec i (Solver.noInteractions solver - 1)) as [E|Hl].
      * rewrite interaction_last by exact E. exact Hread.
      * rewrite mainLoop_older by (rewrite ?interaction_size by exact Hl; lia).
        rewrite interaction_older by lia. exact Hread.
    + destruct (Z.eqb_spec i (Solver.noInteractions solver - 1)) as [E|Hl]; [lia|].
      apply IH.
      * now rewrite (proj1 (interaction_dimensions solver i fb0)).
      * now rewrite (proj2 (interaction_dimensions solver i fb0)).
      * lia.
      * rewrite interaction_size by exact Hl. lia.
      * rewrite interaction_middle by exact Hl.
        apply refine_shaped, pushNextState_shaped; [rewrite readFeedback_size; lia|].
        now apply readFeedback_shaped.
      * rewrite interaction_noInteractions. lia.
      * replace (Z.to_nat (k - i)) with (S (Z.to_nat (k - (i + 1)))) in Hnth by lia.
        exact Hnth.
Qed.

(** X19.  Every state keeps the feedback given for its grid: after the
    run, for each feedback block that was read (the [k]-th block, [k] below
    the number of interactions), state [k] holds that block's score,
    violation and delay counts and, for every machine, the loads and delays
    of the first [noWeeks] weeks of the block.  Later rounds work on later
    states and never overwrite it. *)
Theorem states_record_their_feedback
        (W M C N : Z) (costs : Costs) (fbs : list Feedback) (k : Z) (fb : Feedback) :
  0 <= k < N ->
  nth_error fbs (Z.to_nat k) = Some fb ->
  records W M fb (idx (Solver.states (runMain W M C N costs fbs)) k emptyState).
Proof.
  intros Hk Hnth. unfold runMain.
  apply mainLoop_records.
  - reflexivity.
  - reflexivity.
  - lia.
  - apply initialSolver_size.
  - apply initialSolver_shaped.
  - rewrite initialSolver_noInteractions. lia.
  - now rewrite Z.sub_0_r.
Qed.

(** ** Concrete runs *)

(** C1 does not hold as stated.  After a first round that applied
    ReduceGlobal0: with an unchanged score of 100 and 3 delays reported, the
    move is kept and nothing is blacklisted; with a score of 0 throughout
    and no delay, the score is not below [bestScore], yet the move is
    undone and blacklisted. *)
Lemma refine_ignores_delays_and_reverts_on_zero_score :
  (let sv := secondCall 100 100 3 in
   Solver.previousOptimization sv = Some (appliedMove sv)
   /\ Optimization.name (appliedMove sv) = "ReduceGlobal0"
   /\ 0 < noDelays (Solver.currentState sv)
   /\ Solver.states (Solver.revert sv) = Solver.states sv
   /\ Solver.currentState (Solver.revert sv)
      <> Optimization.undo (appliedMove sv) (Solver.currentState sv)
   /\ Solver.badOptimizations (Solver.refine sv) = ∅)
  /\ (let sv := secondCall 0 0 0 in
      Solver.previousOptimization sv = Some (appliedMove sv)
      /\ Optimization.name (appliedMove sv) = "ReduceGlobal0"
      /\ noDelays (Solver.currentState sv) = 0
      /\ ~ score (Solver.currentState sv) < Solver.bestScore (Solver.revert sv)
      /\ grid sv 2 = [[(8, 8); (8, 8)]]
      /\ grid (Solver.revert sv) 2 = [[(9, 9); (9, 9)]]
      /\ Solver.currentState (Solver.revert sv)
         = Optimization.undo (appliedMove sv) (Solver.currentState sv)
      /\ Solver.badOptimizations (Solver.refine sv)
         = {[ Optimization.id (appliedMove sv) ]}).
Proof.
  split; cbv zeta.
  - repeat split; try (vm_compute; reflexivity). vm_compute. discriminate.
  - repeat split; try (vm_compute; reflexivity). vm_compute. discriminate.
Qed.

(** C3 does not hold as stated.  With the same unit cost for every
    pattern code, the first round selects ReduceGlobal0, whose aggregate
    improvement is 0, and applies it: the grid goes from 9s to 8s. *)
Lemma refine_applies_zero_improvement :
  let sv := Solver.refine (firstCall 10 flatCosts 100 0 0 0) in
  exists o, Solver.previousOptimization sv = Some o
            /\ Optimization.name o = "ReduceGlobal0"
            /\ Optimization.costImprovement o = 0%float
            /\ fgt (Optimization.costImprovement o) 0%float = false
            /\ grid sv 0 = [[(9, 9); (9, 9)]]
            /\ grid sv 1 = [[(8, 8); (8, 8)]].
Proof.
  cbv zeta. eexists. split; [vm_compute; reflexivity|].
  repeat split; vm_compute; reflexivity.
Qed.

(** The budget CreateSplit checks is that of one machine.  With a budget
    of one change and two machines, the first round splits the weekend side
    of machine 0 and the second round that of machine 1: after the second
    move is applied the fleet has two changes. *)
Lemma two_machines_exceed_global_budget :
  option_map Optimization.name (Solver.previousOptimization budgetRun)
  = Some "CreateSplitWeekEnd1"
  /\ grid budgetRun 2 = [[(9, 9); (9, 9); (9, 8)]; [(9, 9); (9, 9); (9, 8)]]
  /\ globalChanges budgetRun (Solver.currentState budgetRun) = 2
  /\ Solver.maxChanges budgetRun = 1.
Proof. repeat split; vm_compute; reflexivity. Qed.

(** C5 does not hold as stated.  With weekend patterns 9 9 8 and idle
    loads, one call of the generator emits two ImproveSplitWeekEnd0 moves,
    the first for the first run (weeks 0 and 1), the second for the last
    run (week 2). *)
Lemma two_improveSplit_candidates_for_one_side :
  grid twoRunsCall 2 = [[(9, 9); (9, 9); (9, 8)]]
  /\ ids (named "ImproveSplitWeekEnd0" (candidates twoRunsCall))
     = ["0-0-1-9-8_0-1-1-9-8"; "0-2-1-8-7"]
  /\ ~ (length (named "ImproveSplitWeekEnd0" (candidates twoRunsCall)) <= 1)%nat.
Proof.
  split; [vm_compute; reflexivity|]. split; [vm_compute; reflexivity|].
  replace (length _) with 2%nat by (vm_compute; reflexivity). lia.
Qed.

(** C6 does not hold as stated.  With twenty interactions and a load of
    0.625 in both weeks, ReduceGlobalWeekDay0 is generated although the mean
    load of the operating prefix is above 0.6. *)
Lemma reduceGlobalWeekDay_generated_above_06 :
  let sv := Solver.revert (firstCall 20 risingCosts 100 0 0.625 0.625) in
  let machine := idx (machines (Solver.currentState sv)) 0 emptyMachine in
  (exists o, In o (Solver.generateOptimizations sv (Solver.currentState sv))
             /\ Optimization.name o = "ReduceGlobalWeekDay" +:+ itos 0)
  /\ Solver.noInteractions sv <> 300
  /\ fgt (loadSumFrom (loads machine) 0
                      (fst (Solver.getLastOperatingWeeks sv machine) + 1)
          / Z2double (fst (Solver.getLastOperatingWeeks sv machine) + 1))%float
         0.6%float = true.
Proof.
  cbv zeta. split; [|split].
  - eexists. split.
    + vm_compute. right. left. reflexivity.
    + vm_compute. reflexivity.
  - vm_compute. discriminate.
  - vm_compute. reflexivity.
Qed.

(** C4 on the code.  The grids written in the first ten interactions of
    a run with one machine, three weeks and a budget of one change.  A load
    on weeks 0 and 1 keeps every reduction but that of the weekend of
    week 2 away: CreateSplitWeekEnd0 and seven ImproveSplitWeekEnd0 bring it
    from 9 to 1, one change on the weekend side.  When the load is gone,
    ReduceGlobal0, which is emitted without a look at the budget, lowers
    both sides of weeks 0 and 1, the weeks up to the earlier of the two last
    operating weeks: the weekday side gets a change of its own.  The tenth
    grid has two changes on its one machine, the remaining budget is -1. *)
Theorem reduceGlobal_exceeds_machine_budget :
  map (fun r => grid (overBudgetRun r) (Z.of_nat r)) (seq 0 10)
  = [[[(9, 9); (9, 9); (9, 9)]]; [[(9, 9); (9, 9); (9, 8)]]; [[(9, 9); (9, 9); (9, 7)]];
     [[(9, 9); (9, 9); (9, 6)]]; [[(9, 9); (9, 9); (9, 5)]]; [[(9, 9); (9, 9); (9, 4)]];
     [[(9, 9); (9, 9); (9, 3)]]; [[(9, 9); (9, 9); (9, 2)]]; [[(9, 9); (9, 9); (9, 1)]];
     [[(8, 8); (8, 8); (9, 1)]]]
  /\ map (fun r => Optimization.name (appliedMove (overBudgetRun r))) (seq 1 9)
     = ["CreateSplitWeekEnd0"; "ImproveSplitWeekEnd0"; "ImproveSplitWeekEnd0";
        "ImproveSplitWeekEnd0"; "ImproveSplitWeekEnd0"; "ImproveSplitWeekEnd0";
        "ImproveSplitWeekEnd0"; "ImproveSplitWeekEnd0"; "ReduceGlobal0"]
  /\ Solver.maxChanges (overBudgetRun 9) = 1
  /\ (let machine := idx (machines (Solver.currentState (overBudgetRun 9))) 0 emptyMachine in
      Solver.getChanges (overBudgetRun 9) (weekDayPatterns machine) = 1
      /\ Solver.getChanges (overBudgetRun 9) (weekEndPatterns machine) = 1
      /\ Solver.getRemainingChanges (overBudgetRun 9) machine = -1)
  /\ globalChanges (overBudgetRun 9) (Solver.currentState (overBudgetRun 9)) = 2.
Proof. cbv zeta. repeat split; vm_compute; reflexivity. Qed.

(** C7 on the code.  With both sides at pattern 9 in both weeks and
    loads 3 and 0, the mean load over the operating prefix (weeks 0 and 1)
    is 1.5, above 0.75.  The weekday guard fails, as it should; the weekend
    guard, whose sum starts at week 1, passes, and ReduceGlobalWeekEnd0 is
    generated. *)
Theorem weekend_guard_skips_week_zero :
  let sv := Solver.revert (firstCall 20 risingCosts 100 0 3 0) in
  let machine := idx (machines (Solver.currentState sv)) 0 emptyMachine in
  weekDayPatterns machine = [9; 9]
  /\ weekEndPatterns machine = [9; 9]
  /\ Solver.getLastOperatingWeeks sv machine = (1, 1)
  /\ fgt (loadSumFrom (loads machine) 0 2 / Z2double 2)%float 0.75%float = true
  /\ Solver.canReduceGlobalWeekDay sv machine = false
  /\ Solver.canReduceGlobalWeekEnd sv machine = true
  /\ names (named "ReduceGlobalWeekEnd0"
                  (Solver.generateOptimizations sv (Solver.currentState sv)))
     = ["ReduceGlobalWeekEnd0"].
Proof. cbv zeta. repeat split; vm_compute; reflexivity. Qed.

(** C2 on the code.  The grids written in the first twelve interactions
    of a run with one machine and two weeks.  Seven joint reductions bring
    every pattern to 2; a weekend reduction is rejected by a lower score
    and undone; CreateSplitWeekEnd0 shuts the weekend of week 1;
    ReduceGlobal0 then reduces week 0 only, leaving the weekday side at
    1 2; CreateSplitWeekDay0 finally reduces both weekday weeks, writing
    pattern 0 into week 0. *)
Theorem createSplit_writes_pattern_zero :
  map (fun r => grid (shrinkRun r) (Z.of_nat r)) (seq 0 12)
  = [[[(9, 9); (9, 9)]]; [[(8, 8); (8, 8)]]; [[(7, 7); (7, 7)]];
     [[(6, 6); (6, 6)]]; [[(5, 5); (5, 5)]]; [[(4, 4); (4, 4)]];
     [[(3, 3); (3, 3)]]; [[(2, 2); (2, 2)]]; [[(2, 1); (2, 1)]];
     [[(2, 2); (2, 1)]]; [[(1, 1); (2, 1)]]; [[(0, 1); (1, 1)]]]
  /\ map (fun r => Optimization.name (appliedMove (shrinkRun r))) (seq 8 4)
     = ["ReduceGlobalWeekEnd0"; "CreateSplitWeekEnd0"; "ReduceGlobal0"; "CreateSplitWeekDay0"]
  /\ Optimization.id (appliedMove (shrinkRun 11)) = "0-1-0-2-1_0-0-0-1-0"
  /\ map OptimizationPart.to (Optimization.parts (appliedMove (shrinkRun 11))) = [1; 0].
Proof. repeat split; vm_compute; reflexivity. Qed.

(** C1 at a concrete input: the second call of [refine] in a run whose
    scores are 0. *)
Lemma refine_reverts_on_zero_score_witness :
  Solver.states (secondCall 0 0 0) <> []
  /\ Solver.previousOptimization (secondCall 0 0 0) = Some (appliedMove (secondCall 0 0 0))
  /\ Optimization.id (appliedMove (secondCall 0 0 0))
     ∈ Solver.badOptimizations (Solver.refine (secondCall 0 0 0)).
Proof.
  assert (Hne : Solver.states (secondCall 0 0 0) <> []) by (vm_compute; discriminate).
  assert (Hprev : Solver.previousOptimization (secondCall 0 0 0)
                  = Some (appliedMove (secondCall 0 0 0))) by (vm_compute; reflexivity).
  split; [exact Hne|]. split; [exact Hprev|].
  apply (refine_reverts_on_zero_or_lower_score (secondCall 0 0 0) _ Hne Hprev).
  left. vm_compute. reflexivity.
Defined.

(** C3 at a concrete input: the first call of [refine] with flat unit
    costs. *)
Lemma refine_selects_above_minus_one_witness :
  Solver.states (firstCall 10 flatCosts 100 0 0 0) <> []
  /\ fgt (Optimization.costImprovement
            (appliedMove (Solver.refine (firstCall 10 flatCosts 100 0 0 0))))
         (-1)%float = true.
Proof.
  assert (Hne : Solver.states (firstCall 10 flatCosts 100 0 0 0) <> [])
    by (vm_compute; discriminate).
  split; [exact Hne|].
  apply (proj1 (refine_selects_above_minus_one _ Hne)).
  vm_compute. reflexivity.
Defined.

(** The guard of CreateSplit at a concrete input: the CreateSplitWeekDay0
    move of the first round with loads 3 and 0. *)
Lemma createSplit_keeps_machine_budget_witness :
  let sv := Solver.revert (firstCall 20 risingCosts 100 0 3 0) in
  let state := Solver.currentState sv in
  let o := nth 1 (Solver.generateOptimizations sv state) (Optimization.make "" []) in
  0 <= 0 < Solver.noMachines sv
  /\ Solver.noMachines sv <= vsize (machines state)
  /\ In o (Solver.generateOptimizations sv state)
  /\ Optimization.name o = createName WEEK_DAY +:+ itos 0
  /\ 0 <= Solver.getRemainingChanges sv
            (idx (machines (Optimization.apply o state)) 0 emptyMachine).
Proof.
  cbv zeta.
  assert (H1 : 0 <= 0 < Solver.noMachines (Solver.revert (firstCall 20 risingCosts 100 0 3 0)))
    by (vm_compute; split; [discriminate | reflexivity]).
  assert (H2 : Solver.noMachines (Solver.revert (firstCall 20 risingCosts 100 0 3 0))
               <= vsize (machines (Solver.currentState
                                     (Solver.revert (firstCall 20 risingCosts 100 0 3 0)))))
    by (vm_compute; discriminate).
  assert (H3 : In (nth 1 (Solver.generateOptimizations
                            (Solver.revert (firstCall 20 risingCosts 100 0 3 0))
                            (Solver.currentState (Solver.revert (firstCall 20 risingCosts 100 0 3 0))))
                         (Optimization.make "" []))
                  (Solver.generateOptimizations
                     (Solver.revert (firstCall 20 risingCosts 100 0 3 0))
                     (Solver.currentState (Solver.revert (firstCall 20 risingCosts 100 0 3 0)))))
    by (vm_compute; right; left; reflexivity).
  assert (H4 : Optimization.name
                 (nth 1 (Solver.generateOptimizations
                           (Solver.revert (firstCall 20 risingCosts 100 0 3 0))
                           (Solver.currentState (Solver.revert (firstCall 20 risingCosts 100 0 3 0))))
                        (Optimization.make "" []))
               = createName WEEK_DAY +:+ itos 0)
    by (vm_compute; reflexivity).
  repeat (split; [assumption|]).
  exact (createSplit_keeps_machine_budget _ _ WEEK_DAY 0 _ H1 H2 H3 H4).
Defined.

(** C5 at a concrete input: the weekend side with patterns 9 9 8. *)
Lemma improveSplit_one_per_qualifying_run_witness :
  let sv := Solver.revert twoRunsCall in
  0 <= 0 < Solver.noMachines sv
  /\ named (improveName WEEK_END +:+ itos 0)
           (Solver.generateOptimizations sv (Solver.currentState sv))
     = improveSplitsOf sv WEEK_END (Solver.currentState sv) 0.
Proof.
  cbv zeta.
  assert (H1 : 0 <= 0 < Solver.noMachines (Solver.revert twoRunsCall))
    by (vm_compute; split; [discriminate | reflexivity]).
  split; [exact H1|].
  exact (proj1 (improveSplit_one_per_qualifying_run _ _ WEEK_END 0 H1)).
Defined.

(** C6 at a concrete input: loads of 0.625 in both weeks. *)
Lemma reduceGlobalWeekDay_generated_iff_witness :
  let sv := Solver.revert (firstCall 20 risingCosts 100 0 0.625 0.625) in
  0 <= 0 < Solver.noMachines sv
  /\ exists o, In o (Solver.generateOptimizations sv (Solver.currentState sv))
               /\ Optimization.name o = "ReduceGlobalWeekDay" +:+ itos 0.
Proof.
  cbv zeta.
  assert (H1 : 0 <= 0 < Solver.noMachines (Solver.revert (firstCall 20 risingCosts 100 0 0.625 0.625)))
    by (vm_compute; split; [discriminate | reflexivity]).
  split; [exact H1|].
  apply (reduceGlobalWeekDay_generated_iff _ _ 0 H1).
  split; [vm_compute; discriminate|]. split.
  - intros j Hj.
    replace (fst (Solver.getLastOperatingWeeks _ _)) with 1 in Hj by (vm_compute; reflexivity).
    assert (Hc : j = 0 \/ j = 1) by lia. destruct Hc as [-> | ->]; vm_compute; reflexivity.
  - intros _. vm_compute. reflexivity.
Defined.

(** C8 at a concrete input: a run of two interactions, whose only call
    of [refine] prepares the last one. *)
Lemma shutdown_only_in_last_round_witness :
  let sv := refineCall (initialSolver 2 1 4 2 [risingCosts]) 0 (feedback 100 [[0; 0]]%float) in
  In (0, sv) (refineCalls (initialSolver 2 1 4 2 [risingCosts]) 0 [feedback 100 [[0; 0]]%float])
  /\ exists o, In o (candidates sv) /\ Optimization.name o = "Shutdown".
Proof.
  cbv zeta.
  assert (H1 : In (0, refineCall (initialSolver 2 1 4 2 [risingCosts]) 0 (feedback 100 [[0; 0]]%float))
                  (refineCalls (initialSolver 2 1 4 2 [risingCosts]) 0 [feedback 100 [[0; 0]]%float]))
    by (left; reflexivity).
  split; [exact H1|].
  apply (shutdown_only_in_last_round 2 1 4 2 [risingCosts] _ 0 _ H1). reflexivity.
Defined.

(** C9 at a concrete input: the move selected in the first round, on
    the state it was generated from. *)
Lemma undo_apply_round_trip_witness :
  let sv := Solver.revert (firstCall 20 risingCosts 100 0 0 0) in
  let mv := appliedMove (Solver.refine (firstCall 20 risingCosts 100 0 0 0)) in
  In mv (Solver.generateOptimizations sv (Solver.currentState sv))
  /\ Optimization.undo mv (Optimization.apply mv (Solver.currentState sv))
     = Solver.currentState sv.
Proof.
  cbv zeta.
  assert (H : In (appliedMove (Solver.refine (firstCall 20 risingCosts 100 0 0 0)))
                 (Solver.generateOptimizations
                    (Solver.revert (firstCall 20 risingCosts 100 0 0 0))
                    (Solver.currentState (Solver.revert (firstCall 20 risingCosts 100 0 0 0)))))
    by (vm_compute; left; reflexivity).
  split; [exact H|].
  exact (proj2 (proj2 (undo_apply_round_trip _) _ _ H)).
Defined.

(** C10 at a concrete input: two machines of which only machine 0 passes
    the guards. *)
Lemma identity_shared_witness :
  exists fleet single,
    named "ReduceGlobal"
          (Solver.generateOptimizations oneQualifies (Solver.currentState oneQualifies)) = [fleet]
    /\ named ("ReduceGlobal" +:+ itos 0)
             (Solver.generateOptimizations oneQualifies (Solver.currentState oneQualifies)) = [single]
    /\ Optimization.parts fleet = Optimization.parts single
    /\ Optimization.id fleet = Optimization.id single.
Proof.
  apply (proj1 (proj2 (proj2 (proj2 identity_ignores_name_and_blacklist_is_shared)))).
  - vm_compute. split; [discriminate | reflexivity].
  - vm_compute. discriminate.
  - vm_compute. reflexivity.
  - intros j Hj. replace (Solver.noMachines oneQualifies) with 2 in Hj by reflexivity.
    assert (Hc : j = 0 \/ j = 1) by lia. destruct Hc as [-> | ->].
    + split; [reflexivity | intros _; vm_compute; reflexivity].
    + split; [vm_compute; discriminate | discriminate].
Defined.

(** ** The further properties at concrete inputs *)

(** Membership in a computed list. *)
Ltac in_list := vm_compute; repeat first [left; reflexivity | right].

Lemma refineCalls_head solver i fb rest :
  i < Solver.noInteractions solver - 1 ->
  In (i, refineCall solver i fb) (refineCalls solver i (fb :: rest)).
Proof.
  intros H. cbn [refineCalls].
  destruct (Z.ltb_spec i (Solver.noInteractions solver)); [|lia].
  destruct (Z.eqb_spec i (Solver.noInteractions solver - 1)); [lia|].
  left. reflexivity.
Qed.

(** X4 at a concrete input: one part under two names and with two cost
    improvements. *)
Lemma same_identity_same_effect_witness :
  let parts := [OptimizationPart.mk 0 1 WEEK_END 9 8 15%float] in
  let parts' := [OptimizationPart.mk 0 1 WEEK_END 9 8 0%float] in
  Optimization.id (Optimization.make "ImproveSplitWeekEnd0" parts)
  = Optimization.id (Optimization.make "CreateSplitWeekEnd0" parts')
  /\ forall s,
       Optimization.apply (Optimization.make "ImproveSplitWeekEnd0" parts) s
       = Optimization.apply (Optimization.make "CreateSplitWeekEnd0" parts') s
       /\ Optimization.undo (Optimization.make "ImproveSplitWeekEnd0" parts) s
          = Optimization.undo (Optimization.make "CreateSplitWeekEnd0" parts') s.
Proof.
  cbv zeta.
  assert (H : Optimization.id (Optimization.make "ImproveSplitWeekEnd0"
                                 [OptimizationPart.mk 0 1 WEEK_END 9 8 15%float])
              = Optimization.id (Optimization.make "CreateSplitWeekEnd0"
                                   [OptimizationPart.mk 0 1 WEEK_END 9 8 0%float]))
    by reflexivity.
  split; [exact H|].
  exact (proj2 (same_identity_same_effect _ _ _ _ H)).
Defined.

(** X5 at a concrete input: loads 3 and 0 in the first round. *)
Lemma reduceGlobalWeekEnd_generated_iff_witness :
  let sv := Solver.revert (firstCall 20 risingCosts 100 0 3 0) in
  0 <= 0 < Solver.noMachines sv
  /\ exists o, In o (Solver.generateOptimizations sv (Solver.currentState sv))
               /\ Optimization.name o = "ReduceGlobalWeekEnd" +:+ itos 0.
Proof.
  cbv zeta.
  assert (H1 : 0 <= 0 < Solver.noMachines (Solver.revert (firstCall 20 risingCosts 100 0 3 0)))
    by (vm_compute; split; [discriminate | reflexivity]).
  split; [exact H1|].
  apply (proj1 (reduceGlobalWeekEnd_generated_iff _ _ 0 H1)).
  split; [vm_compute; discriminate|]. split.
  - intros j Hj.
    replace (snd (Solver.getLastOperatingWeeks _ _)) with 1 in Hj by (vm_compute; reflexivity).
    assert (Hc : j = 0 \/ j = 1) by lia. destruct Hc as [-> | ->]; vm_compute; reflexivity.
  - intros _. vm_compute. reflexivity.
Defined.

(** X6 at a concrete input: the move of the first round, rejected by a
    score of 50 after 100. *)
Lemma rejected_move_is_rolled_back_witness :
  let sv := firstCall 20 risingCosts 100 0 0 0 in
  let fb := feedback 50 [[0; 0]]%float in
  Solver.states sv <> []
  /\ patternsOfState
       (Solver.currentState
          (Solver.revert (refineCall (Solver.refine sv)
                                     (vsize (Solver.states (Solver.refine sv)) - 1) fb)))
     = patternsOfState (Solver.currentState (Solver.revert sv)).
Proof.
  cbv zeta.
  assert (Hne : Solver.states (firstCall 20 risingCosts 100 0 0 0) <> [])
    by (vm_compute; discriminate).
  assert (Hprev : Solver.previousOptimization (Solver.refine (firstCall 20 risingCosts 100 0 0 0))
                  = Some (appliedMove (Solver.refine (firstCall 20 risingCosts 100 0 0 0))))
    by (vm_compute; reflexivity).
  assert (Hrej : fbScore (feedback 50 [[0; 0]]%float) = 0
                 \/ fbScore (feedback 50 [[0; 0]]%float)
                    < Solver.bestScore (Solver.refine (firstCall 20 risingCosts 100 0 0 0)))
    by (right; vm_compute; reflexivity).
  split; [exact Hne|].
  exact (proj1 (rejected_move_is_rolled_back _ _ _ Hne Hprev Hrej)).
Defined.

(** X9 at a concrete input: the call of [refine] after the fleet-wide
    move was rejected. *)
Lemma reduceGlobal_never_generated_after_failure_witness :
  let fb := feedback 50 [[0; 0]; [0; 0]]%float in
  Solver.reduceGlobalFailed fleetRejected = true
  /\ forall o, In o (candidates (refineCall fleetRejected 2 fb)) ->
               Optimization.name o <> "ReduceGlobal".
Proof.
  cbv zeta.
  assert (Hflag : Solver.reduceGlobalFailed fleetRejected = true) by (vm_compute; reflexivity).
  assert (Hin : In (2, refineCall fleetRejected 2 (feedback 50 [[0; 0]; [0; 0]]%float))
                   (refineCalls fleetRejected 2 [feedback 50 [[0; 0]; [0; 0]]%float]))
    by (apply refineCalls_head; vm_compute; reflexivity).
  split; [exact Hflag|].
  exact (proj2 (proj2 (reduceGlobal_never_generated_after_failure _ _ _ _ _ Hflag Hin))).
Defined.

(** X10 at a concrete input: the first candidate of the first round. *)
Lemma generated_move_steps_down_witness :
  let sv := Solver.revert (firstCall 20 risingCosts 100 0 0 0) in
  let state := Solver.currentState sv in
  let o := nth 0 (Solver.generateOptimizations sv state) (Optimization.make "" []) in
  In o (Solver.generateOptimizations sv state)
  /\ ((forall x, slotValue (Optimization.apply o state) x = slotValue state x
                 \/ slotValue (Optimization.apply o state) x = slotValue state x - 1)
      \/ (Optimization.name o = "Shutdown"
          /\ forall x, slotValue (Optimization.apply o state) x = slotValue state x
                       \/ slotValue (Optimization.apply o state) x = 1)).
Proof.
  cbv zeta.
  assert (H : In (nth 0 (Solver.generateOptimizations
                           (Solver.revert (firstCall 20 risingCosts 100 0 0 0))
                           (Solver.currentState (Solver.revert (firstCall 20 risingCosts 100 0 0 0))))
                        (Optimization.make "" []))
                 (Solver.generateOptimizations
                    (Solver.revert (firstCall 20 risingCosts 100 0 0 0))
                    (Solver.currentState (Solver.revert (firstCall 20 risingCosts 100 0 0 0)))))
    by in_list.
  split; [exact H|]. exact (generated_move_steps_down _ _ _ H).
Defined.

(** X12 at a concrete input: the first grid, one round later. *)
Lemma written_grids_are_final_witness :
  let fbs := [feedback 100 [[0; 0]]%float] in
  let more := [feedback 50 [[0; 0]]%float] in
  0 <= 0 < vsize (Solver.states (runMain 2 1 4 20 [risingCosts] fbs))
  /\ grid (runMain 2 1 4 20 [risingCosts] (fbs ++ more)) 0
     = grid (runMain 2 1 4 20 [risingCosts] fbs) 0.
Proof.
  cbv zeta.
  assert (H : 0 <= 0 < vsize (Solver.states
                                (runMain 2 1 4 20 [risingCosts] [feedback 100 [[0; 0]]%float])))
    by (vm_compute; split; [discriminate | reflexivity]).
  split; [exact H|].
  exact (proj2 (written_grids_are_final 2 1 4 20 [risingCosts] _ [feedback 50 [[0; 0]]%float] 0 H)).
Defined.

(** X14 at a concrete input: the first round without load. *)
Lemma reduceGlobal_of_machine_needs_both_sides_witness :
  let sv := Solver.revert (firstCall 20 risingCosts 100 0 0 0) in
  let state := Solver.currentState sv in
  0 <= 0 < Solver.noMachines sv
  /\ forall o, In o (Solver.generateOptimizations sv state) ->
               Optimization.name o = "ReduceGlobal" +:+ itos 0 ->
               Optimization.parts o
               = flat_map (fun j => [Solver.reducePart WEEK_DAY state 0 j;
                                     Solver.reducePart WEEK_END state 0 j])
                   (seqZ 0 (Z.min (fst (Solver.getLastOperatingWeeks sv
                                          (idx (machines state) 0 emptyMachine)))
                                  (snd (Solver.getLastOperatingWeeks sv
                                          (idx (machines state) 0 emptyMachine))) + 1)).
Proof.
  cbv zeta.
  assert (H1 : 0 <= 0 < Solver.noMachines (Solver.revert (firstCall 20 risingCosts 100 0 0 0)))
    by (vm_compute; split; [discriminate | reflexivity]).
  split; [exact H1|].
  exact (proj2 (reduceGlobal_of_machine_needs_both_sides _ _ 0 H1)).
Defined.

(** X15 at a concrete input: a run of two interactions. *)
Lemma shutdown_closes_trailing_idle_weeks_witness :
  let sv := Solver.revert (refineCall (initialSolver 2 1 4 2 [risingCosts]) 0
                                      (feedback 100 [[0; 0]]%float)) in
  let state := Solver.currentState sv in
  let o := List.last (Solver.generateOptimizations sv state) (Optimization.make "" []) in
  In o (Solver.generateOptimizations sv state)
  /\ Optimization.name o = "Shutdown"
  /\ forall p q, In p (Optimization.parts o) -> In q (Optimization.parts o) ->
                 OptimizationPart.machine p = OptimizationPart.machine q ->
                 Solver.getRemainingChanges sv
                   (idx (machines state) (OptimizationPart.machine p) emptyMachine) = 1 ->
                 OptimizationPart.type p = OptimizationPart.type q.
Proof.
  cbv zeta.
  set (sv := Solver.revert (refineCall (initialSolver 2 1 4 2 [risingCosts]) 0
                                       (feedback 100 [[0; 0]]%float))).
  assert (H1 : In (List.last (Solver.generateOptimizations sv (Solver.currentState sv))
                        (Optimization.make "" []))
                  (Solver.generateOptimizations sv (Solver.currentState sv)))
    by in_list.
  assert (H2 : Optimization.name
                 (List.last (Solver.generateOptimizations sv (Solver.currentState sv))
                       (Optimization.make "" [])) = "Shutdown")
    by (vm_compute; reflexivity).
  split; [exact H1|]. split; [exact H2|].
  exact (proj2 (shutdown_closes_trailing_idle_weeks _ _ _ H1 H2)).
Defined.

(** X16 at a concrete input: the CreateSplitWeekDay0 move of the first
    round with loads 3 and 0. *)
Lemma createSplit_lowers_a_trailing_stretch_witness :
  let sv := Solver.revert (firstCall 20 risingCosts 100 0 3 0) in
  let state := Solver.currentState sv in
  let o := nth 1 (Solver.generateOptimizations sv state) (Optimization.make "" []) in
  0 <= 0 < Solver.noMachines sv
  /\ In o (Solver.generateOptimizations sv state)
  /\ Optimization.name o = createName WEEK_DAY +:+ itos 0
  /\ exists m,
       1 <= m <= lastOperating sv WEEK_DAY (idx (machines state) 0 emptyMachine) + 1
       /\ Optimization.parts o
          = map (Solver.reducePart WEEK_DAY state 0)
                (trailingWeeks (lastOperating sv WEEK_DAY (idx (machines state) 0 emptyMachine)) m).
Proof.
  cbv zeta.
  set (sv := Solver.revert (firstCall 20 risingCosts 100 0 3 0)).
  assert (H1 : 0 <= 0 < Solver.noMachines sv)
    by (vm_compute; split; [discriminate | reflexivity]).
  assert (H2 : In (nth 1 (Solver.generateOptimizations sv (Solver.currentState sv))
                       (Optimization.make "" []))
                  (Solver.generateOptimizations sv (Solver.currentState sv)))
    by in_list.
  assert (H3 : Optimization.name
                 (nth 1 (Solver.generateOptimizations sv (Solver.currentState sv))
                      (Optimization.make "" []))
               = createName WEEK_DAY +:+ itos 0)
    by (vm_compute; reflexivity).
  repeat (split; [assumption|]).
  destruct (createSplit_lowers_a_trailing_stretch _ _ WEEK_DAY 0 _ H1 H2 H3)
    as (m & Hm & Hparts & _).
  exists m. split; assumption.
Defined.

(** X17 at a concrete input: both weeks loaded, no global reduction
    passes its guard. *)
Lemma empty_fleet_reduction_is_a_candidate_witness :
  let sv := Solver.revert (firstCall 20 risingCosts 100 0 3 3) in
  In (Optimization.make "ReduceGlobal" [])
     (Solver.generateOptimizations sv (Solver.currentState sv)).
Proof.
  cbv zeta.
  apply (empty_fleet_reduction_is_a_candidate
           (Solver.revert (firstCall 20 risingCosts 100 0 3 3))).
  - vm_compute. discriminate.
  - vm_compute. reflexivity.
  - intros i Hi.
    replace (Solver.noMachines _) with 1 in Hi by (vm_compute; reflexivity).
    assert (i = 0) as -> by lia. vm_compute. reflexivity.
Defined.

(** X19 at a concrete input: the first state after the first feedback. *)
Lemma states_record_their_feedback_witness :
  let fb := feedback 100 [[0.5; 0.25]]%float in
  records 2 1 fb (idx (Solver.states (runMain 2 1 4 20 [risingCosts] [fb])) 0 emptyState).
Proof.
  cbv zeta.
  apply (states_record_their_feedback 2 1 4 20 [risingCosts] _ 0); [lia | reflexivity].
Defined.
